(** * Actionize: extraction of action items from meeting notes

    A shallow embedding of [actionize/parser.py] and [actionize/formatter.py].

    Text is a list of 8-bit characters read as Unicode code points 0..255
    (Latin-1); the character tables below ([is_space], [is_word], [lower],
    [is_linebreak]) are those of Python's [str] and [re] on that range.
    Patterns of the [re] module are values of [regex], run by a backtracking
    matcher with Python's priorities (greedy repetition, ordered choice). *)

From Stdlib Require Import Ascii String.
From Stdlib Require Import Bool List Arith ZArith NArith Lia.
From Stdlib Require Import Permutation Sorted.
Import ListNotations.

(** ** Characters *)

Definition text := list ascii.

Definition str (s : string) : text := list_ascii_of_string s.

Definition code (c : ascii) : N := N_of_ascii c.

Definition in_range (lo hi : N) (c : ascii) : bool :=
  (N.leb lo (code c) && N.leb (code c) hi)%bool.

Definition is_code (n : N) (c : ascii) : bool := N.eqb (code c) n.

(** [str.isspace] / [\s]: TAB..CR, FS..US, space, NEL, NBSP. *)
Definition is_space (c : ascii) : bool :=
  in_range 9 13 c || in_range 28 32 c || is_code 133 c || is_code 160 c.

(** [\d]: the decimal digits. *)
Definition is_digit (c : ascii) : bool := in_range 48 57 c.

Definition is_upper (c : ascii) : bool := in_range 65 90 c.
Definition is_lower (c : ascii) : bool := in_range 97 122 c.

(** [[A-Z]] or [[a-z]] under [re.IGNORECASE]: a letter of either case. *)
Definition is_alpha (c : ascii) : bool := is_upper c || is_lower c.

(** [\w]: alphanumeric ([str.isalnum]) or underscore. *)
Definition is_word (c : ascii) : bool :=
  is_digit c || is_alpha c || is_code 95 c
  || is_code 170 c || in_range 178 179 c || is_code 181 c
  || in_range 185 186 c || in_range 188 190 c
  || in_range 192 214 c || in_range 216 246 c || in_range 248 255 c.

(** [str.lower] on one character. *)
Definition lower (c : ascii) : ascii :=
  if is_upper c || in_range 192 214 c || in_range 216 222 c
  then ascii_of_N (code c + 32) else c.

(** Line boundaries of [str.splitlines]: LF VT FF CR FS GS RS NEL. *)
Definition is_linebreak (c : ascii) : bool :=
  in_range 10 13 c || in_range 28 30 c || is_code 133 c.

Definition newline : ascii := ascii_of_N 10.
Definition carriage_return : ascii := ascii_of_N 13.

(** ** Strings *)

Fixpoint text_eqb (a b : text) : bool :=
  match a, b with
  | [], [] => true
  | x :: a', y :: b' => Ascii.eqb x y && text_eqb a' b'
  | _, _ => false
  end.

Definition to_lower (s : text) : text := map lower s.

Fixpoint lstrip_by (p : ascii -> bool) (s : text) : text :=
  match s with
  | [] => []
  | c :: t => if p c then lstrip_by p t else s
  end.

Definition rstrip_by (p : ascii -> bool) (s : text) : text :=
  rev (lstrip_by p (rev s)).

(** [s.strip()] *)
Definition strip (s : text) : text := rstrip_by is_space (lstrip_by is_space s).

(** [s.rstrip(".")] *)
Definition rstrip_dot (s : text) : text := rstrip_by (is_code 46) s.

(** [s.splitlines()]; [cur] is the current line, reversed. *)
Fixpoint splitlines_from (cur : text) (s : text) : list text :=
  match s with
  | [] => match cur with [] => [] | _ => [rev cur] end
  | c :: t =>
      if is_linebreak c then
        rev cur ::
        (if Ascii.eqb c carriage_return then
           match t with
           | c' :: t' => if Ascii.eqb c' newline then splitlines_from [] t'
                         else splitlines_from [] t
           | [] => splitlines_from [] t
           end
         else splitlines_from [] t)
      else splitlines_from (c :: cur) t
  end.

Definition splitlines (s : text) : list text := splitlines_from [] s.

(** [int(s)] on a string of decimal digits. *)
Definition digit_val (c : ascii) : Z := Z.of_N (code c) - 48.

Definition int_of (s : text) : Z :=
  fold_left (fun acc c => 10 * acc + digit_val c)%Z s 0%Z.

(** ** Regular expressions

    The fragment of [re] syntax used by the parser.  Repetition is only ever
    applied to a single character class in the source patterns, so [Rep]
    carries a class and its bounds ([p*] is [Rep p 0 None], [p+] is
    [Rep p 1 None], [p{m,n}] is [Rep p m (Some n)]). *)

Inductive regex : Type :=
| Eps : regex
| Chr : (ascii -> bool) -> regex
| Rep : (ascii -> bool) -> nat -> option nat -> regex
| Seq : regex -> regex -> regex
| Alt : regex -> regex -> regex
| Opt : regex -> regex
| Grp : nat -> regex -> regex
| Bol : regex
| Eol : regex
| Wordb : regex.

Definition captures := list (nat * text).

Fixpoint group (n : nat) (caps : captures) : option text :=
  match caps with
  | [] => None
  | (i, w) :: rest => if Nat.eqb i n then Some w else group n rest
  end.

(** The part of [s] consumed when [s'] is what remains of it. *)
Definition consumed (s s' : text) : text := firstn (length s - length s') s.

Definition word_before (prev : option ascii) : bool :=
  match prev with Some c => is_word c | None => false end.

Definition word_after (s : text) : bool :=
  match s with c :: _ => is_word c | [] => false end.

Definition at_eol (s : text) : bool :=
  match s with
  | [] => true
  | [c] => Ascii.eqb c newline
  | _ => false
  end.

Definition more_allowed (hi : option nat) : bool :=
  match hi with Some 0 => false | _ => true end.

Section Matcher.
Variable A : Type.

(** Greedy repetition of a class: longest first, giving characters back
    one at a time while the continuation fails. *)
Fixpoint rep (p : ascii -> bool) (lo : nat) (hi : option nat)
    (prev : option ascii) (s : text)
    (k : option ascii -> text -> option A) {struct s} : option A :=
  let stop := match lo with 0 => k prev s | S _ => None end in
  match s with
  | [] => stop
  | c :: t =>
      if p c && more_allowed hi then
        match rep p (pred lo) (option_map pred hi) (Some c) t k with
        | Some x => Some x
        | None => stop
        end
      else stop
  end.

(** [run r prev s caps k]: match [r] at a position whose preceding
    character is [prev] ([None] at the start of the string) and whose
    remaining input is [s]; [k] is what has to match afterwards. *)
Fixpoint run (r : regex) (prev : option ascii) (s : text) (caps : captures)
    (k : option ascii -> text -> captures -> option A) {struct r} : option A :=
  match r with
  | Eps => k prev s caps
  | Chr p =>
      match s with
      | c :: t => if p c then k (Some c) t caps else None
      | [] => None
      end
  | Rep p lo hi => rep p lo hi prev s (fun prev' s' => k prev' s' caps)
  | Seq r1 r2 =>
      run r1 prev s caps (fun prev' s' caps' => run r2 prev' s' caps' k)
  | Alt r1 r2 =>
      match run r1 prev s caps k with
      | Some x => Some x
      | None => run r2 prev s caps k
      end
  | Opt r1 =>
      match run r1 prev s caps k with
      | Some x => Some x
      | None => k prev s caps
      end
  | Grp n r1 =>
      run r1 prev s caps
        (fun prev' s' caps' => k prev' s' ((n, consumed s s') :: caps'))
  | Bol => match prev with None => k prev s caps | Some _ => None end
  | Eol => if at_eol s then k prev s caps else None
  | Wordb =>
      if xorb (word_before prev) (word_after s) then k prev s caps else None
  end.
End Matcher.

Arguments rep {A} p lo hi prev s k.
Arguments run {A} r prev s caps k.

(** A match object: the matched text ([m.group(0)]), the text after the
    match, the last character before that text, and the groups. *)
Record rmatch : Type := mkMatch {
  m_whole : text;
  m_rest : text;
  m_prev : option ascii;
  m_caps : captures
}.

Definition accept (s : text) : option ascii -> text -> captures -> option rmatch :=
  fun prev' s' caps => Some (mkMatch (consumed s s') s' prev' caps).

Definition accept_end (s : text) : option ascii -> text -> captures -> option rmatch :=
  fun prev' s' caps =>
    match s' with
    | [] => Some (mkMatch s [] prev' caps)
    | _ => None
    end.

(** [m.group(n)] *)
Definition mgroup (n : nat) (m : rmatch) : option text := group n (m_caps m).

(** [re.match(r, s)] *)
Definition re_match (r : regex) (s : text) : option rmatch :=
  run r None s [] (accept s).

(** [re.fullmatch(r, s)] *)
Definition re_fullmatch (r : regex) (s : text) : option rmatch :=
  run r None s [] (accept_end s).

(** [re.search(r, s)]: the leftmost position at which [r] matches. *)
Fixpoint search_from (r : regex) (prev : option ascii) (s : text) : option rmatch :=
  match run r prev s [] (accept s) with
  | Some m => Some m
  | None =>
      match s with
      | [] => None
      | c :: t => search_from r (Some c) t
      end
  end.

Definition re_search (r : regex) (s : text) : option rmatch :=
  search_from r None s.

(** [re.sub(r, repl, s)].  Every call continues in a strictly shorter
    string, so a fuel of [length s + 1] is never exhausted.  None of the
    patterns given to [re.sub] in the source matches the empty string; an
    empty match inserts [repl] and moves one character on. *)
Fixpoint sub_from (fuel : nat) (r : regex) (repl : text)
    (prev : option ascii) (s : text) : text :=
  match fuel with
  | 0 => s
  | S fuel' =>
      let step :=
        match s with
        | [] => []
        | c :: t => c :: sub_from fuel' r repl (Some c) t
        end in
      match run r prev s [] (accept s) with
      | Some m =>
          if Nat.ltb (length (m_rest m)) (length s)
          then repl ++ sub_from fuel' r repl (m_prev m) (m_rest m)
          else repl ++ step
      | None => step
      end
  end.

Definition re_sub (r : regex) (repl : text) (s : text) : text :=
  sub_from (S (length s)) r repl None s.

(** *** Pattern syntax *)

Definition chr (a : ascii) : ascii -> bool := fun c => Ascii.eqb c a.

(** A literal character under [re.IGNORECASE]. *)
Definition chr_ci (a : ascii) : ascii -> bool :=
  fun c => Ascii.eqb (lower c) (lower a).

Definition one_of (l : text) : ascii -> bool :=
  fun c => existsb (Ascii.eqb c) l.

Definition none_of (l : text) : ascii -> bool :=
  fun c => negb (existsb (Ascii.eqb c) l).

(** [.] without [re.DOTALL] *)
Definition dot : ascii -> bool := none_of [newline].

Fixpoint seq_of (l : list regex) : regex :=
  match l with
  | [] => Eps
  | [r] => r
  | r :: l' => Seq r (seq_of l')
  end.

Fixpoint alt_of (r : regex) (l : list regex) : regex :=
  match l with
  | [] => r
  | r' :: l' => Alt r (alt_of r' l')
  end.

Definition lit (s : string) : regex := seq_of (map (fun a => Chr (chr a)) (str s)).
Definition lit_ci (s : string) : regex := seq_of (map (fun a => Chr (chr_ci a)) (str s)).

Definition star (p : ascii -> bool) : regex := Rep p 0 None.
Definition plus (p : ascii -> bool) : regex := Rep p 1 None.
Definition times (p : ascii -> bool) (lo hi : nat) : regex := Rep p lo (Some hi).

(** ** Errors

    The only exception that can escape the parser is the [OverflowError] of
    [date + timedelta] past [date.max]; [ValueError] is caught where it is
    raised and is modelled by [option]. *)

Inductive result (A : Type) : Type :=
| Ok : A -> result A
| Raised : result A.

Arguments Ok {A} _.
Arguments Raised {A}.

Definition bind {A B : Type} (x : result A) (f : A -> result B) : result B :=
  match x with
  | Ok a => f a
  | Raised => Raised
  end.

Notation "x <- e ;; k" := (bind e (fun x => k))
  (at level 61, e at next level, right associativity).

(** ** Calendar dates ([datetime.date])

    A [date] holds year, month and day; [make_date] is the constructor
    [date(y, m, d)], which raises [ValueError] ([None]) outside the proleptic
    Gregorian calendar of the years 1..9999. *)

Local Open Scope Z_scope.

Record date : Type := mkDate { year : Z; month : Z; day : Z }.

Definition MINYEAR : Z := 1.
Definition MAXYEAR : Z := 9999.

Definition is_leap (y : Z) : bool :=
  (y mod 4 =? 0) && (negb (y mod 100 =? 0) || (y mod 400 =? 0)).

Definition days_in_month (y m : Z) : Z :=
  match m with
  | 1 => 31 | 2 => if is_leap y then 29 else 28 | 3 => 31 | 4 => 30
  | 5 => 31 | 6 => 30 | 7 => 31 | 8 => 31 | 9 => 30 | 10 => 31
  | 11 => 30 | 12 => 31
  | _ => 0
  end.

Definition valid_ymd (y m d : Z) : bool :=
  (MINYEAR <=? y) && (y <=? MAXYEAR) && (1 <=? m) && (m <=? 12)
  && (1 <=? d) && (d <=? days_in_month y m).

Definition valid_date (d : date) : bool := valid_ymd (year d) (month d) (day d).

Definition make_date (y m d : Z) : option date :=
  if valid_ymd y m d then Some (mkDate y m d) else None.

Definition days_before_year (y : Z) : Z :=
  let p := y - 1 in p * 365 + p / 4 - p / 100 + p / 400.

Definition days_before_month (y m : Z) : Z :=
  match m with
  | 1 => 0 | 2 => 31 | 3 => 59 | 4 => 90 | 5 => 120 | 6 => 151
  | 7 => 181 | 8 => 212 | 9 => 243 | 10 => 273 | 11 => 304 | 12 => 334
  | _ => 0
  end + (if (2 <? m) && is_leap y then 1 else 0).

(** [d.toordinal()]: 0001-01-01 is day 1. *)
Definition toordinal (d : date) : Z :=
  days_before_year (year d) + days_before_month (year d) (month d) + day d.

(** [d.weekday()]: Monday is 0, Sunday is 6. *)
Definition weekday (d : date) : Z := (toordinal d + 6) mod 7.

(** The day after [d]; [None] after [date.max]. *)
Definition next_day (d : date) : option date :=
  if day d <? days_in_month (year d) (month d)
  then Some (mkDate (year d) (month d) (day d + 1))
  else if month d <? 12 then Some (mkDate (year d) (month d + 1) 1)
  else if year d <? MAXYEAR then Some (mkDate (year d + 1) 1 1)
  else None.

(** [d + timedelta(days=k)] for [k >= 0]: the date [k] days after [d], or
    [OverflowError] when that date lies past [date.max]. *)
Fixpoint add_days (d : date) (k : nat) : result date :=
  match k with
  | O => Ok d
  | S k' =>
      match next_day d with
      | Some d' => add_days d' k'
      | None => Raised
      end
  end.

Definition digit_char (n : Z) : ascii := ascii_of_N (Z.to_N (48 + n mod 10)).

Definition pad2 (n : Z) : text := [digit_char (n / 10); digit_char n].

Definition pad4 (n : Z) : text :=
  [digit_char (n / 1000); digit_char (n / 100); digit_char (n / 10); digit_char n].

(** [d.isoformat()]: ["%04d-%02d-%02d"]. *)
Definition isoformat (d : date) : text :=
  pad4 (year d) ++ str "-" ++ pad2 (month d) ++ str "-" ++ pad2 (day d).

Definition hyphen : ascii := ascii_of_N 45.

(** [date.fromisoformat(s)] for the exact form [YYYY-MM-DD] (section 4.1,
    step 2 of the specification; the form that every version of Python
    accepts); [None] is [ValueError].  Python 3.11 and later also accept
    dates without hyphens and week dates, strings of digits, hyphens and
    the letter W. *)
Definition fromisoformat (s : text) : option date :=
  match s with
  | [y1; y2; y3; y4; h1; m1; m2; h2; d1; d2] =>
      if forallb is_digit [y1; y2; y3; y4; m1; m2; d1; d2]
         && Ascii.eqb h1 hyphen && Ascii.eqb h2 hyphen
      then make_date (int_of [y1; y2; y3; y4]) (int_of [m1; m2]) (int_of [d1; d2])
      else None
  | _ => None
  end.

(** ** Lookup tables *)

Fixpoint dict_get {V : Type} (d : list (string * V)) (k : text) : option V :=
  match d with
  | [] => None
  | (k', v) :: d' => if text_eqb (str k') k then Some v else dict_get d' k
  end.

Definition _MONTH_NAMES : list (string * Z) :=
  [ ("jan", 1); ("january", 1);
    ("feb", 2); ("february", 2);
    ("mar", 3); ("march", 3);
    ("apr", 4); ("april", 4);
    ("may", 5);
    ("jun", 6); ("june", 6);
    ("jul", 7); ("july", 7);
    ("aug", 8); ("august", 8);
    ("sep", 9); ("sept", 9); ("september", 9);
    ("oct", 10); ("october", 10);
    ("nov", 11); ("november", 11);
    ("dec", 12); ("december", 12) ]%string.

Definition _DAY_NAMES : list (string * Z) :=
  [ ("monday", 0); ("mon", 0);
    ("tuesday", 1); ("tue", 1); ("tues", 1);
    ("wednesday", 2); ("wed", 2);
    ("thursday", 3); ("thu", 3); ("thurs", 3); ("thur", 3);
    ("friday", 4); ("fri", 4);
    ("saturday", 5); ("sat", 5);
    ("sunday", 6); ("sun", 6) ]%string.

Definition _PRIORITY_MAP : list (string * text) :=
  [ ("p0", str "critical");
    ("p1", str "high");
    ("p2", str "normal") ]%string.

(** ** normalize_date *)

Definition is_empty (s : text) : bool :=
  match s with [] => true | _ => false end.

Definition is_some {A : Type} (o : option A) : bool :=
  match o with Some _ => true | None => false end.

(** [m.group(n)] where a string is expected; an unset group reads as [""]
    ([m.group(n) or ""]). *)
Definition group_str (n : nat) (m : rmatch) : text :=
  match mgroup n m with Some w => w | None => [] end.

(** [q[1-4]] *)
Definition re_quarter : regex :=
  seq_of [Chr (chr "q"); Chr (one_of (str "1234"))].

(** [next\s+(\w+)] *)
Definition re_relative : regex :=
  seq_of [lit "next"; plus is_space; Grp 1 (plus is_word)].

(** [(\d{1,2})/(\d{1,2})(?:/(\d{2,4}))?] *)
Definition re_slash : regex :=
  seq_of [Grp 1 (times is_digit 1 2); Chr (chr "/"); Grp 2 (times is_digit 1 2);
          Opt (seq_of [Chr (chr "/"); Grp 3 (times is_digit 2 4)])].

(** [(?:\s*,?\s*(\d{4}))?] *)
Definition re_opt_year : regex :=
  Opt (seq_of [star is_space; Opt (Chr (chr ",")); star is_space;
               Grp 3 (times is_digit 4 4)]).

(** [(\w+)\s+(\d{1,2})(?:\s*,?\s*(\d{4}))?] *)
Definition re_month_day : regex :=
  seq_of [Grp 1 (plus is_word); plus is_space; Grp 2 (times is_digit 1 2);
          re_opt_year].

(** [(\d{1,2})\s+(\w+)(?:\s*,?\s*(\d{4}))?] *)
Definition re_day_month : regex :=
  seq_of [Grp 1 (times is_digit 1 2); plus is_space; Grp 2 (plus is_word);
          re_opt_year].

(** [date(y, m, d).isoformat()], or [""] on [ValueError]. *)
Definition iso_or_empty (y m d : Z) : text :=
  match make_date y m d with
  | Some dt => isoformat dt
  | None => []
  end.

Definition year_or_current (today : date) (m : rmatch) : Z :=
  match mgroup 3 m with
  | Some w => if is_empty w then year today else int_of w
  | None => year today
  end.

Definition normalize_date (today : date) (raw : text) : result text :=
  let raw := strip raw in
  if is_empty raw then Ok [] else
  (* 1) Already ISO-8601 *)
  match fromisoformat raw with
  | Some parsed => Ok (isoformat parsed)
  | None =>
  let lowered := to_lower raw in
  (* 2) Quarter references *)
  if is_some (re_fullmatch re_quarter lowered) then Ok [] else
  (* 3) Relative day *)
  match re_fullmatch re_relative lowered with
  | Some m_relative =>
      let day_name := group_str 1 m_relative in
      match dict_get _DAY_NAMES day_name with
      | Some target_weekday =>
          let current_weekday := weekday today in
          let days_ahead := (target_weekday - current_weekday) mod 7 in
          let days_ahead := if days_ahead =? 0 then 7 else days_ahead in
          result <- add_days today (Z.to_nat days_ahead) ;;
          Ok (isoformat result)
      | None => Ok []
      end
  | None =>
  (* 4) "today" / "tomorrow" *)
  if text_eqb lowered (str "today") then Ok (isoformat today) else
  if text_eqb lowered (str "tomorrow") then
    (result <- add_days today 1 ;; Ok (isoformat result)) else
  (* 5) US-style slash date *)
  match re_fullmatch re_slash raw with
  | Some m_slash =>
      let month := int_of (group_str 1 m_slash) in
      let day := int_of (group_str 2 m_slash) in
      let year :=
        match mgroup 3 m_slash with
        | Some year_str =>
            if is_empty year_str then year today
            else let year := int_of year_str in
                 if year <? 100 then year + 2000 else year
        | None => year today
        end in
      Ok (iso_or_empty year month day)
  | None =>
  (* 6) Month-name date, pattern A: "Month Day[, Year]" *)
  let pattern_a :=
    match re_fullmatch re_month_day raw with
    | Some m_month_day =>
        let month_str := to_lower (group_str 1 m_month_day) in
        match dict_get _MONTH_NAMES month_str with
        | Some month =>
            let day := int_of (group_str 2 m_month_day) in
            let year := year_or_current today m_month_day in
            Some (iso_or_empty year month day)
        | None => None
        end
    | None => None
    end in
  match pattern_a with
  | Some r => Ok r
  | None =>
  (* Pattern B: "Day Month[, Year]" *)
  let pattern_b :=
    match re_fullmatch re_day_month raw with
    | Some m_day_month =>
        let day := int_of (group_str 1 m_day_month) in
        let month_str := to_lower (group_str 2 m_day_month) in
        match dict_get _MONTH_NAMES month_str with
        | Some month =>
            let year := year_or_current today m_day_month in
            Some (iso_or_empty year month day)
        | None => None
        end
    | None => None
    end in
  match pattern_b with
  | Some r => Ok r
  | None => Ok []
  end end end end end.

(** ** ActionItem *)

Record ActionItem : Type := mkActionItem {
  task : text;
  owner : text;
  due_date : text;
  priority : text;
  raw_line : text
}.

Definition unassigned : text := str "unassigned".

(** ** Internal helpers of parse_meeting_notes *)

(** [P[012]] under [re.IGNORECASE] *)
Definition re_ptag : regex := seq_of [Chr (chr_ci "P"); Chr (one_of (str "012"))].

(** [\(?\b(P[012])\b\)?] *)
Definition re_priority_token : regex :=
  seq_of [Opt (Chr (chr "(")); Wordb; Grp 1 re_ptag; Wordb; Opt (Chr (chr ")"))].

(** [Priority:\s*(P[012])\b] *)
Definition re_priority_label : regex :=
  seq_of [lit_ci "Priority:"; star is_space; Grp 1 re_ptag; Wordb].

Definition priority_of (m : rmatch) : text :=
  match dict_get _PRIORITY_MAP (to_lower (group_str 1 m)) with
  | Some p => p
  | None => str "normal"
  end.

Definition _extract_priority (line : text) : text :=
  match re_search re_priority_token line with
  | Some m => priority_of m
  | None =>
      match re_search re_priority_label line with
      | Some m2 => priority_of m2
      | None => str "normal"
      end
  end.

(** [[A-Z][a-z]+(?:\s+[A-Z][a-z]+)?] *)
Definition re_name : regex :=
  seq_of [Chr is_upper; plus is_lower;
          Opt (seq_of [plus is_space; Chr is_upper; plus is_lower])].

(** The same under [re.IGNORECASE]. *)
Definition re_name_ci : regex :=
  seq_of [Chr is_alpha; plus is_alpha;
          Opt (seq_of [plus is_space; Chr is_alpha; plus is_alpha])].

(** [Owner:\s*([A-Z][a-z]+(?:\s+[A-Z][a-z]+)?)] *)
Definition re_owner_label : regex :=
  seq_of [lit "Owner:"; star is_space; Grp 1 re_name].

(** [\(owner\s+([A-Z][a-z]+(?:\s+[A-Z][a-z]+)?)\)] under [re.IGNORECASE] *)
Definition re_owner_paren : regex :=
  seq_of [Chr (chr "("); lit_ci "owner"; plus is_space; Grp 1 re_name_ci;
          Chr (chr ")")].

(** [\(no\s+owner] under [re.IGNORECASE] *)
Definition re_no_owner : regex :=
  seq_of [Chr (chr "("); lit_ci "no"; plus is_space; lit_ci "owner"].

Definition _extract_owner (line : text) : text :=
  match re_search re_owner_label line with
  | Some m => strip (group_str 1 m)
  | None =>
      match re_search re_owner_paren line with
      | Some m2 => strip (group_str 1 m2)
      | None =>
          if is_some (re_search re_no_owner line) then unassigned
          else unassigned
      end
  end.

(** [[^;.\n]+] *)
Definition re_until_punct : regex := plus (none_of (str ";." ++ [newline])).

(** [[Dd]ue:?\s+([^;.\n]+)] *)
Definition re_due : regex :=
  seq_of [Chr (one_of (str "Dd")); lit "ue"; Opt (Chr (chr ":")); plus is_space;
          Grp 1 re_until_punct].

(** [\bby\s+([^;.\n]+)] under [re.IGNORECASE] *)
Definition re_by : regex :=
  seq_of [Wordb; lit_ci "by"; plus is_space; Grp 1 re_until_punct].

(** [\(P[012]\)] under [re.IGNORECASE] *)
Definition re_paren_ptag : regex :=
  seq_of [Chr (chr "("); re_ptag; Chr (chr ")")].

(** [\s*\(P[012]\)\s*$] under [re.IGNORECASE] *)
Definition re_trailing_ptag : regex :=
  seq_of [star is_space; re_paren_ptag; star is_space; Eol].

(** The date behind a ["due"] or ["by"] match, normalized. *)
Definition due_of (today : date) (m : rmatch) : result text :=
  let raw_date := rstrip_dot (strip (group_str 1 m)) in
  let raw_date := re_sub re_trailing_ptag [] raw_date in
  normalize_date today raw_date.

Definition _extract_due_date (today : date) (line : text) : result text :=
  first <-
    match re_search re_due line with
    | Some m => due_of today m
    | None => Ok []
    end ;;
  if negb (is_empty first) then Ok first else
  second <-
    match re_search re_by line with
    | Some m2 => due_of today m2
    | None => Ok []
    end ;;
  if negb (is_empty second) then Ok second else
  Ok [].

(** [\s*;?\s*] *)
Definition re_opt_semi : regex :=
  seq_of [star is_space; Opt (Chr (chr ";")); star is_space].

(** [\s*;?\s*Owner:\s*[A-Z][a-z]+(?:\s+[A-Z][a-z]+)?\s*;?] *)
Definition re_strip_owner_label : regex :=
  seq_of [re_opt_semi; lit "Owner:"; star is_space; re_name; star is_space;
          Opt (Chr (chr ";"))].

(** [\s*\(owner\s+\w+\)] under [re.IGNORECASE] *)
Definition re_strip_owner_paren : regex :=
  seq_of [star is_space; Chr (chr "("); lit_ci "owner"; plus is_space;
          plus is_word; Chr (chr ")")].

(** [\s*;?\s*[Dd]ue:?\s+[^;.\n]+] *)
Definition re_strip_due : regex :=
  seq_of [re_opt_semi; Chr (one_of (str "Dd")); lit "ue"; Opt (Chr (chr ":"));
          plus is_space; re_until_punct].

(** [(?:Jan|Feb|Mar|Apr|May|Jun|Jul|Aug|Sep|Oct|Nov|Dec)] under
    [re.IGNORECASE] *)
Definition re_month_abbrev : regex :=
  alt_of (lit_ci "Jan")
    [lit_ci "Feb"; lit_ci "Mar"; lit_ci "Apr"; lit_ci "May"; lit_ci "Jun";
     lit_ci "Jul"; lit_ci "Aug"; lit_ci "Sep"; lit_ci "Oct"; lit_ci "Nov";
     lit_ci "Dec"].

(** [\s+by\s+(?:next\s+\w+|\d{1,2}/\d{1,2}(?:/\d{2,4})?|\d{4}-\d{2}-\d{2}|
    (?:Jan|...|Dec)\w*\s+\d{1,2}(?:\s*,?\s*\d{4})?)] under [re.IGNORECASE] *)
Definition re_strip_by : regex :=
  seq_of [plus is_space; lit_ci "by"; plus is_space;
    alt_of
      (seq_of [lit_ci "next"; plus is_space; plus is_word])
      [seq_of [times is_digit 1 2; Chr (chr "/"); times is_digit 1 2;
               Opt (seq_of [Chr (chr "/"); times is_digit 2 4])];
       seq_of [times is_digit 4 4; Chr (chr "-"); times is_digit 2 2;
               Chr (chr "-"); times is_digit 2 2];
       seq_of [re_month_abbrev; star is_word; plus is_space; times is_digit 1 2;
               Opt (seq_of [star is_space; Opt (Chr (chr ",")); star is_space;
                            times is_digit 4 4])]]].

(** [\s*;?\s*Priority:\s*P[012]\s*;?] under [re.IGNORECASE] *)
Definition re_strip_priority : regex :=
  seq_of [re_opt_semi; lit_ci "Priority:"; star is_space; re_ptag; star is_space;
          Opt (Chr (chr ";"))].

(** [\s*\(P[012]\)] under [re.IGNORECASE] *)
Definition re_strip_ptag : regex := seq_of [star is_space; re_paren_ptag].

(** [\s*\(no\s+owner\s+\w*\)] under [re.IGNORECASE] *)
Definition re_strip_no_owner : regex :=
  seq_of [star is_space; Chr (chr "("); lit_ci "no"; plus is_space;
          lit_ci "owner"; plus is_space; star is_word; Chr (chr ")")].

(** [\s*;\s*$] *)
Definition re_trailing_semi : regex :=
  seq_of [star is_space; Chr (chr ";"); star is_space; Eol].

(** [\s{2,}] *)
Definition re_spaces : regex := Rep is_space 2 None.

(** The seven metadata patterns of the cleaner, in the order it applies them. *)
Definition metadata_patterns : list regex :=
  [re_strip_owner_label; re_strip_owner_paren; re_strip_due; re_strip_by;
   re_strip_priority; re_strip_ptag; re_strip_no_owner].

(** The residual clean-up that follows the metadata removal. *)
Definition tidy (task : text) : text :=
  let task := re_sub re_trailing_semi [] task in
  let task := re_sub re_spaces (str " ") task in
  strip (rstrip_dot (strip task)).

Definition _clean_task_text (task : text) : text :=
  let task := re_sub re_strip_owner_label [] task in
  let task := re_sub re_strip_owner_paren [] task in
  let task := re_sub re_strip_due [] task in
  let task := re_sub re_strip_by [] task in
  let task := re_sub re_strip_priority [] task in
  let task := re_sub re_strip_ptag [] task in
  let task := re_sub re_strip_no_owner [] task in
  tidy task.

(** ** parse_meeting_notes *)

(** [^TODO:\s*(.+)] under [re.IGNORECASE] *)
Definition _RE_TODO : regex :=
  seq_of [Bol; lit_ci "TODO:"; star is_space; Grp 1 (plus dot)].

(** [^Action:\s*(.+)] under [re.IGNORECASE] *)
Definition _RE_ACTION : regex :=
  seq_of [Bol; lit_ci "Action:"; star is_space; Grp 1 (plus dot)].

(** [^ACTION\s+ITEM\s*(?:--|[—:\-])\s*(.+)] under [re.IGNORECASE].
    U+2014 lies outside the 8-bit alphabet of [text]; on such text the class
    accepts [:] and [-]. *)
Definition _RE_ACTION_ITEM : regex :=
  seq_of [Bol; lit_ci "ACTION"; plus is_space; lit_ci "ITEM"; star is_space;
          Alt (lit "--") (Chr (one_of (str ":-")));
          star is_space; Grp 1 (plus dot)].

(** [^Reminder:\s*(.+)] under [re.IGNORECASE] *)
Definition _RE_REMINDER : regex :=
  seq_of [Bol; lit_ci "Reminder:"; star is_space; Grp 1 (plus dot)].

Definition re_verb : regex :=
  alt_of (lit_ci "draft")
    [lit_ci "send"; lit_ci "create"; lit_ci "write"; lit_ci "fix";
     lit_ci "update"; lit_ci "review"; lit_ci "prepare"; lit_ci "build";
     lit_ci "design"; lit_ci "implement"; lit_ci "schedule"; lit_ci "reach";
     lit_ci "migrate"; seq_of [lit_ci "set"; plus is_space; lit_ci "up"];
     lit_ci "check"; lit_ci "follow"; lit_ci "complete"; lit_ci "submit";
     lit_ci "finalize"; lit_ci "organize"; lit_ci "coordinate";
     lit_ci "investigate"; lit_ci "test"; lit_ci "deploy"; lit_ci "audit";
     lit_ci "document"; lit_ci "analyze"; lit_ci "configure"; lit_ci "remove";
     lit_ci "add"; lit_ci "refactor"; lit_ci "propose"; lit_ci "plan";
     lit_ci "outline"; lit_ci "establish"].

(** [^([A-Z][a-z]+)\s+to\s+(draft|...|establish)\b(.+)?] under
    [re.IGNORECASE] *)
Definition _RE_NAME_TO_VERB : regex :=
  seq_of [Bol; Grp 1 (seq_of [Chr is_alpha; plus is_alpha]); plus is_space;
          lit_ci "to"; plus is_space; Grp 2 re_verb; Wordb;
          Opt (Grp 3 (plus dot))].

(** [(?:^|\W)Decisions?:\s*] under [re.IGNORECASE] *)
Definition _RE_DECISION : regex :=
  seq_of [Alt Bol (Chr (fun c => negb (is_word c))); lit_ci "Decision";
          Opt (Chr (chr_ci "s")); Chr (chr ":"); star is_space].

(** [\(P[012]\)] under [re.IGNORECASE] *)
Definition _RE_PRIORITY_TAG : regex := re_paren_ptag.

(** The classification steps 1 to 6 of the loop body: the raw task text, if
    the line is an action item, and the owner the pattern itself gives. *)
Definition classify (line : text) : option text * text :=
  let task_text : option text := None in
  let owner := unassigned in
  (* 1) "TODO: ..." *)
  let task_text :=
    match re_match _RE_TODO line with
    | Some m => mgroup 1 m
    | None => task_text
    end in
  (* 2) "Action: ..." *)
  let task_text :=
    match task_text with
    | None =>
        match re_match _RE_ACTION line with
        | Some m => mgroup 1 m
        | None => task_text
        end
    | Some _ => task_text
    end in
  (* 3) "ACTION ITEM -- ..." *)
  let task_text :=
    match task_text with
    | None =>
        match re_match _RE_ACTION_ITEM line with
        | Some m => mgroup 1 m
        | None => task_text
        end
    | Some _ => task_text
    end in
  (* 4) "Reminder: ..." *)
  let task_text :=
    match task_text with
    | None =>
        match re_match _RE_REMINDER line with
        | Some m => mgroup 1 m
        | None => task_text
        end
    | Some _ => task_text
    end in
  (* 5) "Name to verb..." *)
  let '(task_text, owner) :=
    match task_text with
    | None =>
        match re_match _RE_NAME_TO_VERB line with
        | Some m =>
            let verb := group_str 2 m in
            let rest := group_str 3 m in
            (Some (strip (verb ++ rest)), group_str 1 m)
        | None => (task_text, owner)
        end
    | Some _ => (task_text, owner)
    end in
  (* 6) Lines with a priority tag like (P1) *)
  let task_text :=
    match task_text with
    | None =>
        if is_some (re_search _RE_PRIORITY_TAG line) then Some line
        else task_text
    | Some _ => task_text
    end in
  (task_text, owner).

(** One iteration of the loop of [parse_meeting_notes]: the item appended for
    [raw_line], if any. *)
Definition parse_line (today : date) (raw_line : text) : result (option ActionItem) :=
  let line := strip raw_line in
  if is_empty line then Ok None else
  (* Skip non-action lines *)
  if is_some (re_search _RE_DECISION line) then Ok None else
  let '(task_text, owner) := classify line in
  match task_text with
  | None => Ok None
  | Some task_text =>
      (* Extract metadata *)
      let extracted_owner := _extract_owner line in
      let owner :=
        if negb (text_eqb extracted_owner unassigned) then extracted_owner
        else owner in
      due <- _extract_due_date today line ;;
      let priority := _extract_priority line in
      (* Clean task text *)
      let clean_task := _clean_task_text task_text in
      if is_empty clean_task then Ok None else
      Ok (Some (mkActionItem clean_task owner due priority (strip raw_line)))
  end.

Fixpoint parse_lines (today : date) (lines : list text) : result (list ActionItem) :=
  match lines with
  | [] => Ok []
  | raw_line :: rest =>
      item <- parse_line today raw_line ;;
      items <- parse_lines today rest ;;
      Ok (match item with Some it => it :: items | None => items end)
  end.

Definition parse_meeting_notes (today : date) (text : text) : result (list ActionItem) :=
  parse_lines today (splitlines text).

(** ** Formatter: sort_items *)

(** Python orders values of several types with one generic comparison;
    tuples are compared component by component, from the left. *)
Class Compare (T : Type) : Type := compare : T -> T -> comparison.

(** Comparison of [bool] values: [False < True]. *)
Definition bool_compare (a b : bool) : comparison :=
  match a, b with
  | false, true => Lt
  | true, false => Gt
  | _, _ => Eq
  end.

(** Comparison of [str] values: lexicographic on code points. *)
Fixpoint text_compare (a b : text) : comparison :=
  match a, b with
  | [], [] => Eq
  | [], _ :: _ => Lt
  | _ :: _, [] => Gt
  | x :: a', y :: b' =>
      match N.compare (code x) (code y) with
      | Eq => text_compare a' b'
      | c => c
      end
  end.

Definition pair_compare {A B : Type} `{Compare A} `{Compare B}
    (p q : A * B) : comparison :=
  match compare (fst p) (fst q) with
  | Eq => compare (snd p) (snd q)
  | c => c
  end.

#[global] Instance Compare_bool : Compare bool := bool_compare.
#[global] Instance Compare_text : Compare text := text_compare.
#[global] Instance Compare_pair {A B : Type} `{Compare A} `{Compare B} :
  Compare (A * B) := pair_compare.

(** [a <= b], that is [not (b < a)]. *)
Definition le_by {T : Type} `{Compare T} (a b : T) : bool :=
  match compare a b with Gt => false | _ => true end.

Definition sort_key : Type := (bool * text * bool * text)%type.

Definition owner_unknown (item : ActionItem) : bool :=
  text_eqb (to_lower (owner item)) [] || text_eqb (to_lower (owner item)) unassigned.

Definition date_unknown (item : ActionItem) : bool := text_eqb (due_date item) [].

Definition _sort_key (item : ActionItem) : sort_key :=
  (owner_unknown item, to_lower (owner item), date_unknown item, due_date item).

(** [sorted(items, key=f)]: a stable sort, written as the insertion sort
    that puts an element before the first one whose key is not smaller. *)
Section Sorted.
Variables T K : Type.
Context `{Compare K}.
Variable f : T -> K.

Fixpoint insert_by (x : T) (l : list T) : list T :=
  match l with
  | [] => [x]
  | y :: l' => if le_by (f x) (f y) then x :: l else y :: insert_by x l'
  end.

Fixpoint sorted_by (l : list T) : list T :=
  match l with
  | [] => []
  | x :: l' => insert_by x (sorted_by l')
  end.
End Sorted.

Arguments insert_by {T K _} f x l.
Arguments sorted_by {T K _} f l.

Definition sort_items (items : list ActionItem) : list ActionItem :=
  sorted_by _sort_key items.

(** The laws of a total order, for a comparison. *)
Class CompareLaws (T : Type) `{Compare T} : Prop := {
  compare_eq : forall a b : T, compare a b = Eq <-> a = b;
  compare_antisym : forall a b : T, compare b a = CompOpp (compare a b);
  compare_trans : forall a b c : T, compare a b = Lt -> compare b c = Lt -> compare a c = Lt
}.

(** *** The order [sort_items] is to produce

    The notions below are written from the description of the order, not
    from [_sort_key]: [sort_items] is compared with them. *)

(** Alphabetical order of two texts, strict: the first character in which
    they differ decides, by its code point, and a proper prefix comes
    first. *)
Inductive alphabetical : text -> text -> Prop :=
| alphabetical_prefix (c : ascii) (t : text) : alphabetical [] (c :: t)
| alphabetical_head (c d : ascii) (s t : text) :
    (code c < code d)%N -> alphabetical (c :: s) (d :: t)
| alphabetical_tail (c : ascii) (s t : text) :
    alphabetical s t -> alphabetical (c :: s) (c :: t).

(** The item has an assigned owner: its [owner] is neither empty nor
    ["unassigned"], in whatever letter case it is written. *)
Definition assigned (it : ActionItem) : Prop :=
  owner it <> [] /\ to_lower (owner it) <> str "unassigned".

(** The item has a due date. *)
Definition dated (it : ActionItem) : Prop := due_date it <> [].

(** The order of two items in the output of [sort_items], layer by layer:
    an assigned owner before an unassigned or empty one; within each group
    the owners in alphabetical order, letter case ignored; for the same
    owner a due date before none; then the due dates in ascending order. *)
Definition ordered_items (a b : ActionItem) : Prop :=
  (assigned a /\ ~ assigned b) \/
  ((assigned a <-> assigned b) /\
   (alphabetical (to_lower (owner a)) (to_lower (owner b)) \/
    (to_lower (owner a) = to_lower (owner b) /\
     ((dated a /\ ~ dated b) \/
      ((dated a <-> dated b) /\
       (due_date a = due_date b \/ alphabetical (due_date a) (due_date b))))))).


(** ** What a pattern accepts

    [Matches r prev w s' caps caps']: at a position preceded by [prev] and
    followed by [w ++ s'], the pattern [r] can consume exactly [w], turning
    the groups [caps] into [caps'].  The matcher [run] explores these
    possibilities in Python's order of preference. *)

Definition last_of (prev : option ascii) (w : text) : option ascii :=
  fold_left (fun _ c => Some c) w prev.

Definition within (hi : option nat) (n : nat) : Prop :=
  match hi with Some h => (n <= h)%nat | None => True end.

Fixpoint Matches (r : regex) (prev : option ascii) (w s' : text)
    (caps caps' : captures) {struct r} : Prop :=
  match r with
  | Eps => w = [] /\ caps' = caps
  | Chr p => (exists c, w = [c] /\ p c = true) /\ caps' = caps
  | Rep p lo hi =>
      (forallb p w = true /\ (lo <= length w)%nat /\ within hi (length w))
      /\ caps' = caps
  | Seq r1 r2 =>
      exists w1 w2 cm,
        w = w1 ++ w2 /\ Matches r1 prev w1 (w2 ++ s') caps cm /\
        Matches r2 (last_of prev w1) w2 s' cm caps'
  | Alt r1 r2 => Matches r1 prev w s' caps caps' \/ Matches r2 prev w s' caps caps'
  | Opt r1 => Matches r1 prev w s' caps caps' \/ (w = [] /\ caps' = caps)
  | Grp n r1 => exists cm, Matches r1 prev w s' caps cm /\ caps' = (n, w) :: cm
  | Bol => w = [] /\ prev = None /\ caps' = caps
  | Eol => w = [] /\ at_eol s' = true /\ caps' = caps
  | Wordb =>
      w = [] /\ xorb (word_before prev) (word_after s') = true /\ caps' = caps
  end.

(** [r] matches somewhere in [s]: [re.search(r, s)] is not [None]. *)
Definition occurs (r : regex) (s : text) : Prop :=
  exists pre w post caps',
    s = pre ++ w ++ post /\ Matches r (last_of None pre) w post [] caps'.

(** ** Auxiliary notions used in the statements *)

Definition all_chars : list ascii := map ascii_of_nat (seq 0 256).

Definition first_char (s : text) : option ascii :=
  match s with c :: _ => Some c | [] => None end.

Definition is_space_opt (o : option ascii) : bool :=
  match o with Some c => is_space c | None => false end.


(** A calendar date of the years 1..9999 written [YYYY-MM-DD]. *)
Definition iso_date_string (s : text) : Prop :=
  exists y m d,
    valid_ymd y m d = true /\
    s = pad4 y ++ str "-" ++ pad2 m ++ str "-" ++ pad2 d.

Fixpoint no_groups (r : regex) : bool :=
  match r with
  | Grp _ _ => false
  | Seq r1 r2 | Alt r1 r2 => no_groups r1 && no_groups r2
  | Opt r1 => no_groups r1
  | _ => true
  end.

Definition name_char (x : ascii) : bool := is_alpha x || is_space x.

(** A non-empty name: it starts with a letter, ends with one, and holds
    letters and white space only. *)
Definition is_name (s : text) : bool :=
  match s with
  | c :: _ =>
      is_alpha c && forallb name_char s
      && match last_of None s with Some e => is_alpha e | None => false end
  | [] => false
  end.

(** The enumerated priority levels of the data model. *)
Definition priority_levels : list text :=
  [str "low"; str "normal"; str "high"; str "critical"].

(** The data-model invariants of an [ActionItem]. *)
Definition item_invariant (it : ActionItem) : Prop :=
  task it <> [] /\
  (due_date it = [] \/ iso_date_string (due_date it)) /\
  In (priority it) priority_levels /\
  (owner it = unassigned \/ is_name (owner it) = true).

(** The owner rule as section 4.3 of the specification words it: the
    ["Owner: <Name>"] match, else the ["(owner <Name>)"] match, else
    ["unassigned"] when the line contains ["(no owner"], else the owner the
    classifier inferred. *)
Definition spec_owner (line inferred : text) : text :=
  match re_search re_owner_label line with
  | Some m => group_str 1 m
  | None =>
      match re_search re_owner_paren line with
      | Some m2 => group_str 1 m2
      | None =>
          if is_some (re_search re_no_owner line) then unassigned else inferred
      end
  end.

(** The owner rule without the ["(no owner"] override: an extracted owner
    counts only when it is not the sentinel ["unassigned"]. *)
Definition resolved_owner (line inferred : text) : text :=
  match re_search re_owner_label line with
  | Some m => group_str 1 m
  | None =>
      match re_search re_owner_paren line with
      | Some m2 =>
          if text_eqb (group_str 1 m2) unassigned then inferred
          else group_str 1 m2
      | None => inferred
      end
  end.

(** ["Decision:"] or ["Decisions:"], in any mix of cases. *)
Definition is_decision_marker (m : text) : Prop :=
  to_lower m = str "decision:" \/ to_lower m = str "decisions:".

(** The line holds a marker: the word ["Decision:"] or ["Decisions:"] at
    the start of the line or after a character that is not a word
    character. *)
Definition contains_delimited_marker (line : text) : Prop :=
  exists pre m post,
    line = pre ++ m ++ post /\ is_decision_marker m /\
    word_before (last_of None pre) = false.

(** Where a greedy repetition has to stop after [w]: at the end of the
    input, before a character outside the class, or at its upper bound. *)
Definition stops_after (p : ascii -> bool) (hi : option nat) (w s' : text) : Prop :=
  s' = [] \/ (exists c t, s' = c :: t /\ p c = false) \/ hi = Some (length w).


(** The [days_ahead] of the relative-day branch of [normalize_date], for
    today's weekday [wd] and the weekday [target] that was named. *)
Definition days_until (wd target : Z) : nat :=
  let days_ahead := (target - wd) mod 7 in
  Z.to_nat (if days_ahead =? 0 then 7 else days_ahead).

(** One or two digits, as [\d{1,2}] accepts them. *)
Definition digits_1_2 (s : text) : Prop :=
  forallb is_digit s = true /\ (1 <= length s <= 2)%nat.

(** Two to four digits, as [\d{2,4}] accepts them. *)
Definition digits_2_4 (s : text) : Prop :=
  forallb is_digit s = true /\ (2 <= length s <= 4)%nat.


(** ** The residual clean-up, stated directly *)

(** What a pending run of white space leaves in the output: nothing, its only
    character, or one space when it had two characters or more. *)
Definition flush (run : option (ascii * bool)) : text :=
  match run with
  | None => []
  | Some (c, false) => [c]
  | Some (_, true) => [" "%char]
  end.

(** Every run of two or more white-space characters becomes one space.
    [run] is the run being read: its first character and whether it has
    more than one. *)
Fixpoint collapse_from (run : option (ascii * bool)) (s : text) : text :=
  match s with
  | [] => flush run
  | c :: t =>
      if is_space c then
        collapse_from
          (Some match run with None => (c, false) | Some (f, _) => (f, true) end) t
      else flush run ++ c :: collapse_from None t
  end.

Definition collapse_spaces (s : text) : text := collapse_from None s.

(** No two adjacent white-space characters. *)
Fixpoint no_double_space (s : text) : bool :=
  match s with
  | c1 :: (c2 :: _) as t => negb (is_space c1 && is_space c2) && no_double_space t
  | _ => true
  end.

(** Neither the first nor the last character is white space. *)
Definition trimmed (s : text) : Prop :=
  is_space_opt (first_char s) = false /\ is_space_opt (last_of None s) = false.

Definition ends_with (c : ascii) (s : text) : Prop := exists b, s = b ++ [c].

(** No metadata pattern of the cleaner matches anywhere in [s]. *)
Definition metadata_free (s : text) : Prop :=
  Forall (fun r => re_search r s = None) metadata_patterns.

(** The text is empty or starts with a character that is not white space. *)
Definition stops (s' : text) : Prop :=
  s' = [] \/ exists c t', s' = c :: t' /\ is_space c = false.


(** A pattern without [^], [$] and [\b] does not look at what surrounds the
    text it consumes. *)
Fixpoint context_free (r : regex) : bool :=
  match r with
  | Bol | Eol | Wordb => false
  | Seq r1 r2 | Alt r1 r2 => context_free r1 && context_free r2
  | Opt r1 | Grp _ r1 => context_free r1
  | _ => true
  end.

(** [n] periods. *)
Definition dots (n : nat) : text := repeat "."%char n.


(** [Expand z' z]: [z'] is [z] with some runs of white space each replaced
    by one white-space character, as [collapse_spaces] does. *)
Inductive Expand : text -> text -> Prop :=
| Expand_nil : Expand [] []
| Expand_char : forall c z' z,
    is_space c = false -> Expand z' z -> Expand (c :: z') (c :: z)
| Expand_run : forall c' u z' z,
    is_space c' = true -> u <> [] -> forallb is_space u = true ->
    Expand z' z -> Expand (c' :: z') (u ++ z).

(** A pattern that reads white space only through [\s*] and [\s+]: what it
    accepts does not depend on the length of the runs of white space. *)
Fixpoint robust (r : regex) : Prop :=
  match r with
  | Eps => True
  | Chr p => forall c, p c = true -> is_space c = false
  | Rep p lo hi =>
      (forall c, p c = true -> is_space c = false) \/
      ((forall c, p c = is_space c) /\ (lo <= 1)%nat /\ hi = None)
  | Seq r1 r2 | Alt r1 r2 => robust r1 /\ robust r2
  | Opt r1 => robust r1
  | _ => False
  end.

(** [\s*;?\s*[Dd]ue:?], the part of [re_strip_due] before its white space. *)
Definition re_due_head : regex :=
  Seq (Seq (Seq re_opt_semi (Chr (one_of (str "Dd")))) (lit "ue")) (Opt (Chr (chr ":"))).

(** Whether a pattern can match the empty string. *)
Fixpoint nullable (r : regex) : bool :=
  match r with
  | Chr _ => false
  | Rep _ lo _ => Nat.eqb lo 0
  | Seq r1 r2 => nullable r1 && nullable r2
  | Alt r1 r2 => nullable r1 || nullable r2
  | Grp _ r1 => nullable r1
  | _ => true
  end.

(** The patterns the source gives to [re.sub]. *)
Definition sub_patterns : list regex :=
  re_trailing_ptag :: re_trailing_semi :: re_spaces :: metadata_patterns.


(** ** Further notions used in the statements *)

(** [a] is [b] with some elements left out, the others in their order. *)
Fixpoint subsequence {T : Type} (a b : list T) : Prop :=
  match b with
  | [] => a = []
  | y :: b' =>
      subsequence a b' \/
      match a with
      | x :: a' => x = y /\ subsequence a' b'
      | [] => False
      end
  end.

(** The text holds no line boundary of [str.splitlines]. *)
Definition single_line (s : text) : bool :=
  forallb (fun c => negb (is_linebreak c)) s.

(** A pattern whose character classes do not tell a letter from its
    lower-case form. *)
Fixpoint case_blind (r : regex) : Prop :=
  match r with
  | Chr p | Rep p _ _ => forall c, p (lower c) = p c
  | Seq r1 r2 | Alt r1 r2 => case_blind r1 /\ case_blind r2
  | Opt r1 | Grp _ r1 => case_blind r1
  | _ => True
  end.

Definition lower_caps (caps : captures) : captures :=
  map (fun g => (fst g, to_lower (snd g))) caps.

(** The match object of the lower-cased string. *)
Definition lower_match (m : rmatch) : rmatch :=
  mkMatch (to_lower (m_whole m)) (to_lower (m_rest m))
          (option_map lower (m_prev m)) (lower_caps (m_caps m)).

(** ** Formatter: format_markdown *)

(** [sep.join(l)] *)
Fixpoint join (sep : text) (l : list text) : text :=
  match l with
  | [] => []
  | x :: l' =>
      match l' with
      | [] => x
      | _ :: _ => x ++ sep ++ join sep l'
      end
  end.

(** The checklist line of one item:
    [f"- [ ] {item.task}{owner}{due}{priority_tag}"]. *)
Definition item_line (item : ActionItem) : text :=
  let due :=
    if negb (is_empty (due_date item))
    then str " (due " ++ due_date item ++ str ")" else [] in
  let owner :=
    if negb (text_eqb (owner item) unassigned)
    then str " @" ++ owner item else [] in
  let priority_tag :=
    if negb (text_eqb (priority item) (str "normal"))
    then str " [" ++ priority item ++ str "]" else [] in
  str "- [ ] " ++ task item ++ owner ++ due ++ priority_tag.

Definition format_markdown (items : list ActionItem) : text :=
  let sorted_items := sort_items items in
  let lines := [str "# Action Items"; []] in
  match sorted_items with
  | [] => join [newline] (lines ++ [str "_No action items found._"; []])
  | _ :: _ => join [newline] (lines ++ map item_line sorted_items ++ [[]])
  end.

(** ** Formatter: format_json

    [json.dumps(payload, indent=2, sort_keys=True, ensure_ascii=False)] on
    the values the formatter builds: strings, a count, a list and
    dictionaries with string keys. *)

#[local] Set Warnings "-register-all".

Inductive json : Type :=
| JString : text -> json
| JInt : Z -> json
| JList : list json -> json
| JDict : list (text * json) -> json.

Definition quote : ascii := ascii_of_N 34.
Definition backslash : ascii := ascii_of_N 92.

Definition hex_digit (n : N) : ascii :=
  nth (N.to_nat n) (str "0123456789abcdef") "0"%char.

(** The replacement of one character inside a string literal
    ([json.encoder.ESCAPE_DCT]; characters from U+0080 on are kept, as
    [ensure_ascii] is off). *)
Definition escape_char (c : ascii) : text :=
  if Ascii.eqb c backslash then [backslash; backslash]
  else if Ascii.eqb c quote then [backslash; quote]
  else if is_code 8 c then backslash :: str "b"
  else if is_code 12 c then backslash :: str "f"
  else if is_code 10 c then backslash :: str "n"
  else if is_code 13 c then backslash :: str "r"
  else if is_code 9 c then backslash :: str "t"
  else if N.ltb (code c) 32
       then backslash :: str "u00" ++ [hex_digit (code c / 16); hex_digit (code c mod 16)]
  else [c].

(** [json.encoder.encode_basestring] *)
Definition encode_basestring (s : text) : text :=
  quote :: flat_map escape_char s ++ [quote].

Fixpoint digits_of (fuel : nat) (n : Z) (acc : text) : text :=
  match fuel with
  | O => acc
  | S fuel' =>
      if n <? 10 then digit_char n :: acc
      else digits_of fuel' (n / 10) (digit_char n :: acc)
  end.

(** [int.__repr__] of a number that is not negative. *)
Definition repr_int (n : Z) : text := digits_of (S (Z.to_nat (Z.log2 n))) n [].

(** A line break followed by the indentation of a nesting level, two spaces
    per level. *)
Definition newline_indent (level : nat) : text :=
  newline :: concat (repeat (str "  ") level).

(** The encoder with [indent=2]: items are separated by [","], a key from
    its value by [": "]. *)
Fixpoint encode (level : nat) (v : json) : text :=
  match v with
  | JString s => encode_basestring s
  | JInt n => repr_int n
  | JList l =>
      match l with
      | [] => str "[]"
      | _ :: _ =>
          str "[" ++ newline_indent (S level)
          ++ join (str "," ++ newline_indent (S level)) (map (encode (S level)) l)
          ++ newline_indent level ++ str "]"
      end
  | JDict d =>
      match d with
      | [] => str "{}"
      | _ :: _ =>
          str "{" ++ newline_indent (S level)
          ++ join (str "," ++ newline_indent (S level))
               (map (fun kv =>
                       match kv with
                       | (k, x) => encode_basestring k ++ str ": " ++ encode (S level) x
                       end) d)
          ++ newline_indent level ++ str "}"
      end
  end.

(** [sort_keys=True]: the entries of every dictionary in the order of their
    keys. *)
Fixpoint sort_keys (v : json) : json :=
  match v with
  | JList l => JList (map sort_keys l)
  | JDict d =>
      JDict (sorted_by fst
               (map (fun kv => match kv with (k, x) => (k, sort_keys x) end) d))
  | _ => v
  end.

Definition json_dumps (v : json) : text := encode 0 (sort_keys v).

(** [dataclasses.asdict(item)]: the fields in their order of declaration. *)
Definition asdict (item : ActionItem) : json :=
  JDict [(str "task", JString (task item));
         (str "owner", JString (owner item));
         (str "due_date", JString (due_date item));
         (str "priority", JString (priority item));
         (str "raw_line", JString (raw_line item))].

Definition format_json (items : list ActionItem) : text :=
  let sorted_items := sort_items items in
  let payload :=
    JDict [(str "action_items", JList (map asdict sorted_items));
           (str "count", JInt (Z.of_nat (length sorted_items)))] in
  json_dumps payload ++ [newline].

(** The JSON object of one item as the encoder writes it at nesting level 2,
    field by field in the order of the keys, followed by [t]. *)
Definition item_fields (it : ActionItem) (t : text) : text :=
  str "{" ++ newline_indent 3 ++
  encode_basestring (str "due_date") ++ str ": " ++
  encode_basestring (due_date it) ++
  (str "," ++ newline_indent 3 ++ encode_basestring (str "owner") ++ str ": ") ++
  encode_basestring (owner it) ++
  (str "," ++ newline_indent 3 ++ encode_basestring (str "priority") ++ str ": ") ++
  encode_basestring (priority it) ++
  (str "," ++ newline_indent 3 ++ encode_basestring (str "raw_line") ++ str ": ") ++
  encode_basestring (raw_line it) ++
  (str "," ++ newline_indent 3 ++ encode_basestring (str "task") ++ str ": ") ++
  encode_basestring (task it) ++
  (newline_indent 2 ++ str "}") ++ t.

(** Exactly four digits, as [\d{4}] accepts them. *)
Definition digits_4 (s : text) : Prop :=
  forallb is_digit s = true /\ length s = 4%nat.

(** What [\s*,?\s*] accepts when it is not empty: white space with at most
    one comma in it. *)
Definition year_separator (sep : text) : Prop :=
  sep <> [] /\
  exists a b,
    forallb is_space a = true /\ forallb is_space b = true /\
    (sep = a ++ b \/ sep = a ++ str "," ++ b).

(** What may follow the day or the month name: nothing, or a separator and
    a year of four digits; [caps3] is the group that the year fills. *)
Definition year_tail (tail : text) (caps3 : captures) : Prop :=
  (tail = [] /\ caps3 = []) \/
  (exists sep ys,
     tail = sep ++ ys /\ year_separator sep /\ digits_4 ys /\ caps3 = [(3%nat, ys)]).




(** No field of the item holds a line boundary. *)
Definition single_line_item (it : ActionItem) : Prop :=
  single_line (task it) = true /\ single_line (owner it) = true /\
  single_line (due_date it) = true /\ single_line (priority it) = true /\
  single_line (raw_line it) = true.

(** Every group holds characters of the class [P] only. *)
Definition caps_within (P : ascii -> bool) (caps : captures) : Prop :=
  Forall (fun g => forallb P (snd g) = true) caps.

(** The text holds ["Due"] or ["due"]. *)
Definition mentions_due (s : text) : Prop :=
  exists a c b, s = a ++ c :: str "ue" ++ b /\ one_of (str "Dd") c = true.

(** The keyword of the due-date pattern, [[Dd]ue:?]. *)
Definition due_keyword (kw : text) : Prop :=
  exists c, one_of (str "Dd") c = true /\
            (kw = c :: str "ue" \/ kw = c :: str "ue:").

(** What [([^;.\n]+)] captures after the keyword and its white space: a text
    that is not empty, does not start with white space and holds no
    semicolon, period or newline. *)
Definition due_fragment (raw : text) : Prop :=
  raw <> [] /\ is_space_opt (first_char raw) = false /\
  forallb (none_of (str ";." ++ [newline])) raw = true.

(** Where the captured text ends: at the end of the line or before a
    semicolon, a period or a newline. *)
Definition fragment_end (rest : text) : Prop :=
  rest = [] \/
  exists c t, rest = c :: t /\ none_of (str ";." ++ [newline]) c = false.


(** The text holds ["by"] in some mix of cases. *)
Definition mentions_by (s : text) : Prop :=
  exists a c1 c2 b, s = a ++ c1 :: c2 :: b /\ lower c1 = "b"%char /\ lower c2 = "y"%char.

(** The characters of the date strings that some version of
    [date.fromisoformat] accepts (calendar and week dates, with and without
    hyphens): digits, the hyphen and [W]; [w] is added to close the class
    under change of case. *)
Definition iso_char (c : ascii) : bool := is_digit c || one_of (str "-Ww") c.

(** * Properties *)

(** ** The matcher and what a pattern accepts *)

Lemma last_of_app (prev : option ascii) (u v : text) :
  last_of prev (u ++ v) = last_of (last_of prev u) v.
Proof. unfold last_of; apply fold_left_app. Qed.

Lemma consumed_app (w s' : text) : consumed (w ++ s') s' = w.
Proof.
  unfold consumed. rewrite length_app.
  replace (length w + length s' - length s')%nat with (length w) by lia.
  rewrite firstn_app, firstn_all, Nat.sub_diag; simpl. apply app_nil_r.
Qed.

Lemma consumed_nil (s : text) : consumed s [] = s.
Proof. unfold consumed. cbn [length]. rewrite Nat.sub_0_r. apply firstn_all. Qed.

Lemma more_allowed_within (hi : option nat) (n : nat) :
  within hi (S n) -> more_allowed hi = true /\ within (option_map pred hi) n.
Proof.
  destruct hi as [[|h]|]; simpl; intros H; try lia; split; auto; lia.
Qed.

Lemma within_more (hi : option nat) (n : nat) :
  more_allowed hi = true -> within (option_map pred hi) n -> within hi (S n).
Proof.
  destruct hi as [[|h]|]; simpl; intros H1 H2; try discriminate; auto; lia.
Qed.

Section Soundness.
Variable A : Type.

Lemma rep_sound (p : ascii -> bool) (s : text) :
  forall lo hi prev (k : option ascii -> text -> option A) x,
    rep p lo hi prev s k = Some x ->
    exists w s', s = w ++ s' /\ forallb p w = true /\ (lo <= length w)%nat /\
                 within hi (length w) /\ k (last_of prev w) s' = Some x.
Proof.
  induction s as [|c t IH]; intros lo hi prev k x H.
  - destruct lo; [|discriminate]. simpl in H.
    exists [], []; repeat split; auto. destruct hi; simpl; lia.
  - cbn [rep] in H.
    assert (Hstop : match lo with O => k prev (c :: t) | S _ => None end = Some x ->
      exists w s', c :: t = w ++ s' /\ forallb p w = true /\ (lo <= length w)%nat /\
                   within hi (length w) /\ k (last_of prev w) s' = Some x).
    { intros Hs. destruct lo; [|discriminate].
      exists [], (c :: t); repeat split; auto. destruct hi; simpl; lia. }
    destruct (p c && more_allowed hi) eqn:Hpc; [|auto].
    destruct (rep p (pred lo) (option_map pred hi) (Some c) t k) as [y|] eqn:Hr; [|auto].
    injection H as ->.
    apply andb_prop in Hpc as [Hp Hm].
    destruct (IH _ _ _ _ _ Hr) as (w & s' & -> & Hw & Hlo & Hhi & Hk).
    exists (c :: w), s'; simpl; rewrite Hp, Hw; repeat split; auto.
    + lia.
    + apply within_more; auto.
Qed.

Lemma rep_complete (p : ascii -> bool) (w : text) :
  forall lo hi prev s' (k : option ascii -> text -> option A) x,
    forallb p w = true -> (lo <= length w)%nat -> within hi (length w) ->
    k (last_of prev w) s' = Some x ->
    exists y, rep p lo hi prev (w ++ s') k = Some y.
Proof.
  induction w as [|c w IH]; intros lo hi prev s' k x Hw Hlo Hhi Hk.
  - simpl in Hlo. assert (lo = O) by lia; subst lo. simpl in Hk.
    destruct s' as [|c t]; simpl; [eauto|].
    destruct (p c && more_allowed hi); [|eauto].
    destruct (rep p 0 (option_map pred hi) (Some c) t k); eauto.
  - simpl in Hw. apply andb_prop in Hw as [Hp Hw].
    simpl in Hhi. apply more_allowed_within in Hhi as [Hm Hhi].
    cbn [app rep]. rewrite Hp, Hm; cbn [andb].
    destruct (IH (pred lo) (option_map pred hi) (Some c) s' k x Hw) as [y Hy]; auto.
    + simpl in Hlo; lia.
    + rewrite Hy; eauto.
Qed.

Lemma run_sound (r : regex) :
  forall prev s caps (k : option ascii -> text -> captures -> option A) x,
    run r prev s caps k = Some x ->
    exists w s' caps',
      s = w ++ s' /\ Matches r prev w s' caps caps' /\
      k (last_of prev w) s' caps' = Some x.
Proof.
  induction r as [|p|p lo hi|r1 IH1 r2 IH2|r1 IH1 r2 IH2|r1 IH1|n r1 IH1| | |];
    intros prev s caps k x H; cbn [run] in H.
  - exists [], s, caps; simpl; auto.
  - destruct s as [|c t]; [discriminate|].
    destruct (p c) eqn:Hp; [|discriminate].
    exists [c], t, caps; simpl; repeat split; eauto.
  - apply rep_sound in H as (w & s' & -> & Hw & Hlo & Hhi & Hk).
    exists w, s', caps; simpl; repeat split; auto.
  - apply IH1 in H as (w1 & s1 & c1 & -> & M1 & H).
    apply IH2 in H as (w2 & s2 & c2 & -> & M2 & H).
    exists (w1 ++ w2), s2, c2. rewrite last_of_app, <- app_assoc.
    split; [reflexivity|]. split; [|assumption].
    cbn [Matches]. exists w1, w2, c1; auto.
  - destruct (run r1 prev s caps k) as [y|] eqn:H1.
    + injection H as ->. apply IH1 in H1 as (w & s' & c' & -> & M & Hk).
      exists w, s', c'; cbn [Matches]; auto.
    + apply IH2 in H as (w & s' & c' & -> & M & Hk).
      exists w, s', c'; cbn [Matches]; auto.
  - destruct (run r1 prev s caps k) as [y|] eqn:H1.
    + injection H as ->. apply IH1 in H1 as (w & s' & c' & -> & M & Hk).
      exists w, s', c'; cbn [Matches]; auto.
    + exists [], s, caps; cbn [Matches]; simpl; auto.
  - apply IH1 in H as (w & s' & c' & -> & M & Hk).
    rewrite consumed_app in Hk.
    exists w, s', ((n, w) :: c'); cbn [Matches]; eauto.
  - destruct prev; [discriminate|]. exists [], s, caps; simpl; auto.
  - destruct (at_eol s) eqn:He; [|discriminate]. exists [], s, caps; simpl; auto.
  - destruct (xorb (word_before prev) (word_after s)) eqn:He; [|discriminate].
    exists [], s, caps; simpl; auto.
Qed.

Lemma run_complete (r : regex) :
  forall prev w s' caps caps' (k : option ascii -> text -> captures -> option A) x,
    Matches r prev w s' caps caps' ->
    k (last_of prev w) s' caps' = Some x ->
    exists y, run r prev (w ++ s') caps k = Some y.
Proof.
  induction r as [|p|p lo hi|r1 IH1 r2 IH2|r1 IH1 r2 IH2|r1 IH1|n r1 IH1| | |];
    intros prev w s' caps caps' k x M Hk; cbn [Matches] in M; cbn [run].
  - destruct M as [-> ->]; eauto.
  - destruct M as [(c & -> & Hp) ->]. simpl. rewrite Hp. eauto.
  - destruct M as [(Hw & Hlo & Hhi) ->].
    eapply rep_complete with (k := fun prev' s'' => k prev' s'' caps); eauto.
  - destruct M as (w1 & w2 & cm & -> & M1 & M2).
    rewrite last_of_app in Hk.
    destruct (IH2 _ _ _ _ _ _ _ M2 Hk) as [y Hy].
    rewrite <- app_assoc.
    eapply IH1 with (k := fun prev' s'' caps'' => run r2 prev' s'' caps'' k); eauto.
  - destruct (run r1 prev (w ++ s') caps k) as [y|] eqn:H1; [eauto|].
    destruct M as [M|M]; [|eauto].
    destruct (IH1 _ _ _ _ _ _ _ M Hk) as [y Hy]; congruence.
  - destruct (run r1 prev (w ++ s') caps k) as [y|] eqn:H1; [eauto|].
    destruct M as [M|[-> ->]]; [|eauto].
    destruct (IH1 _ _ _ _ _ _ _ M Hk) as [y Hy]; congruence.
  - destruct M as (cm & M & ->).
    eapply IH1 with (k := fun prev' s'' caps'' => k prev' s'' ((n, consumed (w ++ s') s'') :: caps''));
      eauto.
    rewrite consumed_app; eauto.
  - destruct M as (-> & -> & ->); eauto.
  - destruct M as (-> & He & ->); simpl; rewrite He; eauto.
  - destruct M as (-> & He & ->); simpl; rewrite He; eauto.
Qed.
End Soundness.

Arguments rep_sound {A} p s lo hi prev k x _.
Arguments rep_complete {A} p w lo hi prev s' k x _ _ _ _.
Arguments run_sound {A} r prev s caps k x _.
Arguments run_complete {A} r prev w s' caps caps' k x _ _.

Lemma re_match_sound (r : regex) (s : text) (m : rmatch) :
  re_match r s = Some m ->
  exists w s' caps',
    s = w ++ s' /\ Matches r None w s' [] caps' /\
    m = mkMatch w s' (last_of None w) caps'.
Proof.
  unfold re_match; intros H.
  apply run_sound in H as (w & s' & caps' & -> & M & Hk).
  unfold accept in Hk; rewrite consumed_app in Hk; injection Hk as <-.
  exists w, s', caps'; auto.
Qed.

Lemma re_match_complete (r : regex) (w s' : text) (caps' : captures) :
  Matches r None w s' [] caps' -> exists m, re_match r (w ++ s') = Some m.
Proof.
  intros M; unfold re_match.
  eapply run_complete; [exact M|]; unfold accept; reflexivity.
Qed.

Lemma re_fullmatch_sound (r : regex) (s : text) (m : rmatch) :
  re_fullmatch r s = Some m ->
  exists caps',
    Matches r None s [] [] caps' /\ m = mkMatch s [] (last_of None s) caps'.
Proof.
  unfold re_fullmatch; intros H.
  apply run_sound in H as (w & s' & caps' & E & M & Hk).
  unfold accept_end in Hk; destruct s'; [|discriminate].
  injection Hk as <-. rewrite app_nil_r in E; subst w.
  exists caps'; auto.
Qed.

Lemma re_fullmatch_complete (r : regex) (s : text) (caps' : captures) :
  Matches r None s [] [] caps' -> exists m, re_fullmatch r s = Some m.
Proof.
  intros M; unfold re_fullmatch.
  destruct (run_complete r None s [] [] caps' (accept_end s) _ M eq_refl) as [y Hy].
  rewrite app_nil_r in Hy; eauto.
Qed.

Lemma search_from_sound (r : regex) (s : text) :
  forall prev m,
    search_from r prev s = Some m ->
    exists pre w s' caps',
      s = pre ++ w ++ s' /\ Matches r (last_of prev pre) w s' [] caps' /\
      m = mkMatch w s' (last_of (last_of prev pre) w) caps'.
Proof.
  induction s as [|c t IH]; intros prev m H; cbn [search_from] in H.
  - destruct (run r prev [] [] (accept [])) as [m0|] eqn:Hr; [|discriminate].
    injection H as ->.
    apply run_sound in Hr as (w & s' & caps' & E & M & Hk).
    unfold accept in Hk; rewrite E, consumed_app in Hk; injection Hk as <-.
    exists [], w, s', caps'; auto.
  - destruct (run r prev (c :: t) [] (accept (c :: t))) as [m0|] eqn:Hr.
    + injection H as ->.
      apply run_sound in Hr as (w & s' & caps' & E & M & Hk).
      unfold accept in Hk; rewrite E, consumed_app in Hk; injection Hk as <-.
      exists [], w, s', caps'; auto.
    + apply IH in H as (pre & w & s' & caps' & -> & M & ->).
      exists (c :: pre), w, s', caps'; auto.
Qed.

Lemma search_from_here (r : regex) (prev : option ascii) (s : text) (m : rmatch) :
  run r prev s [] (accept s) = Some m -> search_from r prev s = Some m.
Proof. intros H; destruct s; cbn [search_from]; rewrite H; reflexivity. Qed.

Lemma search_from_complete (r : regex) (pre : text) :
  forall prev w s' caps',
    Matches r (last_of prev pre) w s' [] caps' ->
    exists m, search_from r prev (pre ++ w ++ s') = Some m.
Proof.
  induction pre as [|c pre IH]; intros prev w s' caps' M.
  - cbn [app]. change (last_of prev []) with prev in M.
    destruct (run_complete r _ _ _ _ _ (accept (w ++ s')) _ M eq_refl) as [y Hy].
    exists y; apply search_from_here; exact Hy.
  - cbn [app search_from].
    destruct (run r prev (c :: pre ++ w ++ s') [] (accept (c :: pre ++ w ++ s')));
      [eauto|].
    eapply IH; exact M.
Qed.

Lemma re_search_sound (r : regex) (s : text) (m : rmatch) :
  re_search r s = Some m ->
  exists pre w s' caps',
    s = pre ++ w ++ s' /\ Matches r (last_of None pre) w s' [] caps' /\
    m = mkMatch w s' (last_of (last_of None pre) w) caps'.
Proof. apply search_from_sound. Qed.

Lemma re_search_occurs (r : regex) (s : text) :
  occurs r s <-> is_some (re_search r s) = true.
Proof.
  split.
  - intros (pre & w & post & caps' & -> & M).
    destruct (search_from_complete r pre None w post caps' M) as [m Hm].
    unfold re_search; rewrite Hm; reflexivity.
  - destruct (re_search r s) as [m|] eqn:H; [|discriminate]. intros _.
    apply re_search_sound in H as (pre & w & s' & caps' & -> & M & _).
    exists pre, w, s', caps'; auto.
Qed.

Lemma re_search_none (r : regex) (s : text) :
  re_search r s = None <-> ~ occurs r s.
Proof.
  rewrite re_search_occurs. destruct (re_search r s); cbn [is_some]; split; intros H.
  - discriminate.
  - exfalso; apply H; reflexivity.
  - intros H'; discriminate.
  - reflexivity.
Qed.

(** Without a match, [re.sub] returns its argument. *)
Lemma sub_from_none (r : regex) (repl : text) (fuel : nat) :
  forall prev s, search_from r prev s = None -> sub_from fuel r repl prev s = s.
Proof.
  induction fuel as [|fuel IH]; intros prev s H; [reflexivity|].
  cbn [sub_from]. destruct s as [|c t]; cbn [search_from] in H.
  - destruct (run r prev [] [] (accept [])); [discriminate|reflexivity].
  - destruct (run r prev (c :: t) [] (accept (c :: t))); [discriminate|].
    rewrite IH; auto.
Qed.

Lemma re_sub_none (r : regex) (repl s : text) :
  re_search r s = None -> re_sub r repl s = s.
Proof. apply sub_from_none. Qed.

Lemma re_fullmatch_eq (r : regex) (s : text) :
  re_fullmatch r s = run r None s [] (accept_end s).
Proof. reflexivity. Qed.


Lemma re_search_eq (r : regex) (s : text) : re_search r s = search_from r None s.
Proof. reflexivity. Qed.

Lemma re_sub_eq (r : regex) (repl s : text) :
  re_sub r repl s = sub_from (S (length s)) r repl None s.
Proof. reflexivity. Qed.

#[local] Opaque re_fullmatch re_match re_search re_sub.

(** ** Characters and strings *)

Lemma all_chars_complete (c : ascii) : In c all_chars.
Proof.
  unfold all_chars. rewrite <- (ascii_nat_embedding c).
  apply in_map, in_seq. pose proof (nat_ascii_bounded c). lia.
Qed.

(** A boolean property of characters holds of all of them once it has been
    checked on the 256 of them. *)
Lemma for_all_chars (f : ascii -> bool) :
  forallb f all_chars = true -> forall c, f c = true.
Proof.
  intros H c. rewrite forallb_forall in H. apply H, all_chars_complete.
Qed.

Lemma text_eqb_eq (a b : text) : text_eqb a b = true <-> a = b.
Proof.
  revert b; induction a as [|x a IH]; intros [|y b]; simpl; split; intros H;
    try discriminate; auto.
  - apply andb_prop in H as [H1 H2]. apply Ascii.eqb_eq in H1. apply IH in H2.
    congruence.
  - injection H as -> ->. rewrite Ascii.eqb_refl. simpl. apply IH; reflexivity.
Qed.

Lemma text_eqb_refl (a : text) : text_eqb a a = true.
Proof. apply text_eqb_eq; reflexivity. Qed.

Lemma text_eqb_neq (a b : text) : text_eqb a b = false <-> a <> b.
Proof.
  split.
  - intros H E. apply text_eqb_eq in E. congruence.
  - intros H. destruct (text_eqb a b) eqn:E; [|reflexivity].
    apply text_eqb_eq in E. contradiction.
Qed.

Lemma is_empty_false (s : text) : is_empty s = false <-> s <> [].
Proof. destruct s; simpl; split; intros H; congruence. Qed.

Lemma space_not_word (c : ascii) : is_space c = true -> is_word c = false.
Proof.
  revert c.
  assert (H : forall c, implb (is_space c) (negb (is_word c)) = true)
    by (apply for_all_chars; vm_compute; reflexivity).
  intros c Hc. specialize (H c). rewrite Hc in H. simpl in H.
  apply negb_true_iff in H; exact H.
Qed.

Lemma alpha_not_space (c : ascii) : is_alpha c = true -> is_space c = false.
Proof.
  revert c.
  assert (H : forall c, implb (is_alpha c) (negb (is_space c)) = true)
    by (apply for_all_chars; vm_compute; reflexivity).
  intros c Hc. specialize (H c). rewrite Hc in H. simpl in H.
  apply negb_true_iff in H; exact H.
Qed.

Lemma digit_not_space (c : ascii) : is_digit c = true -> is_space c = false.
Proof.
  revert c.
  assert (H : forall c, implb (is_digit c) (negb (is_space c)) = true)
    by (apply for_all_chars; vm_compute; reflexivity).
  intros c Hc. specialize (H c). rewrite Hc in H. simpl in H.
  apply negb_true_iff in H; exact H.
Qed.

Lemma upper_alpha (c : ascii) : is_upper c = true -> is_alpha c = true.
Proof. unfold is_alpha; intros ->; reflexivity. Qed.

Lemma lower_alpha (c : ascii) : is_lower c = true -> is_alpha c = true.
Proof. unfold is_alpha; intros ->; apply orb_true_r. Qed.

Lemma lower_is_lower (c : ascii) : is_lower (lower c) = true -> is_alpha c = true.
Proof.
  revert c.
  assert (H : forall c, implb (is_lower (lower c)) (is_alpha c) = true)
    by (apply for_all_chars; vm_compute; reflexivity).
  intros c Hc. specialize (H c). rewrite Hc in H. exact H.
Qed.

(** *** strip *)

Lemma lstrip_by_head (p : ascii -> bool) (c : ascii) (s : text) :
  p c = false -> lstrip_by p (c :: s) = c :: s.
Proof. intros H; simpl; rewrite H; reflexivity. Qed.

Lemma rstrip_by_last (p : ascii -> bool) (s : text) (c : ascii) :
  p c = false -> rstrip_by p (s ++ [c]) = s ++ [c].
Proof.
  intros H. unfold rstrip_by. rewrite rev_app_distr. simpl. rewrite H.
  simpl. rewrite rev_involutive. reflexivity.
Qed.

Lemma rstrip_by_nil (p : ascii -> bool) : rstrip_by p [] = [].
Proof. reflexivity. Qed.

(** A string that neither starts nor ends with white space is its own
    [strip]. *)
Lemma strip_fixed (c : ascii) (s : text) (e : ascii) :
  is_space c = false -> is_space e = false ->
  strip ((c :: s) ++ [e]) = (c :: s) ++ [e].
Proof.
  intros Hc He. unfold strip. cbn [app]. rewrite lstrip_by_head by assumption.
  change (c :: s ++ [e]) with ((c :: s) ++ [e]). apply rstrip_by_last; assumption.
Qed.

Lemma strip_fixed1 (c : ascii) : is_space c = false -> strip [c] = [c].
Proof.
  intros Hc. unfold strip. rewrite lstrip_by_head by assumption.
  apply (rstrip_by_last is_space [] c Hc).
Qed.

Lemma strip_id (s : text) :
  is_space_opt (first_char s) = false -> is_space_opt (last_of None s) = false ->
  strip s = s.
Proof.
  destruct s as [|c s]; [reflexivity|].
  destruct (exists_last (l := c :: s)) as (b & e & E); [discriminate|].
  rewrite E, last_of_app. intros Hc He. cbn in He.
  destruct b as [|c' b]; cbn in Hc.
  - apply strip_fixed1; assumption.
  - apply (strip_fixed c' b e); assumption.
Qed.

(** ** The parsing driver *)

Lemma parse_lines_in (today : date) (lines : list text) (items : list ActionItem) :
  parse_lines today lines = Ok items ->
  forall it, In it items ->
  exists raw, In raw lines /\ parse_line today raw = Ok (Some it).
Proof.
  revert items; induction lines as [|raw rest IH]; cbn [parse_lines];
    intros items H it Hin.
  - inversion H; subst; contradiction.
  - destruct (parse_line today raw) as [item|] eqn:Hl; cbn [bind] in H; [|discriminate].
    destruct (parse_lines today rest) as [items'|] eqn:Hr; cbn [bind] in H; [|discriminate].
    injection H as <-.
    assert (Hrest : In it items' ->
                    exists raw0, In raw0 (raw :: rest) /\ parse_line today raw0 = Ok (Some it)).
    { intros Hin'. destruct (IH _ eq_refl _ Hin') as [raw' [? ?]].
      exists raw'; split; [right|]; assumption. }
    destruct item as [it0|]; [|auto].
    destruct Hin as [<-|Hin]; [|auto].
    exists raw; split; [left; reflexivity|assumption].
Qed.

(** What the loop body has established when it appends an item. *)
Lemma parse_line_item (today : date) (raw : text) (it : ActionItem) :
  parse_line today raw = Ok (Some it) ->
  exists task_text inferred,
    is_empty (strip raw) = false /\
    re_search _RE_DECISION (strip raw) = None /\
    classify (strip raw) = (Some task_text, inferred) /\
    task it = _clean_task_text task_text /\
    is_empty (task it) = false /\
    owner it =
      (if negb (text_eqb (_extract_owner (strip raw)) unassigned)
       then _extract_owner (strip raw) else inferred) /\
    _extract_due_date today (strip raw) = Ok (due_date it) /\
    priority it = _extract_priority (strip raw) /\
    raw_line it = strip raw.
Proof.
  unfold parse_line; intros H.
  destruct (is_empty (strip raw)) eqn:He; [discriminate|].
  destruct (re_search _RE_DECISION (strip raw)) eqn:Hd; cbn [is_some] in H;
    [discriminate|].
  destruct (classify (strip raw)) as [[task_text|] inferred] eqn:Hc; [|discriminate].
  destruct (_extract_due_date today (strip raw)) as [due|] eqn:Hdue; cbn [bind] in H;
    [|discriminate].
  destruct (is_empty (_clean_task_text task_text)) eqn:Hclean; [discriminate|].
  injection H as <-; cbn [task owner due_date priority raw_line].
  exists task_text, inferred.
  repeat match goal with |- _ /\ _ => split end; first [assumption | reflexivity].
Qed.

Lemma parse_items (today : date) (doc : text) (items : list ActionItem) :
  parse_meeting_notes today doc = Ok items ->
  forall it, In it items -> exists raw, parse_line today raw = Ok (Some it).
Proof.
  intros H it Hin. destruct (parse_lines_in _ _ _ H it Hin) as (raw & _ & Hr).
  exists raw; exact Hr.
Qed.

(** ** Priority *)

Lemma priority_of_values (m : rmatch) :
  In (priority_of m) [str "critical"; str "high"; str "normal"].
Proof.
  unfold priority_of, _PRIORITY_MAP. cbn [dict_get].
  repeat match goal with
         | |- context [if ?b then _ else _] => destruct b
         end; cbn [In]; auto.
Qed.

Lemma _extract_priority_values (line : text) :
  In (_extract_priority line) [str "critical"; str "high"; str "normal"].
Proof.
  unfold _extract_priority.
  destruct (re_search re_priority_token line) as [m|]; [apply priority_of_values|].
  destruct (re_search re_priority_label line) as [m|]; [apply priority_of_values|].
  cbn [In]; auto.
Qed.

(** C10: no item returned by [parse_meeting_notes] has priority ["low"];
    the priority of every item is ["critical"], ["high"] or ["normal"]. *)
Theorem parsed_priority_never_low (today : date) (doc : text) (items : list ActionItem) :
  parse_meeting_notes today doc = Ok items ->
  Forall (fun it =>
            In (priority it) [str "critical"; str "high"; str "normal"] /\
            priority it <> str "low") items.
Proof.
  intros H. apply Forall_forall. intros it Hin.
  destruct (parse_items _ _ _ H it Hin) as (raw & Hr).
  apply parse_line_item in Hr as (tt & inf & _ & _ & _ & _ & _ & _ & _ & Hp & _).
  rewrite Hp. pose proof (_extract_priority_values (strip raw)) as Hv.
  split; [exact Hv|].
  cbn [In] in Hv. destruct Hv as [<-|[<-|[<-|[]]]]; discriminate.
Qed.

Lemma parsed_priority_never_low_witness :
  Forall (fun it =>
            In (priority it) [str "critical"; str "high"; str "normal"] /\
            priority it <> str "low")
    [mkActionItem (str "We should probably fix flaky CI tests soon") unassigned []
       (str "high") (str "We should probably fix flaky CI tests soon (P1)")].
Proof.
  apply (parsed_priority_never_low (mkDate 2026 2 6)
           (str "We should probably fix flaky CI tests soon (P1)")).
  vm_compute. reflexivity.
Defined.

(** ** Calendar dates *)

Lemma valid_ymd_iff (y m d : Z) :
  valid_ymd y m d = true <->
  1 <= y <= 9999 /\ 1 <= m <= 12 /\ 1 <= d <= days_in_month y m.
Proof.
  unfold valid_ymd, MINYEAR, MAXYEAR.
  rewrite !andb_true_iff, !Z.leb_le. tauto.
Qed.

Lemma make_date_some (y m d : Z) (dt : date) :
  make_date y m d = Some dt -> dt = mkDate y m d /\ valid_date dt = true.
Proof.
  unfold make_date. destruct (valid_ymd y m d) eqn:H; [|discriminate].
  intros E; injection E as <-. split; [reflexivity|exact H].
Qed.

Lemma month_cases (m : Z) :
  1 <= m <= 12 ->
  m = 1 \/ m = 2 \/ m = 3 \/ m = 4 \/ m = 5 \/ m = 6 \/ m = 7 \/ m = 8 \/
  m = 9 \/ m = 10 \/ m = 11 \/ m = 12.
Proof. lia. Qed.

Lemma days_in_month_bounds (y m : Z) : 1 <= m <= 12 -> 28 <= days_in_month y m <= 31.
Proof.
  intros H. apply month_cases in H.
  repeat (destruct H as [->|H]); try subst m; unfold days_in_month;
    try destruct (is_leap y); lia.
Qed.

Lemma days_before_year_succ (y : Z) :
  days_before_year (y + 1) = days_before_year y + 365 + (if is_leap y then 1 else 0).
Proof.
  unfold days_before_year, is_leap.
  replace (y + 1 - 1) with y by lia.
  destruct (Z.eqb_spec (y mod 4) 0), (Z.eqb_spec (y mod 100) 0),
    (Z.eqb_spec (y mod 400) 0); cbn [negb andb orb]; Z.div_mod_to_equations; lia.
Qed.

Lemma days_before_month_succ (y m : Z) :
  1 <= m <= 11 ->
  days_before_month y (m + 1) = days_before_month y m + days_in_month y m.
Proof.
  intros H.
  assert (C : m = 1 \/ m = 2 \/ m = 3 \/ m = 4 \/ m = 5 \/ m = 6 \/ m = 7 \/
              m = 8 \/ m = 9 \/ m = 10 \/ m = 11) by lia.
  repeat (destruct C as [->|C]); try subst m;
    unfold days_before_month, days_in_month; cbn [Z.add Z.ltb Z.compare Pos.compare
      Pos.compare_cont Pos.add Pos.succ andb];
    destruct (is_leap y); reflexivity.
Qed.

Lemma next_day_spec (d d' : date) :
  valid_date d = true -> next_day d = Some d' ->
  valid_date d' = true /\ toordinal d' = toordinal d + 1.
Proof.
  unfold valid_date; destruct d as [y m dd]; cbn [year month day].
  intros V; apply valid_ymd_iff in V as (Hy & Hm & Hd).
  unfold next_day; cbn [year month day].
  destruct (Z.ltb_spec dd (days_in_month y m)).
  { intros E; injection E as <-; cbn [year month day]. split.
    - apply valid_ymd_iff; lia.
    - unfold toordinal; cbn [year month day]; lia. }
  destruct (Z.ltb_spec m 12).
  { intros E; injection E as <-; cbn [year month day]. split.
    - apply valid_ymd_iff. pose proof (days_in_month_bounds y (m + 1)). lia.
    - unfold toordinal; cbn [year month day].
      rewrite days_before_month_succ by lia. lia. }
  destruct (Z.ltb_spec y MAXYEAR); [|discriminate]. unfold MAXYEAR in *.
  intros E; injection E as <-; cbn [year month day]. split.
  - apply valid_ymd_iff. cbn. lia.
  - unfold toordinal; cbn [year month day].
    assert (m = 12) by lia; subst m. cbn [days_in_month] in *.
    rewrite days_before_year_succ. unfold days_before_month.
    cbn [Z.ltb Z.compare Pos.compare Pos.compare_cont andb].
    destruct (is_leap y); lia.
Qed.

Lemma add_days_spec (k : nat) :
  forall d d',
    valid_date d = true -> add_days d k = Ok d' ->
    valid_date d' = true /\ toordinal d' = toordinal d + Z.of_nat k.
Proof.
  induction k as [|k IH]; intros d d' V H; cbn [add_days] in H.
  - injection H as <-. split; [assumption|]. simpl; lia.
  - destruct (next_day d) as [d1|] eqn:E; [|discriminate].
    destruct (next_day_spec _ _ V E) as [V1 O1].
    destruct (IH _ _ V1 H) as [V' O']. split; [assumption|]. lia.
Qed.

Lemma weekday_range (d : date) : 0 <= weekday d < 7.
Proof. unfold weekday. apply Z.mod_pos_bound. lia. Qed.

Lemma add_days_weekday (k : nat) (d d' : date) :
  valid_date d = true -> add_days d k = Ok d' ->
  weekday d' = (weekday d + Z.of_nat k) mod 7.
Proof.
  intros V H. destruct (add_days_spec k _ _ V H) as [_ O].
  unfold weekday. rewrite O, Zplus_mod_idemp_l. f_equal. lia.
Qed.

(** Before the last year of the calendar there is always a next day, so a
    week ahead of any date of the years 1..9998 exists. *)
Lemma next_day_total (d : date) :
  valid_date d = true -> year d < MAXYEAR \/ month d < 12 \/ day d < 31 ->
  exists d', next_day d = Some d'.
Proof.
  unfold valid_date; destruct d as [y m dd]; cbn [year month day].
  intros V; apply valid_ymd_iff in V as (Hy & Hm & Hd). intros H.
  unfold next_day; cbn [year month day].
  destruct (Z.ltb_spec dd (days_in_month y m)); [eauto|].
  destruct (Z.ltb_spec m 12); [eauto|].
  destruct (Z.ltb_spec y MAXYEAR); [eauto|].
  assert (m = 12) by lia; subst m. cbn [days_in_month] in *. lia.
Qed.

Lemma next_day_year (d d' : date) :
  next_day d = Some d' -> year d' <= year d + 1 /\
  (year d' = year d + 1 -> month d' = 1 /\ day d' = 1).
Proof.
  unfold next_day. destruct d as [y m dd]; cbn [year month day].
  destruct (dd <? days_in_month y m); [intros E; injection E as <-; cbn; lia|].
  destruct (m <? 12); [intros E; injection E as <-; cbn; lia|].
  destruct (y <? MAXYEAR); [intros E; injection E as <-; cbn; lia|discriminate].
Qed.

Lemma add_days_total (k : nat) :
  forall d,
    valid_date d = true -> (k <= 31)%nat ->
    year d < MAXYEAR \/ month d < 12 \/ day d + Z.of_nat k <= 31 ->
    exists d', add_days d k = Ok d'.
Proof.
  induction k as [|k IH]; intros d V Hk H; cbn [add_days]; [eauto|].
  destruct (next_day_total d V) as [d1 E]; [lia|]. rewrite E.
  destruct (next_day_spec _ _ V E) as [V1 _].
  apply IH; [assumption|lia|].
  revert E. unfold next_day. destruct d as [y m dd]; cbn [year month day] in *.
  apply valid_ymd_iff in V as (Hy & Hm & Hd).
  destruct (Z.ltb_spec dd (days_in_month y m)).
  { intros E; injection E as <-; cbn [year month day]. lia. }
  destruct (Z.ltb_spec m 12).
  { intros E; injection E as <-; cbn [year month day].
    destruct H as [H|[H|H]]; [lia| |].
    - destruct (Z.eq_dec (m + 1) 12); [|lia].
      right; right. lia.
    - pose proof (days_in_month_bounds y m). lia. }
  destruct (Z.ltb_spec y MAXYEAR); [|discriminate].
  intros E; injection E as <-; cbn [year month day].
  destruct (Z.eq_dec (y + 1) MAXYEAR); [|unfold MAXYEAR in *; lia].
  right; left; lia.
Qed.

(** *** Decimal rendering *)

Lemma digit_char_cases (n : Z) :
  In (digit_char n) (str "0123456789") /\
  is_digit (digit_char n) = true /\ digit_val (digit_char n) = n mod 10.
Proof.
  assert (C : n mod 10 = 0 \/ n mod 10 = 1 \/ n mod 10 = 2 \/ n mod 10 = 3 \/
              n mod 10 = 4 \/ n mod 10 = 5 \/ n mod 10 = 6 \/ n mod 10 = 7 \/
              n mod 10 = 8 \/ n mod 10 = 9)
    by (pose proof (Z.mod_pos_bound n 10); lia).
  unfold digit_char.
  repeat (destruct C as [C|C]); rewrite C; vm_compute; intuition congruence.
Qed.

Lemma is_digit_digit_char (n : Z) : is_digit (digit_char n) = true.
Proof. apply digit_char_cases. Qed.

Lemma digit_val_digit_char (n : Z) : digit_val (digit_char n) = n mod 10.
Proof. apply digit_char_cases. Qed.

Lemma digit_cases (c : ascii) : is_digit c = true -> In c (str "0123456789").
Proof.
  revert c.
  assert (H : forall c, implb (is_digit c) (existsb (Ascii.eqb c) (str "0123456789")) = true)
    by (apply for_all_chars; vm_compute; reflexivity).
  intros c Hc. specialize (H c). rewrite Hc in H. cbn [implb] in H.
  apply existsb_exists in H as (x & Hx & E). apply Ascii.eqb_eq in E. subst; exact Hx.
Qed.

Lemma digit_char_digit_val (c : ascii) :
  is_digit c = true -> digit_char (digit_val c) = c /\ 0 <= digit_val c <= 9.
Proof.
  intros H. apply digit_cases in H. cbn [str list_ascii_of_string In] in H.
  repeat (destruct H as [<-|H]); try contradiction; vm_compute; intuition congruence.
Qed.

Lemma int_of_pad2 (n : Z) : 0 <= n <= 99 -> int_of (pad2 n) = n.
Proof.
  intros H. unfold int_of, pad2. cbn [fold_left].
  rewrite !digit_val_digit_char. Z.div_mod_to_equations; lia.
Qed.

Lemma int_of_pad4 (n : Z) : 0 <= n <= 9999 -> int_of (pad4 n) = n.
Proof.
  intros H. unfold int_of, pad4. cbn [fold_left].
  rewrite !digit_val_digit_char. Z.div_mod_to_equations; lia.
Qed.

Lemma digit_char_eq (x y : Z) : x mod 10 = y mod 10 -> digit_char x = digit_char y.
Proof. unfold digit_char; intros ->; reflexivity. Qed.

Lemma pad2_int_of (a b : ascii) :
  is_digit a = true -> is_digit b = true -> pad2 (int_of [a; b]) = [a; b].
Proof.
  intros Ha Hb.
  destruct (digit_char_digit_val a Ha) as [Ea Ra], (digit_char_digit_val b Hb) as [Eb Rb].
  transitivity [digit_char (digit_val a); digit_char (digit_val b)];
    [|rewrite Ea, Eb; reflexivity].
  unfold pad2, int_of; cbn [fold_left].
  repeat (f_equal; try (apply digit_char_eq; Z.div_mod_to_equations; lia)).
Qed.

Lemma pad4_int_of (a b c d : ascii) :
  is_digit a = true -> is_digit b = true -> is_digit c = true -> is_digit d = true ->
  pad4 (int_of [a; b; c; d]) = [a; b; c; d].
Proof.
  intros Ha Hb Hc Hd.
  destruct (digit_char_digit_val a Ha) as [Ea Ra], (digit_char_digit_val b Hb) as [Eb Rb],
    (digit_char_digit_val c Hc) as [Ec Rc], (digit_char_digit_val d Hd) as [Ed Rd].
  transitivity [digit_char (digit_val a); digit_char (digit_val b);
                digit_char (digit_val c); digit_char (digit_val d)];
    [|rewrite Ea, Eb, Ec, Ed; reflexivity].
  unfold pad4, int_of; cbn [fold_left].
  repeat (f_equal; try (apply digit_char_eq; Z.div_mod_to_equations; lia)).
Qed.

Lemma isoformat_shape (d : date) :
  isoformat d =
  [digit_char (year d / 1000); digit_char (year d / 100); digit_char (year d / 10);
   digit_char (year d); hyphen; digit_char (month d / 10); digit_char (month d);
   hyphen; digit_char (day d / 10); digit_char (day d)].
Proof. reflexivity. Qed.

(** Parsing what [isoformat] prints gives the date back. *)
Lemma fromisoformat_isoformat (d : date) :
  valid_date d = true -> fromisoformat (isoformat d) = Some d.
Proof.
  intros V. rewrite isoformat_shape. cbn [fromisoformat forallb].
  rewrite !is_digit_digit_char. cbn [andb]. rewrite Ascii.eqb_refl. cbn [andb].
  unfold valid_date in V. pose proof V as V'.
  apply valid_ymd_iff in V' as (Hy & Hm & Hd).
  pose proof (days_in_month_bounds (year d) (month d) Hm).
  change [digit_char (year d / 1000); digit_char (year d / 100);
          digit_char (year d / 10); digit_char (year d)] with (pad4 (year d)).
  change [digit_char (month d / 10); digit_char (month d)] with (pad2 (month d)).
  change [digit_char (day d / 10); digit_char (day d)] with (pad2 (day d)).
  rewrite int_of_pad4, !int_of_pad2 by lia.
  unfold make_date. rewrite V. destruct d; reflexivity.
Qed.

(** Printing what [fromisoformat] has parsed gives the string back. *)
Lemma isoformat_fromisoformat (s : text) (d : date) :
  fromisoformat s = Some d -> valid_date d = true /\ isoformat d = s.
Proof.
  unfold fromisoformat.
  do 10 (destruct s as [|? s]; [discriminate|]). destruct s; [|discriminate].
  match goal with |- context [if ?b then _ else _] => destruct b eqn:B end;
    [|discriminate].
  apply andb_prop in B as [B H2]. apply andb_prop in B as [B H1].
  apply Ascii.eqb_eq in H1, H2. subst.
  cbn [forallb] in B. rewrite !andb_true_iff in B.
  destruct B as (D1 & D2 & D3 & D4 & D5 & D6 & D7 & D8 & _).
  intros E. apply make_date_some in E as [-> V]. split; [exact V|].
  rewrite isoformat_shape. cbn [year month day].
  pose proof (pad4_int_of _ _ _ _ D1 D2 D3 D4) as P4.
  pose proof (pad2_int_of _ _ D5 D6) as P5. pose proof (pad2_int_of _ _ D7 D8) as P6.
  unfold pad4 in P4. unfold pad2 in P5, P6.
  injection P4 as -> -> -> ->. injection P5 as -> ->. injection P6 as -> ->.
  reflexivity.
Qed.

Lemma iso_date_string_isoformat (d : date) :
  valid_date d = true -> iso_date_string (isoformat d).
Proof. intros V. exists (year d), (month d), (day d). split; [exact V|reflexivity]. Qed.

Lemma iso_date_string_iff (s : text) :
  iso_date_string s <-> is_some (fromisoformat s) = true.
Proof.
  split.
  - intros (y & m & d & V & ->).
    change (pad4 y ++ str "-" ++ pad2 m ++ str "-" ++ pad2 d)
      with (isoformat (mkDate y m d)).
    rewrite fromisoformat_isoformat by exact V. reflexivity.
  - destruct (fromisoformat s) as [d|] eqn:E; [|discriminate]. intros _.
    apply isoformat_fromisoformat in E as [V <-].
    apply iso_date_string_isoformat; exact V.
Qed.

Lemma strip_isoformat (d : date) : strip (isoformat d) = isoformat d.
Proof.
  rewrite isoformat_shape.
  apply (strip_fixed (digit_char (year d / 1000))
           [digit_char (year d / 100); digit_char (year d / 10);
            digit_char (year d); hyphen; digit_char (month d / 10);
            digit_char (month d); hyphen; digit_char (day d / 10)]
           (digit_char (day d)));
    apply digit_not_space, is_digit_digit_char.
Qed.

(** ** normalize_date *)

(** C7: a valid calendar date written [YYYY-MM-DD] is returned unchanged by
    [normalize_date], whatever the reference date. *)
Theorem normalize_date_iso_fixed (today : date) (d : text) :
  iso_date_string d -> normalize_date today d = Ok d.
Proof.
  intros (y & m & dd & V & ->).
  change (pad4 y ++ str "-" ++ pad2 m ++ str "-" ++ pad2 dd)
    with (isoformat (mkDate y m dd)).
  unfold normalize_date. rewrite strip_isoformat.
  rewrite fromisoformat_isoformat by exact V.
  rewrite isoformat_shape at 1. reflexivity.
Qed.

Lemma normalize_date_iso_fixed_witness :
  normalize_date (mkDate 2026 2 6) (str "2026-02-28") = Ok (str "2026-02-28").
Proof.
  apply (normalize_date_iso_fixed (mkDate 2026 2 6) (str "2026-02-28")).
  exists 2026, 2, 28. split; vm_compute; reflexivity.
Defined.

Lemma iso_or_empty_shape (y m d : Z) :
  iso_or_empty y m d = [] \/ iso_date_string (iso_or_empty y m d).
Proof.
  unfold iso_or_empty. destruct (make_date y m d) as [dt|] eqn:E; [|left; reflexivity].
  right. apply make_date_some in E as [_ V]. apply iso_date_string_isoformat; exact V.
Qed.

(** [normalize_date] returns the empty string or a calendar date in ISO form. *)
Lemma normalize_date_shape (today : date) (raw r : text) :
  valid_date today = true -> normalize_date today raw = Ok r ->
  r = [] \/ iso_date_string r.
Proof.
  intros V H. unfold normalize_date in H.
  destruct (is_empty (strip raw)); [injection H as <-; left; reflexivity|].
  destruct (fromisoformat (strip raw)) as [parsed|] eqn:F.
  { injection H as <-. right. apply isoformat_fromisoformat in F as [Vp _].
    apply iso_date_string_isoformat; exact Vp. }
  destruct (is_some (re_fullmatch re_quarter (to_lower (strip raw))));
    [injection H as <-; left; reflexivity|].
  destruct (re_fullmatch re_relative (to_lower (strip raw))) as [m_relative|].
  { destruct (dict_get _DAY_NAMES (group_str 1 m_relative)) as [target|];
      [|injection H as <-; left; reflexivity].
    match type of H with bind ?a _ = _ => destruct a as [res|] eqn:Ha end;
      cbn [bind] in H; [|discriminate].
    injection H as <-. right. apply add_days_spec in Ha as [Vr _]; [|exact V].
    apply iso_date_string_isoformat; exact Vr. }
  destruct (text_eqb (to_lower (strip raw)) (str "today")).
  { injection H as <-. right. apply iso_date_string_isoformat; exact V. }
  destruct (text_eqb (to_lower (strip raw)) (str "tomorrow")).
  { destruct (add_days today 1) as [res|] eqn:Ha; cbn [bind] in H; [|discriminate].
    injection H as <-. right. apply add_days_spec in Ha as [Vr _]; [|exact V].
    apply iso_date_string_isoformat; exact Vr. }
  destruct (re_fullmatch re_slash (strip raw)) as [m_slash|].
  { injection H as <-. apply iso_or_empty_shape. }
  destruct (re_fullmatch re_month_day (strip raw)) as [m_month_day|].
  { destruct (dict_get _MONTH_NAMES (to_lower (group_str 1 m_month_day))) as [month|].
    { injection H as <-. apply iso_or_empty_shape. }
    destruct (re_fullmatch re_day_month (strip raw)) as [m_day_month|];
      [|injection H as <-; left; reflexivity].
    destruct (dict_get _MONTH_NAMES (to_lower (group_str 2 m_day_month))) as [month|];
      injection H as <-; [apply iso_or_empty_shape|left; reflexivity]. }
  destruct (re_fullmatch re_day_month (strip raw)) as [m_day_month|];
    [|injection H as <-; left; reflexivity].
  destruct (dict_get _MONTH_NAMES (to_lower (group_str 2 m_day_month))) as [month|];
    injection H as <-; [apply iso_or_empty_shape|left; reflexivity].
Qed.

Lemma due_of_shape (today : date) (m : rmatch) (r : text) :
  valid_date today = true -> due_of today m = Ok r -> r = [] \/ iso_date_string r.
Proof. unfold due_of. apply normalize_date_shape. Qed.

Lemma _extract_due_date_shape (today : date) (line r : text) :
  valid_date today = true -> _extract_due_date today line = Ok r ->
  r = [] \/ iso_date_string r.
Proof.
  intros V H. unfold _extract_due_date in H.
  match type of H with bind ?a _ = _ => destruct a as [first|] eqn:H1 end;
    cbn [bind] in H; [|discriminate].
  assert (S1 : first = [] \/ iso_date_string first).
  { destruct (re_search re_due line) as [m|].
    - eapply due_of_shape; eauto.
    - injection H1 as <-; left; reflexivity. }
  destruct (negb (is_empty first)); [injection H as <-; exact S1|].
  match type of H with bind ?a _ = _ => destruct a as [second|] eqn:H2 end;
    cbn [bind] in H; [|discriminate].
  assert (S2 : second = [] \/ iso_date_string second).
  { destruct (re_search re_by line) as [m|].
    - eapply due_of_shape; eauto.
    - injection H2 as <-; left; reflexivity. }
  destruct (negb (is_empty second)); injection H as <-; [exact S2|left; reflexivity].
Qed.

(** ** Owner *)

Ltac break :=
  repeat match goal with
         | H : exists _, _ |- _ => destruct H as [? H]
         | H : _ /\ _ |- _ => destruct H as [? ?]
         | H : _ \/ _ |- _ => destruct H as [H|H]
         end; subst.

Lemma Matches_no_groups (r : regex) :
  no_groups r = true ->
  forall prev w s' caps caps', Matches r prev w s' caps caps' -> caps' = caps.
Proof.
  induction r as [|p|p lo hi|r1 IH1 r2 IH2|r1 IH1 r2 IH2|r1 IH1|n r1 IH1| | |];
    cbn [no_groups Matches]; intros G prev w s' caps caps' M;
    try (apply andb_prop in G as [G1 G2]); try discriminate.
  - destruct M; auto.
  - destruct M; auto.
  - destruct M; auto.
  - destruct M as (w1 & w2 & cm & -> & M1 & M2).
    apply IH1 in M1; auto. apply IH2 in M2; auto. congruence.
  - destruct M as [M|M]; eauto.
  - destruct M as [M|[_ M]]; eauto.
  - destruct M as (_ & _ & M); auto.
  - destruct M as (_ & _ & M); auto.
  - destruct M as (_ & _ & M); auto.
Qed.

Lemma last_of_forallb (p : ascii -> bool) (w : text) (prev : option ascii) :
  forallb p w = true -> (1 <= length w)%nat ->
  exists e, last_of prev w = Some e /\ p e = true.
Proof.
  intros Hw Hl. destruct (exists_last (l := w)) as (b & e & ->).
  { destruct w; simpl in Hl; [lia|discriminate]. }
  rewrite forallb_app in Hw. apply andb_prop in Hw as [_ He].
  cbn [forallb] in He. rewrite andb_true_r in He.
  exists e. rewrite last_of_app. split; [reflexivity|exact He].
Qed.

Lemma forallb_impl (p q : ascii -> bool) (w : text) :
  (forall c, p c = true -> q c = true) -> forallb p w = true -> forallb q w = true.
Proof.
  intros Hpq. induction w as [|c w IH]; cbn [forallb]; [auto|].
  intros H. apply andb_prop in H as [H1 H2]. rewrite Hpq, IH; auto.
Qed.

Lemma alpha_name_char (c : ascii) : is_alpha c = true -> name_char c = true.
Proof. unfold name_char; intros ->; reflexivity. Qed.

Lemma space_name_char (c : ascii) : is_space c = true -> name_char c = true.
Proof. unfold name_char; intros ->; apply orb_true_r. Qed.

(** One or two words of letters, the second after white space. *)
Lemma words_are_name (a : ascii) (l1 tail : text) :
  is_alpha a = true -> forallb is_alpha l1 = true -> (1 <= length l1)%nat ->
  tail = [] \/
  (exists sp b l2, tail = sp ++ [b] ++ l2 /\ forallb is_space sp = true /\
                   is_alpha b = true /\ forallb is_alpha l2 = true /\
                   (1 <= length l2)%nat) ->
  is_name ([a] ++ l1 ++ tail) = true /\ strip ([a] ++ l1 ++ tail) = [a] ++ l1 ++ tail.
Proof.
  intros Ha Hl1 Hn1 Ht.
  assert (Hchars : forallb name_char ([a] ++ l1 ++ tail) = true).
  { rewrite !forallb_app. cbn [forallb]. rewrite (alpha_name_char a Ha).
    rewrite (forallb_impl is_alpha name_char l1 alpha_name_char Hl1). cbn [andb].
    destruct Ht as [->|(sp & b & l2 & -> & Hsp & Hb & Hl2 & _)]; [reflexivity|].
    rewrite !forallb_app. cbn [forallb].
    rewrite (forallb_impl is_space name_char sp space_name_char Hsp).
    rewrite (alpha_name_char b Hb).
    rewrite (forallb_impl is_alpha name_char l2 alpha_name_char Hl2). reflexivity. }
  assert (Hlast : exists e, last_of None ([a] ++ l1 ++ tail) = Some e /\ is_alpha e = true).
  { destruct Ht as [->|(sp & b & l2 & -> & Hsp & Hb & Hl2 & Hn2)].
    - rewrite app_nil_r, last_of_app. apply last_of_forallb; assumption.
    - rewrite !app_assoc, last_of_app. apply last_of_forallb; assumption. }
  destruct Hlast as (e & He & Hea). split.
  - unfold is_name. cbn [app]. cbn [app] in Hchars, He.
    unfold name_char in Hchars. rewrite Ha, He, Hea.
    cbn [andb]. rewrite andb_true_r. exact Hchars.
  - apply strip_id.
    + cbn. apply alpha_not_space; exact Ha.
    + rewrite He. cbn. apply alpha_not_space; exact Hea.
Qed.

Lemma re_name_ci_shape (prev : option ascii) (w s' : text) (caps caps' : captures) :
  Matches re_name_ci prev w s' caps caps' ->
  caps' = caps /\ is_name w = true /\ strip w = w.
Proof.
  intros M. split; [eapply Matches_no_groups; [|exact M]; reflexivity|].
  cbn [Matches re_name_ci seq_of plus] in M. break.
  - apply words_are_name; auto. right.
    repeat eexists; eauto.
  - apply words_are_name; auto.
Qed.

Lemma re_name_shape (prev : option ascii) (w s' : text) (caps caps' : captures) :
  Matches re_name prev w s' caps caps' ->
  caps' = caps /\ is_name w = true /\ strip w = w /\
  exists a l, w = a :: l /\ is_upper a = true.
Proof.
  intros M. split; [eapply Matches_no_groups; [|exact M]; reflexivity|].
  cbn [Matches re_name seq_of plus] in M. break.
  - rewrite <- and_assoc. split; [|cbn [app]; eauto].
    apply words_are_name; auto using upper_alpha.
    + eapply forallb_impl; [apply lower_alpha|assumption].
    + right. repeat eexists; eauto using upper_alpha.
      eapply forallb_impl; [apply lower_alpha|assumption].
  - rewrite <- and_assoc. split; [|cbn [app]; eauto].
    apply words_are_name; auto using upper_alpha.
    eapply forallb_impl; [apply lower_alpha|assumption].
Qed.

Lemma owner_label_match (line : text) (m : rmatch) :
  re_search re_owner_label line = Some m ->
  is_name (group_str 1 m) = true /\ strip (group_str 1 m) = group_str 1 m /\
  exists a l, group_str 1 m = a :: l /\ is_upper a = true.
Proof.
  intros H. apply re_search_sound in H as (pre & w & s' & caps' & -> & M & ->).
  cbn [Matches re_owner_label seq_of lit map str list_ascii_of_string star] in M.
  break.
  match goal with H : Matches re_name _ _ _ _ _ |- _ =>
    apply re_name_shape in H as (-> & N & S & U) end.
  unfold group_str, mgroup; cbn [m_caps group Nat.eqb]. auto.
Qed.

Lemma owner_paren_match (line : text) (m : rmatch) :
  re_search re_owner_paren line = Some m ->
  is_name (group_str 1 m) = true /\ strip (group_str 1 m) = group_str 1 m.
Proof.
  intros H. apply re_search_sound in H as (pre & w & s' & caps' & -> & M & ->).
  cbn [Matches re_owner_paren seq_of lit_ci map str list_ascii_of_string plus] in M.
  break.
  match goal with H : Matches re_name_ci _ _ _ _ _ |- _ =>
    apply re_name_ci_shape in H as (-> & N & S) end.
  unfold group_str, mgroup; cbn [m_caps group Nat.eqb]. auto.
Qed.

Lemma upper_head_not_unassigned (a : ascii) (l : text) :
  is_upper a = true -> text_eqb (a :: l) unassigned = false.
Proof.
  intros H. apply text_eqb_neq. intros E. injection E as -> _.
  vm_compute in H. discriminate.
Qed.

(** What [_extract_owner] returns, by the pattern that matched. *)
Lemma _extract_owner_cases (line : text) :
  (exists m, re_search re_owner_label line = Some m /\
             _extract_owner line = group_str 1 m /\
             text_eqb (group_str 1 m) unassigned = false /\
             is_name (group_str 1 m) = true) \/
  (re_search re_owner_label line = None /\
   exists m, re_search re_owner_paren line = Some m /\
             _extract_owner line = group_str 1 m /\
             is_name (group_str 1 m) = true) \/
  (re_search re_owner_label line = None /\ re_search re_owner_paren line = None /\
   _extract_owner line = unassigned).
Proof.
  unfold _extract_owner.
  destruct (re_search re_owner_label line) as [m|] eqn:H1.
  { left. exists m. destruct (owner_label_match _ _ H1) as (N & S & a & l & E & U).
    rewrite S. split; [reflexivity|]. split; [reflexivity|]. split; [|exact N].
    rewrite E. apply upper_head_not_unassigned; exact U. }
  right. destruct (re_search re_owner_paren line) as [m|] eqn:H2.
  { left. split; [reflexivity|]. exists m.
    destruct (owner_paren_match _ _ H2) as (N & S). rewrite S. auto. }
  right. destruct (is_some (re_search re_no_owner line)); auto.
Qed.

Lemma _extract_owner_shape (line : text) :
  _extract_owner line = unassigned \/ is_name (_extract_owner line) = true.
Proof.
  destruct (_extract_owner_cases line)
    as [(m & _ & -> & _ & N)|[(_ & m & _ & -> & N)|(_ & _ & ->)]]; auto.
Qed.

(** ** Classification *)

Lemma name_to_verb_owner (line : text) (m : rmatch) :
  re_match _RE_NAME_TO_VERB line = Some m -> is_name (group_str 1 m) = true.
Proof.
  intros H. apply re_match_sound in H as (w & s' & caps' & -> & M & ->).
  cbn [Matches _RE_NAME_TO_VERB seq_of lit_ci map str list_ascii_of_string plus] in M.
  break;
    match goal with H : Matches re_verb _ _ _ _ _ |- _ =>
      apply Matches_no_groups in H; [subst|reflexivity] end;
    unfold group_str, mgroup; cbn [m_caps group Nat.eqb];
    match goal with |- is_name ([?a] ++ ?b) = true =>
      rewrite <- (app_nil_r b); apply (words_are_name a b []); auto end.
Qed.

Lemma classify_owner (line : text) (t : option text) (o : text) :
  classify line = (t, o) -> o = unassigned \/ is_name o = true.
Proof.
  unfold classify.
  repeat match goal with
         | |- context [re_match ?r line] =>
             let m := fresh "m" in
             let E := fresh "E" in
             destruct (re_match r line) as [m|] eqn:E
         | |- context [mgroup 1 ?m] => destruct (mgroup 1 m)
         | |- context [is_some ?x] => destruct (is_some x)
         end;
    intros H; injection H as _ <-; auto.
  all: right; eapply name_to_verb_owner; eassumption.
Qed.

(** ** Invariants of the parsed items *)

(** C1: every item returned by [parse_meeting_notes] has a non-empty task, a
    due date that is empty or a calendar date in ISO form, one of the four
    priority levels, and an owner that is ["unassigned"] or a non-empty name. *)
Theorem parsed_items_invariant (today : date) (doc : text) (items : list ActionItem) :
  valid_date today = true ->
  parse_meeting_notes today doc = Ok items ->
  Forall item_invariant items.
Proof.
  intros V H. apply Forall_forall. intros it Hin.
  destruct (parse_items _ _ _ H it Hin) as (raw & Hr).
  apply parse_line_item in Hr
    as (tt & inferred & _ & _ & Hc & _ & Ht & Ho & Hd & Hp & _).
  unfold item_invariant. repeat match goal with |- _ /\ _ => split end.
  - apply is_empty_false; exact Ht.
  - eapply _extract_due_date_shape; eassumption.
  - rewrite Hp. pose proof (_extract_priority_values (strip raw)) as Hv.
    unfold priority_levels. cbn [In] in *. intuition.
  - rewrite Ho. destruct (negb (text_eqb (_extract_owner (strip raw)) unassigned)).
    + apply _extract_owner_shape.
    + eapply classify_owner; exact Hc.
Qed.

Lemma parsed_items_invariant_witness :
  Forall item_invariant
    [mkActionItem (str "review the deployment plan") (str "Alice") (str "2026-03-10")
       (str "normal") (str "Alice to review the deployment plan by March 10")].
Proof.
  apply (parsed_items_invariant (mkDate 2026 2 6)
           (str "Alice to review the deployment plan by March 10")).
  - vm_compute. reflexivity.
  - vm_compute. reflexivity.
Defined.

(** ** Owner resolution *)

Lemma resolved_owner_correct (line inferred : text) :
  (if negb (text_eqb (_extract_owner line) unassigned)
   then _extract_owner line else inferred) = resolved_owner line inferred.
Proof.
  unfold resolved_owner.
  destruct (_extract_owner_cases line)
    as [(m & -> & -> & U & _)|[(-> & m & -> & -> & _)|(-> & -> & ->)]].
  - rewrite U. reflexivity.
  - destruct (text_eqb (group_str 1 m) unassigned); reflexivity.
  - rewrite text_eqb_refl. reflexivity.
Qed.

(** How the loop resolves the owner of an item: the ["Owner: <Name>"]
    capture if that pattern matches its line; else the ["(owner <Name>)"]
    capture if that pattern matches and the capture is not ["unassigned"];
    else the owner inferred by the classifier (["unassigned"] if none).
    [_extract_owner] reports the marker ["(no owner"] with the very value
    that the loop reads as "nothing found". *)
Lemma owner_resolution (today : date) (doc : text) (items : list ActionItem) :
  parse_meeting_notes today doc = Ok items ->
  Forall (fun it =>
            exists task_text inferred,
              classify (raw_line it) = (Some task_text, inferred) /\
              owner it = resolved_owner (raw_line it) inferred) items.
Proof.
  intros H. apply Forall_forall. intros it Hin.
  destruct (parse_items _ _ _ H it Hin) as (raw & Hr).
  apply parse_line_item in Hr
    as (tt & inferred & _ & _ & Hc & _ & _ & Ho & _ & _ & Hl).
  exists tt, inferred. rewrite Hl. split; [exact Hc|].
  rewrite Ho. apply resolved_owner_correct.
Qed.

(** C2: the marker ["(no owner"] is lost behind an inferred name.  On the
    line ["John to draft the proposal (no owner yet)"] the classifier infers
    ["John"], [_extract_owner] finds the marker and returns ["unassigned"],
    and the item is given to ["John"], where the stated rule gives
    ["unassigned"].  The marker does work where nothing was inferred, and an
    ["(owner <Name>)"] or ["Owner: <Name>"] on the same kind of line does
    replace the inferred name. *)
Theorem no_owner_marker_lost :
  let today := mkDate 2026 2 6 in
  let parsed (line task owner : string) :=
    parse_meeting_notes today (str line) =
    Ok [mkActionItem (str task) (str owner) [] (str "normal") (str line)] in
  let line := str "John to draft the proposal (no owner yet)" in
  classify line = (Some (str "draft the proposal (no owner yet)"), str "John") /\
  _extract_owner line = str "unassigned" /\
  spec_owner line (str "John") = str "unassigned" /\
  (parsed "John to draft the proposal (no owner yet)" "draft the proposal" "John" /\
   parsed "Reminder: Check server logs (no owner yet)" "Check server logs" "unassigned" /\
   parsed "John to draft the proposal (owner Bob)" "draft the proposal" "Bob" /\
   parsed "John to draft the proposal; Owner: Bob" "draft the proposal" "Bob")%string.
Proof.
  cbv zeta. repeat split; vm_compute; reflexivity.
Qed.

(** ** Decision lines *)

Lemma Matches_lit_ci (l : text) :
  l <> [] ->
  forall w prev s' caps,
    map lower w = map lower l ->
    Matches (seq_of (map (fun a => Chr (chr_ci a)) l)) prev w s' caps caps.
Proof.
  induction l as [|a l IH]; [congruence|]. intros _ w prev s' caps E.
  destruct w as [|c w]; [discriminate|]. cbn [map] in E. injection E as Ec Ew.
  assert (Hc : Matches (Chr (chr_ci a)) prev [c] (w ++ s') caps caps).
  { cbn [Matches]. split; [|reflexivity]. exists c. split; [reflexivity|].
    unfold chr_ci. rewrite Ec. apply Ascii.eqb_refl. }
  destruct l as [|a' l].
  - destruct w; [|discriminate]. exact Hc.
  - cbn [map seq_of]. cbn [map seq_of] in IH. cbn [Matches].
    exists [c], w, caps. split; [reflexivity|]. split; [exact Hc|].
    apply IH; [discriminate|exact Ew].
Qed.

Lemma lower_colon (c : ascii) : lower c = ":"%char -> c = ":"%char.
Proof.
  revert c.
  assert (H : forall c, implb (Ascii.eqb (lower c) ":") (Ascii.eqb c ":") = true)
    by (apply for_all_chars; vm_compute; reflexivity).
  intros c E. specialize (H c). rewrite E in H. cbn in H.
  apply Ascii.eqb_eq; exact H.
Qed.

(** After the delimiter, a marker is matched by [Decisions?:\s*]. *)
Lemma marker_matches (m post : text) (prev : option ascii) (caps : captures) :
  is_decision_marker m ->
  Matches (seq_of [lit_ci "Decision"; Opt (Chr (chr_ci "s")); Chr (chr ":");
                   star is_space]) prev m post caps caps.
Proof.
  assert (Hstar : Matches (star is_space) None [] post caps caps).
  { cbn [Matches star]. repeat split; auto. }
  assert (Hcolon : Matches (Chr (chr ":")) None [":"%char] post caps caps).
  { cbn [Matches]. split; [|reflexivity]. exists ":"%char. auto. }
  unfold to_lower. intros [E|E].
  - do 9 (destruct m as [|? m]; [discriminate|]). destruct m; [|discriminate].
    cbn [map] in E. injection E as E1 E2 E3 E4 E5 E6 E7 E8 E9.
    apply lower_colon in E9. subst.
    cbn [seq_of Matches].
    exists [a; a0; a1; a2; a3; a4; a5; a6], [":"%char], caps.
    split; [reflexivity|]. split.
    { apply (Matches_lit_ci (str "Decision")); [discriminate|].
      cbn [map]. rewrite E1, E2, E3, E4, E5, E6, E7, E8. reflexivity. }
    exists [], [":"%char], caps. split; [reflexivity|]. split; [right; auto|].
    exists [":"%char], [], caps. split; [reflexivity|]. split; [apply Hcolon|apply Hstar].
  - do 10 (destruct m as [|? m]; [discriminate|]). destruct m; [|discriminate].
    cbn [map] in E. injection E as E1 E2 E3 E4 E5 E6 E7 E8 E9 E10.
    apply lower_colon in E10. subst.
    cbn [seq_of Matches].
    exists [a; a0; a1; a2; a3; a4; a5; a6], [a7; ":"%char], caps.
    split; [reflexivity|]. split.
    { apply (Matches_lit_ci (str "Decision")); [discriminate|].
      cbn [map]. rewrite E1, E2, E3, E4, E5, E6, E7, E8. reflexivity. }
    exists [a7], [":"%char], caps. split; [reflexivity|]. split.
    { left. split; [|reflexivity]. exists a7. split; [reflexivity|].
      unfold chr_ci. rewrite E9. reflexivity. }
    exists [":"%char], [], caps. split; [reflexivity|]. split; [apply Hcolon|apply Hstar].
Qed.

Lemma last_of_none (pre : text) : last_of None pre = None -> pre = [].
Proof.
  destruct pre as [|c pre]; [reflexivity|].
  destruct (exists_last (l := c :: pre)) as (b & e & E); [discriminate|].
  rewrite E, last_of_app. discriminate.
Qed.

Lemma last_of_some (pre : text) (c : ascii) :
  last_of None pre = Some c -> exists pre', pre = pre' ++ [c].
Proof.
  destruct pre as [|c0 pre]; [discriminate|].
  destruct (exists_last (l := c0 :: pre)) as (b & e & E); [discriminate|].
  rewrite E, last_of_app. cbn. intros H; injection H as ->. exists b; reflexivity.
Qed.

Lemma delimited_marker_found (line : text) :
  contains_delimited_marker line -> is_some (re_search _RE_DECISION line) = true.
Proof.
  intros (pre & m & post & -> & Hm & Hb). apply re_search_occurs.
  change _RE_DECISION with
    (Seq (Alt Bol (Chr (fun c => negb (is_word c))))
         (seq_of [lit_ci "Decision"; Opt (Chr (chr_ci "s")); Chr (chr ":");
                  star is_space])).
  destruct (last_of None pre) as [c|] eqn:Hl.
  - (* the marker follows a character that is not a word character *)
    apply last_of_some in Hl as (pre' & ->).
    exists pre', ([c] ++ m), post, [].
    split; [rewrite <- !app_assoc; reflexivity|].
    cbn [Matches]. exists [c], m, []. split; [reflexivity|]. split.
    + right. split; [|reflexivity]. exists c. split; [reflexivity|].
      cbn in Hb. rewrite Hb. reflexivity.
    + apply marker_matches; exact Hm.
  - (* the marker starts the line *)
    apply last_of_none in Hl as ->.
    exists [], m, post, []. split; [reflexivity|].
    cbn [Matches]. exists [], m, []. split; [reflexivity|]. split.
    + left. auto.
    + apply marker_matches; exact Hm.
Qed.

Lemma bind_ok_right {A : Type} (x : result A) : bind x (fun a => Ok a) = x.
Proof. destruct x; reflexivity. Qed.

Lemma parse_lines_app (today : date) (a b : list text) :
  parse_lines today (a ++ b) =
  bind (parse_lines today a) (fun xs =>
  bind (parse_lines today b) (fun ys => Ok (xs ++ ys))).
Proof.
  induction a as [|l a IH]; cbn [app parse_lines bind].
  - destruct (parse_lines today b); reflexivity.
  - destruct (parse_line today l) as [[it|]|]; cbn [bind]; [| |reflexivity];
      rewrite IH; destruct (parse_lines today a); cbn [bind]; try reflexivity;
      destruct (parse_lines today b); reflexivity.
Qed.

Lemma parse_line_decision (today : date) (raw : text) :
  contains_delimited_marker (strip raw) -> parse_line today raw = Ok None.
Proof.
  intros H. apply delimited_marker_found in H. unfold parse_line.
  destruct (is_empty (strip raw)); [reflexivity|]. rewrite H. reflexivity.
Qed.

(** C6: a line that holds a ["Decision:"] or ["Decisions:"] marker, in any
    mix of cases and anywhere in the line (the marker being a word of its
    own: it starts the line or follows a character that is not a word
    character), adds nothing to the result, whatever else the line holds:
    the check comes before every inclusion pattern.  In particular a
    document made of the line ["Decisions: use SSO for internal users."]
    parses to no item. *)
Theorem decision_line_skipped (today : date) (doc : text) (before after : list text)
    (line : text) :
  splitlines doc = before ++ line :: after ->
  contains_delimited_marker (strip line) ->
  parse_meeting_notes today doc = parse_lines today (before ++ after).
Proof.
  intros Hs Hm. unfold parse_meeting_notes. rewrite Hs, !parse_lines_app.
  cbn [parse_lines]. rewrite (parse_line_decision today line Hm). cbn [bind].
  destruct (parse_lines today before); cbn [bind]; [|reflexivity].
  destruct (parse_lines today after); reflexivity.
Qed.

Lemma decision_line_skipped_witness :
  parse_meeting_notes (mkDate 2026 2 6) (str "Decisions: use SSO for internal users.")
  = parse_lines (mkDate 2026 2 6) ([] ++ []).
Proof.
  apply (decision_line_skipped (mkDate 2026 2 6)
           (str "Decisions: use SSO for internal users.") [] []
           (str "Decisions: use SSO for internal users.")).
  - vm_compute. reflexivity.
  - exists [], (str "Decisions:"), (str " use SSO for internal users.").
    split; [vm_compute; reflexivity|]. split; [right; reflexivity|reflexivity].
Defined.

(** The check does come first: a line that every inclusion pattern would
    take is skipped for its marker. *)
Example decision_before_inclusion :
  parse_meeting_notes (mkDate 2026 2 6)
    (str "TODO: Alice to send the notes (P0); Decision: postpone") = Ok [] /\
  fst (classify (str "TODO: Alice to send the notes (P0); Decision: postpone"))
  = Some (str "Alice to send the notes (P0); Decision: postpone").
Proof. split; vm_compute; reflexivity. Qed.

(** ** sort_items *)

Lemma code_inj (x y : ascii) : code x = code y -> x = y.
Proof.
  unfold code; intros H.
  rewrite <- (ascii_N_embedding x), <- (ascii_N_embedding y), H. reflexivity.
Qed.

#[global] Instance CompareLaws_bool : CompareLaws bool.
Proof.
  split.
  - intros [] []; cbn; split; congruence.
  - intros [] []; reflexivity.
  - intros [] [] []; cbn; congruence.
Qed.

#[global] Instance CompareLaws_text : CompareLaws text.
Proof.
  split.
  - induction a as [|x a IH]; intros [|y b]; cbn; try (split; congruence).
    change (compare a b) with (text_compare a b) in IH.
    destruct (N.compare_spec (code x) (code y)) as [E|L|L].
    + apply code_inj in E; subst. rewrite IH. split; congruence.
    + split; [discriminate|]. intros E; injection E as -> _. lia.
    + split; [discriminate|]. intros E; injection E as -> _. lia.
  - induction a as [|x a IH]; intros [|y b]; cbn; try reflexivity.
    rewrite (N.compare_antisym (code x) (code y)).
    destruct (N.compare (code x) (code y)); cbn; auto.
  - induction a as [|x a IH]; intros [|y b] [|z c]; cbn; try congruence.
    destruct (N.compare_spec (code x) (code y)) as [E1|L1|L1]; try discriminate;
      destruct (N.compare_spec (code y) (code z)) as [E2|L2|L2]; try discriminate;
      intros H1 H2.
    + rewrite E1, E2, N.compare_refl. eapply IH; eassumption.
    + rewrite E1. apply N.compare_lt_iff in L2. rewrite L2. reflexivity.
    + rewrite <- E2. apply N.compare_lt_iff in L1. rewrite L1. reflexivity.
    + assert (L : (code x < code z)%N) by lia.
      apply N.compare_lt_iff in L. rewrite L. reflexivity.
Qed.

#[global] Instance CompareLaws_pair {A B : Type} `{CompareLaws A} `{CompareLaws B} :
  CompareLaws (A * B).
Proof.
  split.
  - intros [a1 b1] [a2 b2]. unfold compare, Compare_pair, pair_compare. cbn [fst snd].
    destruct (compare a1 a2) eqn:E.
    + apply compare_eq in E; subst. rewrite compare_eq. split; congruence.
    + split; [discriminate|]. intros X; injection X as -> _.
      assert (R : compare a2 a2 = Eq) by (apply compare_eq; reflexivity). congruence.
    + split; [discriminate|]. intros X; injection X as -> _.
      assert (R : compare a2 a2 = Eq) by (apply compare_eq; reflexivity). congruence.
  - intros [a1 b1] [a2 b2]. unfold compare, Compare_pair, pair_compare. cbn [fst snd].
    rewrite (compare_antisym a1 a2). destruct (compare a1 a2); cbn; auto.
    apply compare_antisym.
  - intros [a1 b1] [a2 b2] [a3 b3]. unfold compare, Compare_pair, pair_compare.
    cbn [fst snd].
    destruct (compare a1 a2) eqn:E1; try discriminate;
      destruct (compare a2 a3) eqn:E2; try discriminate; intros L1 L2.
    + apply compare_eq in E1, E2; subst.
      assert (R : compare a3 a3 = Eq) by (apply compare_eq; reflexivity).
      rewrite R. eapply compare_trans; eassumption.
    + apply compare_eq in E1; subst. rewrite E2. reflexivity.
    + apply compare_eq in E2; subst. rewrite E1. reflexivity.
    + rewrite (compare_trans _ _ _ E1 E2). reflexivity.
Qed.

Section OrderFacts.
Context {K : Type} `{CompareLaws K}.

Lemma compare_refl (a : K) : compare a a = Eq.
Proof. apply compare_eq; reflexivity. Qed.

Lemma le_by_total (a b : K) : le_by a b = false -> le_by b a = true.
Proof.
  unfold le_by. rewrite (compare_antisym a b).
  destruct (compare a b); cbn; congruence.
Qed.

Lemma le_by_trans (a b c : K) : le_by a b = true -> le_by b c = true -> le_by a c = true.
Proof.
  unfold le_by.
  destruct (compare a b) eqn:E1; try discriminate;
    destruct (compare b c) eqn:E2; try discriminate; intros _ _.
  - apply compare_eq in E1, E2; subst. rewrite compare_refl. reflexivity.
  - apply compare_eq in E1; subst. rewrite E2. reflexivity.
  - apply compare_eq in E2; subst. rewrite E1. reflexivity.
  - rewrite (compare_trans _ _ _ E1 E2). reflexivity.
Qed.

End OrderFacts.

Section SortFacts.
Context {T K : Type} `{CompareLaws K}.
Variable f : T -> K.

Lemma insert_by_perm (x : T) (l : list T) : Permutation (insert_by f x l) (x :: l).
Proof.
  induction l as [|y l IH]; cbn [insert_by]; [reflexivity|].
  destruct (le_by (f x) (f y)); [reflexivity|].
  rewrite IH. apply perm_swap.
Qed.

Lemma sorted_by_perm (l : list T) : Permutation (sorted_by f l) l.
Proof.
  induction l as [|x l IH]; cbn [sorted_by]; [reflexivity|].
  rewrite insert_by_perm, IH. reflexivity.
Qed.

Lemma insert_by_sorted (x : T) (l : list T) :
  StronglySorted (fun a b => le_by (f a) (f b) = true) l ->
  StronglySorted (fun a b => le_by (f a) (f b) = true) (insert_by f x l).
Proof.
  induction l as [|y l IH]; cbn [insert_by]; intros S.
  - constructor; [constructor|constructor].
  - apply StronglySorted_inv in S as [S Hy].
    destruct (le_by (f x) (f y)) eqn:E.
    + constructor; [constructor; assumption|].
      constructor; [exact E|].
      eapply Forall_impl; [|exact Hy]. intros z Hz. eapply le_by_trans; eassumption.
    + constructor; [apply IH; exact S|].
      eapply Permutation_Forall; [symmetry; apply insert_by_perm|].
      constructor; [apply le_by_total; exact E|exact Hy].
Qed.

Lemma sorted_by_sorted (l : list T) :
  StronglySorted (fun a b => le_by (f a) (f b) = true) (sorted_by f l).
Proof.
  induction l as [|x l IH]; cbn [sorted_by]; [constructor|].
  apply insert_by_sorted; exact IH.
Qed.


End SortFacts.




Lemma alphabetical_compare (a b : text) : alphabetical a b -> text_compare a b = Lt.
Proof.
  induction 1 as [c t|c d s t L|c s t _ IH]; cbn [text_compare].
  - reflexivity.
  - apply N.compare_lt_iff in L. rewrite L. reflexivity.
  - rewrite N.compare_refl. exact IH.
Qed.

Lemma text_compare_refl (a : text) : text_compare a a = Eq.
Proof. exact (proj2 (compare_eq (T := text) a a) eq_refl). Qed.

(** The first component of the key tells whether the item is assigned. *)
Lemma owner_unknown_assigned (it : ActionItem) :
  owner_unknown it = false <-> assigned it.
Proof.
  unfold owner_unknown, assigned. rewrite orb_false_iff. split.
  - intros [H1 H2]. split.
    + intros E. rewrite E in H1. discriminate H1.
    + intros E. change (str "unassigned") with unassigned in E.
      rewrite E, text_eqb_refl in H2. discriminate H2.
  - intros [H1 H2]. split.
    + destruct (owner it); [congruence|reflexivity].
    + apply text_eqb_neq. exact H2.
Qed.

(** The third component tells whether it has a due date. *)
Lemma date_unknown_dated (it : ActionItem) : date_unknown it = false <-> dated it.
Proof.
  unfold date_unknown, dated. destruct (due_date it); cbn; split; congruence.
Qed.




(** The layered order is the order of the keys: two items in that order
    have keys in ascending order. *)
Lemma ordered_items_le_by (a b : ActionItem) :
  ordered_items a b -> le_by (_sort_key a) (_sort_key b) = true.
Proof.
  unfold le_by, _sort_key, ordered_items.
  cbv [compare Compare_pair pair_compare Compare_bool Compare_text fst snd].
  intros [[Ha Hb]|[Hab H]].
  - apply owner_unknown_assigned in Ha. rewrite Ha.
    destruct (owner_unknown b) eqn:Eb; [reflexivity|].
    apply owner_unknown_assigned in Eb. contradiction.
  - assert (E1 : owner_unknown a = owner_unknown b).
    { destruct (owner_unknown a) eqn:Ea, (owner_unknown b) eqn:Eb; try reflexivity.
      - apply owner_unknown_assigned, Hab, owner_unknown_assigned in Eb. congruence.
      - apply owner_unknown_assigned, Hab, owner_unknown_assigned in Ea. congruence. }
    rewrite E1. replace (bool_compare (owner_unknown b) (owner_unknown b)) with Eq
      by (destruct (owner_unknown b); reflexivity).
    destruct H as [L|[Eo H]]; [rewrite (alphabetical_compare _ _ L); reflexivity|].
    rewrite Eo, text_compare_refl.
    destruct H as [[Ha Hb]|[Hd H]].
    + apply date_unknown_dated in Ha. rewrite Ha.
      destruct (date_unknown b) eqn:Eb; [reflexivity|].
      apply date_unknown_dated in Eb. contradiction.
    + assert (E3 : date_unknown a = date_unknown b).
      { destruct (date_unknown a) eqn:Ea, (date_unknown b) eqn:Eb; try reflexivity.
        - apply date_unknown_dated, Hd, date_unknown_dated in Eb. congruence.
        - apply date_unknown_dated, Hd, date_unknown_dated in Ea. congruence. }
      rewrite E3. replace (bool_compare (date_unknown b) (date_unknown b)) with Eq
        by (destruct (date_unknown b); reflexivity).
      destruct H as [->|L].
      * rewrite text_compare_refl. reflexivity.
      * rewrite (alphabetical_compare _ _ L). reflexivity.
Qed.


(** The order on the items of the test suite's mixed list, every layer at
    work: the two owners in alphabetical order before the unassigned items,
    and within each owner the dated item before the undated one. *)
Example sort_items_mixed :
  let item (t o d : string) :=
    mkActionItem (str t) (str o) (str d) (str "normal") [] in
  (sort_items
    [item "Unassigned late" "unassigned" "2026-04-01";
     item "Bob early" "Bob" "2026-01-15";
     item "Alice no date" "Alice" EmptyString;
     item "Unassigned no date" "unassigned" EmptyString;
     item "Alice early" "Alice" "2026-02-01";
     item "Bob late" "Bob" "2026-06-01"]
  = [item "Alice early" "Alice" "2026-02-01";
     item "Alice no date" "Alice" EmptyString;
     item "Bob early" "Bob" "2026-01-15";
     item "Bob late" "Bob" "2026-06-01";
     item "Unassigned late" "unassigned" "2026-04-01";
     item "Unassigned no date" "unassigned" EmptyString])%string.
Proof. vm_compute. reflexivity. Qed.

(** Letter case plays no part in the order of owners, and items with equal
    keys keep their order. *)
Example sort_items_case_and_ties :
  let item (t o d : string) :=
    mkActionItem (str t) (str o) (str d) (str "normal") [] in
  (sort_items
    [item "first" "UNASSIGNED" EmptyString; item "second" "bob" "2026-03-01";
     item "third" EmptyString EmptyString; item "fourth" "Bob" "2026-03-01";
     item "fifth" "alice" EmptyString; item "sixth" "unassigned" EmptyString]
  = [item "fifth" "alice" EmptyString; item "second" "bob" "2026-03-01";
     item "fourth" "Bob" "2026-03-01"; item "third" EmptyString EmptyString;
     item "first" "UNASSIGNED" EmptyString; item "sixth" "unassigned" EmptyString])%string.
Proof. vm_compute. reflexivity. Qed.

(** ** Greedy repetition *)

(** If what follows accepts at the point where the repetition stops, the
    repetition takes all of [w] and no backtracking takes place. *)
Lemma rep_greedy {A : Type} (p : ascii -> bool) (w : text) :
  forall lo hi prev s' (k : option ascii -> text -> option A) x,
    forallb p w = true -> (lo <= length w)%nat -> within hi (length w) ->
    stops_after p hi w s' ->
    k (last_of prev w) s' = Some x ->
    rep p lo hi prev (w ++ s') k = Some x.
Proof.
  induction w as [|c w IH]; intros lo hi prev s' k x Hw Hlo Hhi Hs Hk.
  - cbn [length] in Hlo. assert (lo = O) by lia; subst lo.
    cbn [app]. cbn in Hk.
    destruct s' as [|c t]; [exact Hk|]. cbn [rep].
    destruct Hs as [Hs|[(c' & t' & E & Hc)|Hs]].
    + discriminate.
    + injection E as <- <-. rewrite Hc. exact Hk.
    + subst hi. cbn [more_allowed length]. rewrite andb_false_r. exact Hk.
  - cbn [forallb] in Hw. apply andb_prop in Hw as [Hc Hw].
    cbn [length] in Hhi. apply more_allowed_within in Hhi as [Hm Hhi].
    cbn [app rep]. rewrite Hc, Hm. cbn [andb].
    rewrite (IH (pred lo) (option_map pred hi) (Some c) s' k x); auto.
    + cbn [length] in Hlo. lia.
    + destruct Hs as [Hs|[Hs|Hs]]; [left; exact Hs|right; left; exact Hs|].
      right; right. subst hi. reflexivity.
Qed.

Lemma rep_greedy_end {A : Type} (p : ascii -> bool) (w : text) (lo : nat)
    (hi : option nat) (prev : option ascii) (k : option ascii -> text -> option A) (x : A) :
  forallb p w = true -> (lo <= length w)%nat -> within hi (length w) ->
  k (last_of prev w) [] = Some x ->
  rep p lo hi prev w k = Some x.
Proof.
  intros Hw Hlo Hhi Hk. rewrite <- (app_nil_r w) at 1.
  apply rep_greedy; auto. left; reflexivity.
Qed.

Lemma stops_at_end (p : ascii -> bool) (hi : option nat) (w : text) :
  stops_after p hi w [].
Proof. left; reflexivity. Qed.

Lemma stops_before (p : ascii -> bool) (hi : option nat) (w : text) (c : ascii) (t : text) :
  p c = false -> stops_after p hi w (c :: t).
Proof. intros H; right; left; eauto. Qed.

(** ** Relative dates: "next <weekday>" *)

Lemma fromisoformat_chars (s : text) (d : date) :
  fromisoformat s = Some d ->
  forallb (fun c => is_digit c || Ascii.eqb c hyphen) s = true.
Proof.
  intros H. apply isoformat_fromisoformat in H as [_ <-].
  rewrite isoformat_shape. cbn [forallb].
  rewrite !is_digit_digit_char, !Ascii.eqb_refl, !orb_true_r. reflexivity.
Qed.

Lemma fromisoformat_none (s : text) (c : ascii) :
  In c s -> is_digit c || Ascii.eqb c hyphen = false -> fromisoformat s = None.
Proof.
  intros Hin Hc. destruct (fromisoformat s) as [d|] eqn:E; [|reflexivity].
  apply fromisoformat_chars in E. rewrite forallb_forall in E.
  rewrite (E c Hin) in Hc. discriminate.
Qed.

Lemma dict_get_in {V : Type} (d : list (string * V)) (k : text) (v : V) :
  dict_get d k = Some v -> In (k, v) (map (fun p => (str (fst p), snd p)) d).
Proof.
  induction d as [|[k' v'] d IH]; cbn [dict_get map fst snd]; [discriminate|].
  destruct (text_eqb (str k') k) eqn:E.
  - intros X; injection X as ->. apply text_eqb_eq in E. left; congruence.
  - intros X; right; auto.
Qed.

Lemma day_names_entry (s : text) (t : Z) :
  dict_get _DAY_NAMES s = Some t ->
  0 <= t <= 6 /\ s <> [] /\ forallb is_lower s = true.
Proof.
  intros H. apply dict_get_in in H.
  cbn [_DAY_NAMES map fst snd In] in H.
  repeat (destruct H as [H|H]; [injection H as <- <-; repeat split;
                                 try lia; try discriminate; vm_compute; reflexivity|]).
  contradiction.
Qed.

Lemma word_not_space (c : ascii) : is_word c = true -> is_space c = false.
Proof.
  intros H. destruct (is_space c) eqn:E; [|reflexivity].
  apply space_not_word in E. congruence.
Qed.

Lemma alpha_word (c : ascii) : is_alpha c = true -> is_word c = true.
Proof.
  unfold is_word. intros ->. rewrite orb_true_r. reflexivity.
Qed.

Lemma lower_word (c : ascii) : is_word (lower c) = is_word c.
Proof.
  revert c.
  assert (H : forall c, Bool.eqb (is_word (lower c)) (is_word c) = true)
    by (apply for_all_chars; vm_compute; reflexivity).
  intros c. apply eqb_prop, H.
Qed.

Lemma to_lower_word (w : text) : forallb is_word (to_lower w) = forallb is_word w.
Proof.
  induction w as [|c w IH]; [reflexivity|].
  cbn [to_lower map forallb]. rewrite lower_word. f_equal. exact IH.
Qed.

Lemma lower_name_word (w : text) :
  forallb is_lower (to_lower w) = true -> forallb is_word w = true.
Proof.
  induction w as [|c w IH]; [reflexivity|].
  cbn [to_lower map forallb]. intros H. apply andb_prop in H as [Hc Hw].
  rewrite (alpha_word c (lower_is_lower c Hc)). apply IH; exact Hw.
Qed.

(** The number of days from [today] to the next [target] weekday. *)
Lemma days_ahead_spec (wd target : Z) :
  0 <= wd < 7 -> 0 <= target <= 6 ->
  let d := (target - wd) mod 7 in
  let k := Z.to_nat (if d =? 0 then 7 else d) in
  (1 <= k <= 7)%nat /\ (k = 7%nat <-> wd = target) /\
  (wd + Z.of_nat k) mod 7 = target.
Proof.
  intros Hw Ht d k. subst d k.
  destruct (Z.eqb_spec ((target - wd) mod 7) 0) as [E|E].
  - change (Z.to_nat 7) with 7%nat. split; [lia|]. split.
    + split; [intros _|reflexivity]. Z.div_mod_to_equations; lia.
    + change (Z.of_nat 7) with 7. Z.div_mod_to_equations; lia.
  - pose proof (Z.mod_pos_bound (target - wd) 7).
    rewrite Z2Nat.id by lia. split; [lia|]. split.
    + split; [|intros ->; rewrite Z.sub_diag in E; cbn in E; congruence].
      intros X. exfalso. Z.div_mod_to_equations; lia.
    + Z.div_mod_to_equations; lia.
Qed.

(** [normalize_date] on ["next " + w] for a word [w]. *)
Lemma normalize_date_next (today : date) (w : text) :
  w <> [] -> forallb is_word w = true ->
  normalize_date today (str "next " ++ w) =
  match dict_get _DAY_NAMES (to_lower w) with
  | Some target =>
      let d := (target - weekday today) mod 7 in
      bind (add_days today (Z.to_nat (if d =? 0 then 7 else d)))
           (fun result => Ok (isoformat result))
  | None => Ok []
  end.
Proof.
  intros Hne Hw.
  assert (Hstrip : strip (str "next " ++ w) = str "next " ++ w).
  { apply strip_id; [reflexivity|].
    rewrite last_of_app.
    destruct (last_of_forallb is_word w (last_of None (str "next ")) Hw) as (e & -> & He).
    { destruct w; [congruence|cbn; lia]. }
    cbn. apply word_not_space; exact He. }
  unfold normalize_date. rewrite Hstrip.
  change (is_empty (str "next " ++ w)) with false. cbv iota.
  rewrite (fromisoformat_none (str "next " ++ w) "n"%char);
    [|left; reflexivity|reflexivity].
  assert (Hlow : to_lower (str "next " ++ w) = str "next " ++ to_lower w).
  { unfold to_lower. rewrite map_app. reflexivity. }
  rewrite Hlow.
  assert (Hq : re_fullmatch re_quarter (str "next " ++ to_lower w) = None).
  { rewrite re_fullmatch_eq. reflexivity. }
  rewrite Hq. cbn [is_some].
  assert (Hr : re_fullmatch re_relative (str "next " ++ to_lower w) =
               Some (mkMatch (str "next " ++ to_lower w) []
                             (last_of (Some " "%char) (to_lower w))
                             [(1%nat, to_lower w)])).
  { rewrite re_fullmatch_eq.
    cbn [run re_relative seq_of lit map str list_ascii_of_string app plus].
    unfold chr. cbn [Ascii.eqb Bool.eqb andb].
    destruct (to_lower w) as [|c lw] eqn:El.
    { destruct w; [congruence|discriminate]. }
    assert (Hlw : forallb is_word (c :: lw) = true)
      by (rewrite <- El, to_lower_word; exact Hw).
    pose proof Hlw as Hc. cbn [forallb] in Hc. apply andb_prop in Hc as [Hc _].
    apply (rep_greedy is_space [" "%char] 1 None (Some "t"%char) (c :: lw));
      [reflexivity|cbn; lia|exact I|apply stops_before, word_not_space; exact Hc|].
    cbn [last_of fold_left].
    rewrite <- (app_nil_r (c :: lw)) at 1.
    apply (rep_greedy is_word (c :: lw) 1 None (Some " "%char) []);
      [exact Hlw|cbn; lia|exact I|apply stops_at_end|].
    unfold accept_end. rewrite consumed_nil. reflexivity. }
  rewrite Hr. unfold group_str, mgroup. cbn [m_caps group Nat.eqb].
  destruct (dict_get _DAY_NAMES (to_lower w)); reflexivity.
Qed.

(** C3: for a recognized weekday name [w] (in any case) naming weekday
    [target], ["next " + w] normalizes to the date [k] days after today,
    where [k] is 7 if today is that weekday and otherwise the number of days,
    from 1 to 6, to its next occurrence; that date falls on [target] and
    exists whenever today is before the year 9999.  A word that names no
    weekday yields [""].  On Friday 2026-02-06, ["next Monday"] gives
    ["2026-02-09"]. *)
Theorem next_weekday (today : date) :
  valid_date today = true ->
  (forall w target,
      dict_get _DAY_NAMES (to_lower w) = Some target ->
      let k := days_until (weekday today) target in
      (1 <= k <= 7)%nat /\
      (k = 7%nat <-> weekday today = target) /\
      normalize_date today (str "next " ++ w) =
        bind (add_days today k) (fun result => Ok (isoformat result)) /\
      (forall d, add_days today k = Ok d ->
                 valid_date d = true /\
                 toordinal d = toordinal today + Z.of_nat k /\
                 weekday d = target) /\
      (year today < MAXYEAR -> exists d, add_days today k = Ok d)) /\
  (forall w,
      w <> [] -> forallb is_word w = true ->
      dict_get _DAY_NAMES (to_lower w) = None ->
      normalize_date today (str "next " ++ w) = Ok []) /\
  normalize_date (mkDate 2026 2 6) (str "next Monday") = Ok (str "2026-02-09").
Proof.
  intros V. split; [|split].
  - intros w target Hd k.
    destruct (day_names_entry _ _ Hd) as (Ht & Hne & Hl).
    destruct (days_ahead_spec (weekday today) target (weekday_range today) Ht)
      as (Hk & H7 & Hmod).
    fold (days_until (weekday today) target) in Hk, H7, Hmod. fold k in Hk, H7, Hmod.
    split; [exact Hk|]. split; [exact H7|]. split; [|split].
    + rewrite normalize_date_next.
      * rewrite Hd. reflexivity.
      * intros ->. apply Hne. reflexivity.
      * apply lower_name_word; exact Hl.
    + intros d Hadd. destruct (add_days_spec k _ _ V Hadd) as [Vd Od].
      split; [exact Vd|]. split; [exact Od|].
      rewrite (add_days_weekday k _ _ V Hadd). exact Hmod.
    + intros Hy. apply add_days_total; [exact V|lia|left; exact Hy].
  - intros w Hne Hw Hd. rewrite normalize_date_next by assumption.
    rewrite Hd. reflexivity.
  - vm_compute. reflexivity.
Qed.

Lemma next_weekday_witness :
  normalize_date (mkDate 2026 2 6) (str "next Monday") =
  bind (add_days (mkDate 2026 2 6) (days_until (weekday (mkDate 2026 2 6)) 0))
       (fun result => Ok (isoformat result)).
Proof.
  assert (V : valid_date (mkDate 2026 2 6) = true) by (vm_compute; reflexivity).
  destruct (next_weekday (mkDate 2026 2 6) V) as [H _].
  apply (H (str "Monday") 0). vm_compute. reflexivity.
Defined.

(** ** Slash dates *)

Lemma digit_neq (c x : ascii) :
  is_digit c = true -> is_digit x = false -> Ascii.eqb c x = false.
Proof.
  intros Hc Hx. destruct (Ascii.eqb_spec c x) as [->|]; [congruence|reflexivity].
Qed.

Lemma lower_digit (c : ascii) : is_digit c = true -> lower c = c.
Proof.
  revert c.
  assert (H : forall c, implb (is_digit c) (Ascii.eqb (lower c) c) = true)
    by (apply for_all_chars; vm_compute; reflexivity).
  intros c Hc. specialize (H c). rewrite Hc in H. apply Ascii.eqb_eq; exact H.
Qed.

Lemma to_lower_digits (s : text) : forallb is_digit s = true -> to_lower s = s.
Proof.
  induction s as [|c s IH]; [reflexivity|]. cbn [forallb to_lower map].
  intros H. apply andb_prop in H as [Hc Hs].
  rewrite (lower_digit c Hc). f_equal. apply IH; exact Hs.
Qed.

Lemma to_lower_app (a b : text) : to_lower (a ++ b) = to_lower a ++ to_lower b.
Proof. apply map_app. Qed.

Lemma digits_head (s : text) :
  forallb is_digit s = true -> (1 <= length s)%nat ->
  exists c t, s = c :: t /\ is_digit c = true.
Proof.
  destruct s as [|c t]; cbn [length forallb]; [lia|].
  intros H _. apply andb_prop in H as [Hc _]. eauto.
Qed.

Lemma digits_last (s : text) (prev : option ascii) :
  forallb is_digit s = true -> (1 <= length s)%nat ->
  is_space_opt (last_of prev s) = false.
Proof.
  intros H L. destruct (last_of_forallb is_digit s prev H L) as (e & -> & He).
  cbn. apply digit_not_space; exact He.
Qed.

(** The shape of the slash branch's match, without and with a year. *)
Lemma re_slash_month_day (ms ds : text) :
  digits_1_2 ms -> digits_1_2 ds ->
  exists m, re_fullmatch re_slash (ms ++ str "/" ++ ds) = Some m /\
            m_caps m = [(2%nat, ds); (1%nat, ms)].
Proof.
  intros [Hm Lm] [Hd Ld]. eexists. split.
  - rewrite re_fullmatch_eq.
    cbn [run re_slash seq_of times str list_ascii_of_string app].
    apply (rep_greedy is_digit ms 1 (Some 2%nat) None ("/"%char :: ds));
      [exact Hm|lia|cbn; lia|apply stops_before; reflexivity|].
    rewrite consumed_app. unfold chr. cbn [Ascii.eqb Bool.eqb andb].
    apply rep_greedy_end; [exact Hd|lia|cbn; lia|].
    rewrite consumed_nil. unfold accept_end. reflexivity.
  - reflexivity.
Qed.

Lemma re_slash_month_day_year (ms ds ys : text) :
  digits_1_2 ms -> digits_1_2 ds -> digits_2_4 ys ->
  exists m, re_fullmatch re_slash (ms ++ str "/" ++ ds ++ str "/" ++ ys) = Some m /\
            m_caps m = [(3%nat, ys); (2%nat, ds); (1%nat, ms)].
Proof.
  intros [Hm Lm] [Hd Ld] [Hy Ly]. eexists. split.
  - rewrite re_fullmatch_eq.
    cbn [run re_slash seq_of times str list_ascii_of_string app].
    apply (rep_greedy is_digit ms 1 (Some 2%nat) None ("/"%char :: ds ++ "/"%char :: ys));
      [exact Hm|lia|cbn; lia|apply stops_before; reflexivity|].
    rewrite consumed_app. unfold chr. cbn [Ascii.eqb Bool.eqb andb].
    apply (rep_greedy is_digit ds 1 (Some 2%nat) (Some "/"%char) ("/"%char :: ys));
      [exact Hd|lia|cbn; lia|apply stops_before; reflexivity|].
    rewrite consumed_app. cbn [Ascii.eqb Bool.eqb andb].
    erewrite (rep_greedy_end is_digit ys 2 (Some 4%nat));
      [reflexivity|exact Hy|lia|cbn; lia|].
    rewrite consumed_nil. unfold accept_end. reflexivity.
  - reflexivity.
Qed.

Lemma normalize_date_slash (today : date) (raw : text) (m : rmatch) :
  strip raw = raw ->
  (exists c t, raw = c :: t /\ is_digit c = true) ->
  In "/"%char raw -> to_lower raw = raw ->
  re_fullmatch re_slash raw = Some m ->
  normalize_date today raw =
  Ok (iso_or_empty
        match mgroup 3 m with
        | Some year_str =>
            if is_empty year_str then year today
            else if int_of year_str <? 100 then int_of year_str + 2000
                 else int_of year_str
        | None => year today
        end
        (int_of (group_str 1 m)) (int_of (group_str 2 m))).
Proof.
  intros Hstrip (c & t & -> & Hc) Hin Hlow Hm.
  unfold normalize_date. rewrite Hstrip. cbn [is_empty].
  rewrite (fromisoformat_none (c :: t) "/"%char Hin eq_refl). rewrite Hlow.
  assert (Hq : re_fullmatch re_quarter (c :: t) = None).
  { rewrite re_fullmatch_eq. cbn [run re_quarter seq_of]. unfold chr.
    rewrite (digit_neq c "q" Hc eq_refl). reflexivity. }
  assert (Hr : re_fullmatch re_relative (c :: t) = None).
  { rewrite re_fullmatch_eq.
    cbn [run re_relative seq_of lit map str list_ascii_of_string]. unfold chr.
    rewrite (digit_neq c "n" Hc eq_refl). reflexivity. }
  rewrite Hq, Hr. cbn [is_some].
  assert (Ht : forall s, text_eqb (c :: t) ("t"%char :: s) = false).
  { intros s. cbn [text_eqb]. rewrite (digit_neq c "t" Hc eq_refl). reflexivity. }
  change (str "today") with ("t"%char :: str "oday").
  change (str "tomorrow") with ("t"%char :: str "omorrow").
  rewrite !Ht, Hm. reflexivity.
Qed.

Lemma to_lower_slash (s : text) :
  forallb (fun c => is_digit c || Ascii.eqb c "/") s = true -> to_lower s = s.
Proof.
  induction s as [|x s IH]; [reflexivity|]. cbn [forallb to_lower map].
  intros H. apply andb_prop in H as [Hx Hs].
  assert (E : lower x = x).
  { apply orb_prop in Hx as [Hx|Hx]; [apply lower_digit; exact Hx|].
    apply Ascii.eqb_eq in Hx; subst; reflexivity. }
  rewrite E. f_equal. apply IH; exact Hs.
Qed.

Lemma slash_text_facts (ms rest : text) :
  digits_1_2 ms ->
  forallb (fun c => is_digit c || Ascii.eqb c "/") rest = true ->
  is_space_opt (last_of (Some "/"%char) rest) = false ->
  let raw := ms ++ str "/" ++ rest in
  strip raw = raw /\ (exists c t, raw = c :: t /\ is_digit c = true) /\
  In "/"%char raw /\ to_lower raw = raw.
Proof.
  intros [Hm Lm] Hrest Hlast raw.
  destruct (digits_head ms Hm (proj1 Lm)) as (c & t & -> & Hc).
  subst raw. split; [|split; [|split]].
  - apply strip_id.
    + cbn. apply digit_not_space; exact Hc.
    + rewrite !last_of_app. exact Hlast.
  - cbn [app]. eauto.
  - apply in_or_app. right. left. reflexivity.
  - rewrite !to_lower_app, (to_lower_digits _ Hm), (to_lower_slash _ Hrest).
    reflexivity.
Qed.

Lemma digits_or_slash (s : text) :
  forallb is_digit s = true -> forallb (fun c => is_digit c || Ascii.eqb c "/") s = true.
Proof.
  intros H. eapply forallb_impl; [|exact H]. intros c ->. reflexivity.
Qed.

Lemma two_digits_below_100 (ys : text) :
  forallb is_digit ys = true -> length ys = 2%nat -> 0 <= int_of ys < 100.
Proof.
  destruct ys as [|a [|b [|? ?]]]; cbn [length]; try discriminate.
  cbn [forallb]. intros H _. apply andb_prop in H as [Ha H].
  apply andb_prop in H as [Hb _].
  destruct (digit_char_digit_val a Ha) as [_ Ra], (digit_char_digit_val b Hb) as [_ Rb].
  unfold int_of. cbn [fold_left]. lia.
Qed.

(** C8: a slash date [M/D] takes the current year; in [M/D/Y] a year of two
    to four digits is taken as written, with 2000 added when it is below 100
    (always so for two digits); values that are not a calendar date give
    [""].  So ["2/20"] gives ["2026-02-20"] in 2026, ["2/20/26"] gives
    ["2026-02-20"] and ["13/40"] gives [""]. *)
Theorem slash_dates (today : date) :
  (forall ms ds,
      digits_1_2 ms -> digits_1_2 ds ->
      normalize_date today (ms ++ str "/" ++ ds) =
      Ok (iso_or_empty (year today) (int_of ms) (int_of ds))) /\
  (forall ms ds ys,
      digits_1_2 ms -> digits_1_2 ds -> digits_2_4 ys ->
      normalize_date today (ms ++ str "/" ++ ds ++ str "/" ++ ys) =
      Ok (iso_or_empty (if (int_of ys <? 100) then int_of ys + 2000 else int_of ys)
                       (int_of ms) (int_of ds)) /\
      (length ys = 2%nat -> (int_of ys <? 100) = true)) /\
  (forall y m d, valid_ymd y m d = false -> iso_or_empty y m d = []) /\
  (year today = 2026 -> normalize_date today (str "2/20") = Ok (str "2026-02-20")) /\
  normalize_date today (str "2/20/26") = Ok (str "2026-02-20") /\
  normalize_date today (str "13/40") = Ok [].
Proof.
  assert (slash_month_day_general :
    (forall ms ds,
      digits_1_2 ms -> digits_1_2 ds ->
      normalize_date today (ms ++ str "/" ++ ds) =
      Ok (iso_or_empty (year today) (int_of ms) (int_of ds))) /\ True).
  { split; [|exact I]. intros ms ds Hms Hds.
    destruct (re_slash_month_day ms ds Hms Hds) as (m & Hm & Hcaps).
    destruct (slash_text_facts ms ds Hms (digits_or_slash ds (proj1 Hds))
                (digits_last ds _ (proj1 Hds) (proj1 (proj2 Hds))))
      as (F1 & F2 & F3 & F4).
    rewrite (normalize_date_slash today _ m F1 F2 F3 F4 Hm).
    unfold group_str, mgroup. rewrite Hcaps. reflexivity. }
  split; [|split; [|split; [|split; [|split]]]].
  - exact (proj1 slash_month_day_general).
  - intros ms ds ys Hms Hds Hys.
    destruct (re_slash_month_day_year ms ds ys Hms Hds Hys) as (m & Hm & Hcaps).
    assert (Hrest : forallb (fun c => is_digit c || Ascii.eqb c "/")
                      (ds ++ str "/" ++ ys) = true).
    { rewrite !forallb_app, (digits_or_slash ds (proj1 Hds)),
        (digits_or_slash ys (proj1 Hys)). reflexivity. }
    assert (Hlast : is_space_opt (last_of (Some "/"%char) (ds ++ str "/" ++ ys)) = false).
    { rewrite !last_of_app. apply digits_last; [apply Hys|]. destruct Hys; lia. }
    destruct (slash_text_facts ms _ Hms Hrest Hlast) as (F1 & F2 & F3 & F4).
    split.
    + rewrite (normalize_date_slash today _ m F1 F2 F3 F4 Hm).
      unfold group_str, mgroup. rewrite Hcaps. cbn [group Nat.eqb].
      destruct ys as [|y0 ys']; [destruct Hys as [_ L]; cbn in L; lia|].
      reflexivity.
    + intros L. apply Z.ltb_lt. apply two_digits_below_100; [apply Hys|exact L].
  - intros y m d H. unfold iso_or_empty, make_date. rewrite H. reflexivity.
  - destruct today as [y m d]. cbn [year]. intros ->. vm_compute. reflexivity.
  - vm_compute. reflexivity.
  - change (str "13/40") with (str "13" ++ str "/" ++ str "40").
    rewrite (proj1 slash_month_day_general (str "13") (str "40"));
      [|split; [reflexivity|cbn; lia]..].
    unfold iso_or_empty, make_date.
    destruct (valid_ymd (year today) (int_of (str "13")) (int_of (str "40"))) eqn:E;
      [|reflexivity].
    apply valid_ymd_iff in E. cbn in E. lia.
Qed.

Lemma slash_dates_witness :
  normalize_date (mkDate 2026 2 6) (str "2" ++ str "/" ++ str "20") =
  Ok (iso_or_empty (year (mkDate 2026 2 6)) (int_of (str "2")) (int_of (str "20"))).
Proof.
  destruct (slash_dates (mkDate 2026 2 6)) as [H _].
  apply (H (str "2") (str "20")); (split; [reflexivity|cbn; lia]).
Defined.

(** ** The residual clean-up *)

Lemma lstrip_by_suffix (p : ascii -> bool) (s : text) :
  exists u, s = u ++ lstrip_by p s /\ forallb p u = true /\
            match lstrip_by p s with c :: _ => p c = false | [] => True end.
Proof.
  induction s as [|c s (u & E & Hu & Hh)]; cbn [lstrip_by].
  - exists []. auto.
  - destruct (p c) eqn:Hc.
    + exists (c :: u). cbn [app forallb]. rewrite Hc, Hu. split; [congruence|auto].
    + exists []. cbn. auto.
Qed.

Lemma lstrip_by_head_fails (p : ascii -> bool) (s : text) (c : ascii) (t : text) :
  lstrip_by p s = c :: t -> p c = false.
Proof.
  intros E. destruct (lstrip_by_suffix p s) as (u & _ & _ & H).
  rewrite E in H. exact H.
Qed.

Lemma rstrip_by_prefix (p : ascii -> bool) (s : text) :
  exists u, s = rstrip_by p s ++ u /\ forallb p u = true /\
            forall b e, rstrip_by p s = b ++ [e] -> p e = false.
Proof.
  unfold rstrip_by. destruct (lstrip_by_suffix p (rev s)) as (u & E & Hu & Hh).
  exists (rev u). split; [|split].
  - rewrite <- rev_app_distr, <- E. symmetry; apply rev_involutive.
  - rewrite forallb_forall in *. intros x Hx. apply Hu. apply in_rev. exact Hx.
  - intros b e Eb. apply (f_equal (@rev ascii)) in Eb.
    rewrite rev_involutive, rev_app_distr in Eb. cbn [rev app] in Eb.
    rewrite Eb in Hh. exact Hh.
Qed.

Lemma last_of_last (prev : option ascii) (b : text) (e : ascii) :
  last_of prev (b ++ [e]) = Some e.
Proof. rewrite last_of_app. reflexivity. Qed.

Lemma rstrip_by_last_fails (p : ascii -> bool) (s : text) (e : ascii) :
  last_of None (rstrip_by p s) = Some e -> p e = false.
Proof.
  intros H. apply last_of_some in H as (b & E).
  destruct (rstrip_by_prefix p s) as (u & _ & _ & Hl). eapply Hl; exact E.
Qed.

Lemma rstrip_by_keeps_head (p : ascii -> bool) (c : ascii) (t : text) :
  p c = false -> exists t', rstrip_by p (c :: t) = c :: t'.
Proof.
  intros Hc. destruct (rstrip_by_prefix p (c :: t)) as (u & E & Hu & _).
  destruct (rstrip_by p (c :: t)) as [|c' t'] eqn:R.
  - cbn [app] in E. subst u. cbn [forallb] in Hu. rewrite Hc in Hu. discriminate.
  - cbn [app] in E. injection E as <- _. eauto.
Qed.

Lemma strip_trimmed (s : text) : trimmed (strip s).
Proof.
  unfold trimmed, strip. split.
  - destruct (lstrip_by is_space s) as [|c t] eqn:L; [reflexivity|].
    pose proof (lstrip_by_head_fails _ _ _ _ L) as Hc.
    destruct (rstrip_by_keeps_head is_space c t Hc) as (t' & ->). exact Hc.
  - destruct (last_of None (rstrip_by is_space (lstrip_by is_space s))) as [e|] eqn:E;
      [|reflexivity].
    cbn. eapply rstrip_by_last_fails; exact E.
Qed.

Lemma trimmed_strip (s : text) : trimmed s -> strip s = s.
Proof. intros [H1 H2]. apply strip_id; assumption. Qed.

Lemma no_double_space_app (a b : text) :
  no_double_space (a ++ b) = true ->
  no_double_space a = true /\ no_double_space b = true.
Proof.
  induction a as [|x a IH]; cbn [app]; [auto|].
  destruct a as [|y a].
  - cbn [app no_double_space]. intros H. split; [reflexivity|].
    destruct b; [reflexivity|]. apply andb_prop in H as [_ H]. exact H.
  - cbn [app no_double_space] in *. intros H. apply andb_prop in H as [H1 H2].
    destruct (IH H2) as [Ha Hb]. rewrite H1, Ha. auto.
Qed.

Lemma lstrip_no_double_space (p : ascii -> bool) (s : text) :
  no_double_space s = true -> no_double_space (lstrip_by p s) = true.
Proof.
  intros H. destruct (lstrip_by_suffix p s) as (u & E & _). rewrite E in H.
  apply no_double_space_app in H. apply H.
Qed.

Lemma rstrip_no_double_space (p : ascii -> bool) (s : text) :
  no_double_space s = true -> no_double_space (rstrip_by p s) = true.
Proof.
  intros H. destruct (rstrip_by_prefix p s) as (u & E & _). rewrite E in H.
  apply no_double_space_app in H. apply H.
Qed.

Lemma strip_no_double_space (s : text) :
  no_double_space s = true -> no_double_space (strip s) = true.
Proof.
  intros H. apply rstrip_no_double_space, lstrip_no_double_space; exact H.
Qed.

Lemma span_space (t : text) :
  exists u s',
    t = u ++ s' /\ forallb is_space u = true /\
    (s' = [] \/ exists c t', s' = c :: t' /\ is_space c = false).
Proof.
  destruct (lstrip_by_suffix is_space t) as (u & E & Hu & Hh).
  exists u, (lstrip_by is_space t). split; [exact E|]. split; [exact Hu|].
  destruct (lstrip_by is_space t) as [|c t']; [left; reflexivity|right; eauto].
Qed.

Lemma spaces_match_inv {A : Type} (prev : option ascii) (s : text)
    (k : option ascii -> text -> captures -> option A) (x : A) :
  run re_spaces prev s [] k = Some x ->
  exists a b t, s = a :: b :: t /\ is_space a = true /\ is_space b = true.
Proof.
  intros H. apply run_sound in H as (w & s' & caps' & -> & M & _).
  cbn [Matches re_spaces] in M. destruct M as [(Hw & Hl & _) _].
  destruct w as [|a [|b w]]; cbn [length] in Hl; try lia.
  cbn [forallb] in Hw. apply andb_prop in Hw as [Ha Hw].
  apply andb_prop in Hw as [Hb _]. cbn [app]. exists a, b, (w ++ s'). auto.
Qed.

Lemma spaces_match (prev : option ascii) (u s' : text) :
  forallb is_space u = true -> (2 <= length u)%nat ->
  (s' = [] \/ exists c t', s' = c :: t' /\ is_space c = false) ->
  run re_spaces prev (u ++ s') [] (accept (u ++ s')) =
  Some (mkMatch u s' (last_of prev u) []).
Proof.
  intros Hu Hl Hs. cbn [run re_spaces].
  apply rep_greedy; auto.
  - exact I.
  - destruct Hs as [->|Hs]; [left; reflexivity|right; left; exact Hs].
  - unfold accept. rewrite consumed_app. reflexivity.
Qed.

Lemma collapse_from_stop (st : ascii * bool) (s' : text) :
  (s' = [] \/ exists c t', s' = c :: t' /\ is_space c = false) ->
  collapse_from (Some st) s' = flush (Some st) ++ collapse_from None s'.
Proof.
  intros [->|(c & t' & -> & Hc)].
  - cbn [collapse_from flush]. rewrite app_nil_r. reflexivity.
  - cbn [collapse_from]. rewrite Hc. reflexivity.
Qed.

Lemma collapse_from_run (u : text) :
  forall f b s',
    forallb is_space u = true -> (1 <= length u)%nat ->
    (s' = [] \/ exists c t', s' = c :: t' /\ is_space c = false) ->
    collapse_from (Some (f, b)) (u ++ s') = " "%char :: collapse_from None s'.
Proof.
  induction u as [|c u IH]; intros f b s' Hu Hl Hs; [cbn in Hl; lia|].
  cbn [forallb] in Hu. apply andb_prop in Hu as [Hc Hu].
  cbn [app collapse_from]. rewrite Hc.
  destruct u as [|c' u].
  - cbn [app]. rewrite collapse_from_stop by exact Hs. reflexivity.
  - apply IH; [exact Hu|cbn; lia|exact Hs].
Qed.

(** [re.sub(r"\s{2,}", " ", s)] replaces every run of two or more
    white-space characters by one space. *)
Lemma sub_spaces_collapse (fuel : nat) :
  forall prev s,
    (length s < fuel)%nat ->
    sub_from fuel re_spaces (str " ") prev s = collapse_from None s.
Proof.
  induction fuel as [|fuel IH]; intros prev s Hf; [lia|].
  cbn [sub_from].
  destruct s as [|c t].
  { destruct (run re_spaces prev [] [] (accept [])) as [m|] eqn:R; [|reflexivity].
    apply spaces_match_inv in R as (a & b & t & E & _). discriminate. }
  cbn [length] in Hf.
  destruct (is_space c) eqn:Hc.
  - destruct (span_space t) as (u & s' & -> & Hu & Hs).
    destruct u as [|c' u].
    + (* a single white-space character *)
      cbn [app] in *.
      destruct (run re_spaces prev (c :: s') [] (accept (c :: s'))) as [m|] eqn:R.
      { apply spaces_match_inv in R as (a & b & t & E & Ha & Hb).
        injection E as <- ->. destruct Hs as [Hs|(c0 & t' & E' & Hc0)];
          [discriminate|]. injection E' as <- <-. congruence. }
      rewrite IH by lia. cbn [collapse_from]. rewrite Hc.
      rewrite collapse_from_stop by exact Hs. reflexivity.
    + (* a run of two or more *)
      change (c :: (c' :: u) ++ s') with ((c :: c' :: u) ++ s').
      rewrite spaces_match; [|cbn [forallb]; rewrite Hc; exact Hu|cbn; lia|exact Hs].
      cbn [m_rest m_prev].
      rewrite length_app in *.
      replace (length s' <? length (c :: c' :: u) + length s')%nat with true
        by (symmetry; apply Nat.ltb_lt; cbn; lia).
      rewrite IH by (cbn in *; lia).
      cbn [app collapse_from]. rewrite Hc.
      cbn [forallb] in Hu. apply andb_prop in Hu as [Hc' Hu]. rewrite Hc'.
      destruct u as [|c'' u].
      * cbn [app]. rewrite collapse_from_stop by exact Hs. reflexivity.
      * cbn [forallb] in Hu.
        rewrite (collapse_from_run (c'' :: u)); [reflexivity|exact Hu|cbn; lia|exact Hs].
  - destruct (run re_spaces prev (c :: t) [] (accept (c :: t))) as [m|] eqn:R.
    { apply spaces_match_inv in R as (a & b & t' & E & Ha & _).
      injection E as <- _. congruence. }
    rewrite IH by lia. cbn [collapse_from flush app]. rewrite Hc. reflexivity.
Qed.

Lemma re_sub_spaces (s : text) :
  re_sub re_spaces (str " ") s = collapse_spaces s.
Proof. rewrite re_sub_eq. apply sub_spaces_collapse. lia. Qed.

Lemma flush_length (run : option (ascii * bool)) : (length (flush run) <= 1)%nat.
Proof. destruct run as [[f []]|]; cbn; lia. Qed.

Lemma no_double_space_short (pre rest : text) :
  (length pre <= 1)%nat -> stops rest -> no_double_space rest = true ->
  no_double_space (pre ++ rest) = true.
Proof.
  intros Hl Hs Hn. destruct pre as [|h [|? ?]]; cbn [length] in Hl; try lia;
    [exact Hn|].
  cbn [app]. destruct Hs as [->|(c & t' & -> & Hc)]; [reflexivity|].
  change (no_double_space (h :: c :: t'))
    with (negb (is_space h && is_space c) && no_double_space (c :: t')).
  rewrite Hc, andb_false_r. exact Hn.
Qed.

Lemma collapse_from_shape (s : text) :
  forall run, exists pre rest,
    collapse_from run s = pre ++ rest /\ (length pre <= 1)%nat /\ stops rest /\
    no_double_space rest = true.
Proof.
  induction s as [|c t IH]; intros run; cbn [collapse_from].
  - exists (flush run), []. rewrite app_nil_r.
    split; [reflexivity|]. split; [apply flush_length|]. split; [left|]; reflexivity.
  - destruct (is_space c) eqn:Hc; [apply IH|].
    exists (flush run), (c :: collapse_from None t).
    split; [reflexivity|]. split; [apply flush_length|].
    split; [right; eauto|].
    destruct (IH None) as (pre & rest & E & Hl & Hs & Hn). rewrite E.
    pose proof (no_double_space_short pre rest Hl Hs Hn) as Hd.
    destruct (pre ++ rest) as [|x r]; [reflexivity|].
    change (no_double_space (c :: x :: r))
      with (negb (is_space c && is_space x) && no_double_space (x :: r)).
    rewrite Hc. exact Hd.
Qed.

Lemma collapse_spaces_no_double_space (s : text) :
  no_double_space (collapse_spaces s) = true.
Proof.
  unfold collapse_spaces.
  destruct (collapse_from_shape s None) as (pre & rest & -> & Hl & Hs & Hn).
  apply no_double_space_short; assumption.
Qed.

Lemma collapse_spaces_id (s : text) :
  no_double_space s = true -> collapse_spaces s = s.
Proof.
  unfold collapse_spaces. induction s as [|c t IH]; [reflexivity|].
  intros H. cbn [collapse_from].
  assert (Ht : no_double_space t = true).
  { destruct t as [|c' t']; [reflexivity|].
    change (no_double_space (c :: c' :: t'))
      with (negb (is_space c && is_space c') && no_double_space (c' :: t')) in H.
    apply andb_prop in H as [_ H]; exact H. }
  destruct (is_space c) eqn:Hc.
  - rewrite collapse_from_stop.
    + cbn [flush app]. rewrite IH by exact Ht. reflexivity.
    + destruct t as [|c' t']; [left; reflexivity|]. right. exists c', t'.
      split; [reflexivity|].
      change (no_double_space (c :: c' :: t'))
        with (negb (is_space c && is_space c') && no_double_space (c' :: t')) in H.
      rewrite Hc in H. destruct (is_space c'); [discriminate|reflexivity].
  - cbn [flush app]. rewrite IH by exact Ht. reflexivity.
Qed.

Lemma rstrip_by_id (p : ascii -> bool) (s : text) :
  (forall e, last_of None s = Some e -> p e = false) -> rstrip_by p s = s.
Proof.
  intros H. destruct s as [|c s]; [reflexivity|].
  destruct (exists_last (l := c :: s)) as (b & e & E); [discriminate|].
  rewrite E. apply rstrip_by_last. apply H. rewrite E. apply last_of_last.
Qed.

Lemma chr_eq (a c : ascii) : chr a c = true -> c = a.
Proof. unfold chr. apply Ascii.eqb_eq. Qed.

Lemma at_eol_space (s' : text) : at_eol s' = true -> forallb is_space s' = true.
Proof.
  destruct s' as [|c [|? ?]]; cbn [at_eol]; try discriminate; [reflexivity|].
  intros H. apply Ascii.eqb_eq in H. subst. reflexivity.
Qed.

(** [\s*;\s*$] matches only in a string that ends with [;] or with white
    space. *)
Lemma trailing_semi_none (s : text) :
  (forall e, last_of None s = Some e -> is_space e = false /\ e <> ";"%char) ->
  re_search re_trailing_semi s = None.
Proof.
  intros H. destruct (re_search re_trailing_semi s) as [m|] eqn:E; [|reflexivity].
  exfalso. apply re_search_sound in E as (pre & w & s' & caps' & -> & M & _).
  cbn [Matches re_trailing_semi seq_of star] in M.
  destruct M as (ws1 & w2 & cm & -> & ((H1 & _ & _) & ->) &
                 (w3 & w4 & cm2 & -> & ((c & -> & Hc) & ->) &
                  (ws2 & w6 & cm3 & -> & ((H2 & _ & _) & ->) & (-> & Heol & ->)))).
  apply chr_eq in Hc. subst c. apply at_eol_space in Heol.
  assert (Htail : forallb is_space (ws2 ++ s') = true)
    by (rewrite forallb_app; apply andb_true_intro; auto).
  destruct (exists_last (l := (";"%char :: ws2 ++ s'))) as (b & e & Eb); [discriminate|].
  assert (He : last_of None (pre ++ (ws1 ++ [";"%char] ++ ws2 ++ []) ++ s') = Some e).
  { rewrite app_nil_r. replace (pre ++ (ws1 ++ [";"%char] ++ ws2) ++ s')
      with ((pre ++ ws1) ++ (";"%char :: ws2 ++ s'))
      by (rewrite <- !app_assoc; reflexivity).
    rewrite Eb, app_assoc. apply last_of_last. }
  destruct (H e He) as [Hsp Hne].
  destruct (ws2 ++ s') as [|c0 r] eqn:Et.
  - destruct b; cbn in Eb; [injection Eb as <-; congruence|].
    injection Eb as _ Eb. destruct b; discriminate.
  - assert (In e (c0 :: r)).
    { destruct b as [|b0 b']; cbn [app] in Eb; [discriminate|].
      injection Eb as _ Eb. rewrite Eb. apply in_or_app. right. left. reflexivity. }
    rewrite forallb_forall in Htail. rewrite (Htail e) in Hsp by assumption.
    discriminate.
Qed.

Lemma tidy_eq (t : text) :
  tidy t = strip (rstrip_dot (strip (collapse_spaces (re_sub re_trailing_semi [] t)))).
Proof. unfold tidy. rewrite re_sub_spaces. reflexivity. Qed.

Lemma tidy_trimmed (t : text) : trimmed (tidy t).
Proof. rewrite tidy_eq. apply strip_trimmed. Qed.

Lemma tidy_no_double_space (t : text) : no_double_space (tidy t) = true.
Proof.
  rewrite tidy_eq. apply strip_no_double_space, rstrip_no_double_space,
    strip_no_double_space, collapse_spaces_no_double_space.
Qed.

Lemma clean_is_tidy (x : text) :
  exists z, _clean_task_text x = tidy z.
Proof. unfold _clean_task_text. eexists. reflexivity. Qed.

Lemma clean_metadata_free (x : text) :
  metadata_free x -> _clean_task_text x = tidy x.
Proof.
  unfold metadata_free, metadata_patterns. intros H.
  repeat match goal with
         | H : Forall _ (_ :: _) |- _ => apply Forall_cons_iff in H as [? H]
         end.
  unfold _clean_task_text.
  rewrite (re_sub_none re_strip_owner_label [] x) by assumption.
  rewrite (re_sub_none re_strip_owner_paren [] x) by assumption.
  rewrite (re_sub_none re_strip_due [] x) by assumption.
  rewrite (re_sub_none re_strip_by [] x) by assumption.
  rewrite (re_sub_none re_strip_priority [] x) by assumption.
  rewrite (re_sub_none re_strip_ptag [] x) by assumption.
  rewrite (re_sub_none re_strip_no_owner [] x) by assumption.
  reflexivity.
Qed.

(** A trimmed text without doubled white space that ends in neither [;]
    nor [.] is left as it is by the residual clean-up. *)
Lemma tidy_fixed (y : text) :
  trimmed y -> no_double_space y = true ->
  ~ ends_with ";" y -> ~ ends_with "." y -> tidy y = y.
Proof.
  intros Ht Hn Hsemi Hdot. rewrite tidy_eq.
  rewrite re_sub_none.
  - rewrite (collapse_spaces_id y Hn), (trimmed_strip y Ht).
    unfold rstrip_dot. rewrite rstrip_by_id; [apply trimmed_strip; exact Ht|].
    intros e He. destruct (is_code 46 e) eqn:C; [|reflexivity].
    exfalso. apply Hdot. apply last_of_some in He as (b & ->). exists b.
    assert (e = "."%char) as ->; [|reflexivity].
    unfold is_code, code in C. apply N.eqb_eq in C.
    rewrite <- (ascii_N_embedding e), C. reflexivity.
  - apply trailing_semi_none. intros e He. split.
    + destruct Ht as [_ Ht]. rewrite He in Ht. exact Ht.
    + intros ->. apply Hsemi. apply last_of_some in He as (b & ->). exists b; reflexivity.
Qed.

(** ** Metadata-free text *)

Lemma Matches_context (r : regex) :
  context_free r = true ->
  forall prev w s' caps caps' prev2 s2,
    Matches r prev w s' caps caps' -> Matches r prev2 w s2 caps caps'.
Proof.
  induction r as [|p|p lo hi|r1 IH1 r2 IH2|r1 IH1 r2 IH2|r1 IH1|n r1 IH1| | |];
    cbn [context_free Matches]; intros C prev w s' caps caps' prev2 s2 M;
    try (apply andb_prop in C as [C1 C2]); try discriminate; auto.
  - destruct M as (w1 & w2 & cm & -> & M1 & M2).
    exists w1, w2, cm. split; [reflexivity|]. split; eauto.
  - destruct M as [M|M]; eauto.
  - destruct M as [M|M]; eauto.
  - destruct M as (cm & M & ->). eauto.
Qed.

Lemma occurs_inside (r : regex) (a y b : text) :
  context_free r = true -> occurs r y -> occurs r (a ++ y ++ b).
Proof.
  intros C (pre & w & post & caps' & -> & M).
  exists (a ++ pre), w, (post ++ b), caps'. split.
  - rewrite <- !app_assoc. reflexivity.
  - eapply Matches_context; eassumption.
Qed.

Lemma metadata_patterns_context_free :
  Forall (fun r => context_free r = true) metadata_patterns.
Proof. unfold metadata_patterns. repeat constructor. Qed.

(** A piece of a metadata-free text is metadata-free. *)
Lemma metadata_free_inside (a y b : text) :
  metadata_free (a ++ y ++ b) -> metadata_free y.
Proof.
  unfold metadata_free. intros H.
  pose proof metadata_patterns_context_free as C.
  rewrite Forall_forall in *. intros r Hr.
  apply re_search_none. intros O.
  apply (proj1 (re_search_none r (a ++ y ++ b)) (H r Hr)).
  apply occurs_inside; auto.
Qed.

Lemma metadata_free_prefix (y b : text) : metadata_free (y ++ b) -> metadata_free y.
Proof. apply (metadata_free_inside [] y b). Qed.

(** ** Trailing periods *)

Lemma word_char_plain (e : ascii) :
  is_word e = true -> is_space e = false /\ e <> ";"%char /\ is_code 46 e = false.
Proof.
  revert e.
  assert (H : forall e, implb (is_word e)
                (negb (is_space e) && negb (Ascii.eqb e ";") && negb (is_code 46 e)) = true)
    by (apply for_all_chars; vm_compute; reflexivity).
  intros e He. specialize (H e). rewrite He in H. cbn [implb] in H.
  apply andb_prop in H as [H H3]. apply andb_prop in H as [H1 H2].
  apply negb_true_iff in H1, H2, H3. repeat split; auto.
  intros ->. discriminate.
Qed.

Lemma dots_plain (n : nat) :
  forallb (is_code 46) (dots n) = true /\ forallb (fun c => negb (is_space c)) (dots n) = true.
Proof. induction n as [|n [IH1 IH2]]; cbn; auto. Qed.

Lemma collapse_from_nonspace (t : text) :
  forallb (fun c => negb (is_space c)) t = true -> collapse_from None t = t.
Proof.
  induction t as [|c t IH]; [reflexivity|]. cbn [forallb collapse_from].
  intros H. apply andb_prop in H as [Hc Ht]. apply negb_true_iff in Hc.
  rewrite Hc. cbn [flush app]. rewrite IH by exact Ht. reflexivity.
Qed.

Lemma collapse_from_until (e : ascii) (b : text) :
  is_space e = false ->
  forall run, exists X, forall t,
    collapse_from run (b ++ e :: t) = X ++ e :: collapse_from None t.
Proof.
  intros He. induction b as [|c b IH]; intros run.
  - exists (flush run). intros t. cbn [app collapse_from]. rewrite He. reflexivity.
  - cbn [app collapse_from]. destruct (is_space c).
    + apply IH.
    + destruct (IH None) as (X & HX). exists (flush run ++ c :: X). intros t.
      rewrite HX, <- app_assoc. reflexivity.
Qed.

Lemma lstrip_by_until (p : ascii -> bool) (e : ascii) (X : text) :
  p e = false ->
  exists Y, forall rest, lstrip_by p (X ++ e :: rest) = Y ++ e :: rest.
Proof.
  intros He. induction X as [|c X (Y & HY)].
  - exists []. intros rest. cbn [app lstrip_by]. rewrite He. reflexivity.
  - cbn [app lstrip_by]. destruct (p c).
    + exists Y. exact HY.
    + exists (c :: X). reflexivity.
Qed.

Lemma rstrip_by_all (p : ascii -> bool) (a u : text) :
  forallb p u = true -> rstrip_by p (a ++ u) = rstrip_by p a.
Proof.
  intros Hu. unfold rstrip_by. rewrite rev_app_distr.
  assert (Hr : forallb p (rev u) = true).
  { rewrite forallb_forall in *. intros x Hx. apply Hu, in_rev, Hx. }
  f_equal. induction (rev u) as [|c r IH]; [reflexivity|].
  cbn [forallb] in Hr. apply andb_prop in Hr as [Hc Hr'].
  cbn [app lstrip_by]. rewrite Hc. apply IH; exact Hr'.
Qed.

Lemma last_of_nonspace (e : ascii) (rest : text) (x : ascii) :
  is_space e = false -> forallb (fun c => negb (is_space c)) rest = true ->
  last_of (Some e) rest = Some x -> is_space x = false.
Proof.
  intros He Hr Hx. destruct rest as [|c rest].
  - cbn in Hx. injection Hx as <-. exact He.
  - destruct (last_of_forallb _ (c :: rest) (Some e) Hr) as (x' & Hx' & Hn);
      [cbn; lia|].
    rewrite Hx in Hx'. injection Hx' as <-. apply negb_true_iff in Hn. exact Hn.
Qed.

Lemma last_of_plain (e : ascii) (rest : text) (x : ascii) :
  is_word e = true -> forallb (is_code 46) rest = true ->
  last_of (Some e) rest = Some x -> is_space x = false /\ x <> ";"%char.
Proof.
  intros He Hr Hx. destruct (word_char_plain e He) as (Hsp & Hsemi & _).
  destruct rest as [|c rest].
  - cbn in Hx. injection Hx as <-. auto.
  - destruct (last_of_forallb _ (c :: rest) (Some e) Hr) as (x' & Hx' & Hn);
      [cbn; lia|].
    rewrite Hx in Hx'. injection Hx' as <-.
    unfold is_code, code in Hn. apply N.eqb_eq in Hn.
    assert (x = "."%char) as -> by (rewrite <- (ascii_N_embedding x), Hn; reflexivity).
    split; [reflexivity|discriminate].
Qed.

(** After a word character, trailing periods leave no trace in the result
    of the residual clean-up. *)
Lemma tidy_trailing_periods (b : text) (e : ascii) (n : nat) :
  is_word e = true ->
  exists Y, tidy ((b ++ [e]) ++ dots n) = Y ++ [e] /\ tidy (b ++ [e]) = Y ++ [e].
Proof.
  intros Hw. destruct (word_char_plain e Hw) as (Hsp & Hsemi & Hdot).
  destruct (collapse_from_until e b Hsp None) as (X & HX).
  destruct (lstrip_by_until is_space e X Hsp) as (Y & HY).
  assert (Hyhead : is_space_opt (first_char (Y ++ [e])) = false).
  { specialize (HY []). destruct (Y ++ [e]) as [|c Y'] eqn:E; [reflexivity|].
    cbn. eapply lstrip_by_head_fails. exact HY. }
  assert (Hfinal : strip (Y ++ [e]) = Y ++ [e]).
  { apply strip_id; [exact Hyhead|]. rewrite last_of_last. exact Hsp. }
  assert (Hgen : forall k, tidy ((b ++ [e]) ++ dots k) = Y ++ [e]).
  { intros k. destruct (dots_plain k) as [Hd1 Hd2].
    rewrite tidy_eq. rewrite re_sub_none.
    - unfold collapse_spaces. rewrite <- app_assoc. cbn [app]. rewrite HX.
      rewrite (collapse_from_nonspace (dots k) Hd2).
      assert (Hs : strip (X ++ e :: dots k) = Y ++ e :: dots k).
      { unfold strip. rewrite HY. apply rstrip_by_id.
        intros x Hx. change (Y ++ e :: dots k) with (Y ++ [e] ++ dots k) in Hx.
        rewrite !last_of_app in Hx. eapply last_of_nonspace; eassumption. }
      rewrite Hs. unfold rstrip_dot.
      change (Y ++ e :: dots k) with (Y ++ [e] ++ dots k).
      rewrite app_assoc, (rstrip_by_all _ _ _ Hd1), rstrip_by_last by exact Hdot.
      exact Hfinal.
    - apply trailing_semi_none. intros x Hx.
      rewrite <- app_assoc, !last_of_app in Hx.
      eapply last_of_plain; eassumption. }
  exists Y. split; [apply Hgen|].
  rewrite <- (app_nil_r (b ++ [e])). apply (Hgen 0%nat).
Qed.

Lemma not_ends_with (c e : ascii) (s : text) :
  last_of None s = Some e -> e <> c -> ~ ends_with c s.
Proof.
  intros Hl Hne (b & ->). rewrite last_of_last in Hl. congruence.
Qed.

(** C5, as the code has it: on metadata-free text the cleaner removes a
    trailing [;], turns every run of two or more white-space characters into
    one space, trims, removes all trailing periods and trims again.  Its
    result has no white space at either end and no two adjacent white-space
    characters; and after a word character any number of trailing periods
    disappears altogether: the result is that of the text without them and
    ends in the word character. *)
Theorem cleaner_residual_cleanup :
  (forall x,
      metadata_free x ->
      _clean_task_text x =
      strip (rstrip_dot (strip (collapse_spaces (re_sub re_trailing_semi [] x))))) /\
  (forall x,
      trimmed (_clean_task_text x) /\ no_double_space (_clean_task_text x) = true) /\
  (forall b e n,
      is_word e = true -> metadata_free ((b ++ [e]) ++ dots n) ->
      _clean_task_text ((b ++ [e]) ++ dots n) = _clean_task_text (b ++ [e]) /\
      last_of None (_clean_task_text ((b ++ [e]) ++ dots n)) = Some e).
Proof.
  split; [|split].
  - intros x Hx. rewrite (clean_metadata_free x Hx). apply tidy_eq.
  - intros x. destruct (clean_is_tidy x) as (z & ->).
    split; [apply tidy_trimmed|apply tidy_no_double_space].
  - intros b e n He Hfree.
    pose proof (metadata_free_prefix _ _ Hfree) as Hfree'.
    rewrite (clean_metadata_free _ Hfree), (clean_metadata_free _ Hfree').
    destruct (tidy_trailing_periods b e n He) as (Y & -> & ->).
    split; [reflexivity|apply last_of_last].
Qed.

Lemma cleaner_residual_cleanup_witness :
  _clean_task_text ((str "Fix bu" ++ ["g"%char]) ++ dots 2) =
    _clean_task_text (str "Fix bu" ++ ["g"%char]) /\
  last_of None (_clean_task_text ((str "Fix bu" ++ ["g"%char]) ++ dots 2)) = Some "g"%char.
Proof.
  destruct cleaner_residual_cleanup as (_ & _ & H).
  apply (H (str "Fix bu") "g"%char 2%nat).
  - reflexivity.
  - unfold metadata_free, metadata_patterns. repeat constructor; vm_compute; reflexivity.
Defined.

(** C5 as stated fails: of two trailing periods none is left. *)
Lemma cleaner_single_period_counterexample :
  metadata_free (str "Fix bug..") /\
  _clean_task_text (str "Fix bug..") = str "Fix bug" /\
  ~ ends_with "." (_clean_task_text (str "Fix bug..")).
Proof.
  split; [|split].
  - unfold metadata_free, metadata_patterns. repeat constructor; vm_compute; reflexivity.
  - vm_compute. reflexivity.
  - apply (not_ends_with "." "g"); [vm_compute; reflexivity|discriminate].
Qed.

(** ** The cleaner keeps metadata-free text metadata-free *)

Lemma strip_inside (s : text) : exists a b, s = a ++ strip s ++ b.
Proof.
  unfold strip. destruct (lstrip_by_suffix is_space s) as (a & Ea & _).
  destruct (rstrip_by_prefix is_space (lstrip_by is_space s)) as (b & Eb & _).
  exists a, b. rewrite <- Eb. exact Ea.
Qed.

Lemma rstrip_dot_prefix (s : text) : exists b, s = rstrip_dot s ++ b.
Proof.
  unfold rstrip_dot. destruct (rstrip_by_prefix (is_code 46) s) as (b & Eb & _).
  exists b. exact Eb.
Qed.

(** After [\s*] a successful [$] leaves nothing: the greedy run has taken
    the final newline as well. *)
Lemma rep_eol_rest {A : Type} (F : option ascii -> text -> A) (t : text) :
  forall prev x,
    rep is_space 0 None prev t
      (fun p2 s2 => if at_eol s2 then Some (F p2 s2) else None) = Some x ->
    exists p2, x = F p2 [].
Proof.
  induction t as [|c t IH]; intros prev x H.
  - cbn in H. injection H as <-. eauto.
  - cbn [rep] in H. cbn [more_allowed andb option_map pred] in H.
    rewrite andb_true_r in H.
    destruct (is_space c) eqn:Hc.
    + destruct (rep is_space 0 None (Some c) t
                  (fun p2 s2 => if at_eol s2 then Some (F p2 s2) else None))
        as [y|] eqn:R.
      * injection H as <-. eapply IH; exact R.
      * destruct t as [|c2 t']; [cbn in R; discriminate|].
        cbn [at_eol] in H. discriminate.
    + destruct t as [|c2 t']; [|cbn [at_eol] in H; discriminate].
      cbn [at_eol] in H. destruct (Ascii.eqb_spec c newline) as [->|]; [|discriminate].
      vm_compute in Hc. discriminate.
Qed.

Lemma trailing_semi_rest (prev : option ascii) (s s0 : text) (m : rmatch) :
  run re_trailing_semi prev s [] (accept s0) = Some m -> m_rest m = [].
Proof.
  cbn [run re_trailing_semi seq_of star]. intros H.
  apply rep_sound in H as (w & s1 & -> & _ & _ & _ & H).
  destruct s1 as [|c t]; [discriminate|].
  destruct (chr ";" c); [|discriminate].
  unfold accept in H.
  apply (rep_eol_rest (fun p s => mkMatch (consumed s0 s) s p [])) in H as (p2 & ->).
  reflexivity.
Qed.

Lemma sub_trailing_semi_nil (fuel : nat) (prev : option ascii) :
  sub_from fuel re_trailing_semi [] prev [] = [].
Proof.
  destruct fuel as [|fuel]; [reflexivity|]. cbn [sub_from].
  destruct (run re_trailing_semi prev [] [] (accept [])) as [m|]; [|reflexivity].
  destruct (length (m_rest m) <? length (@nil ascii))%nat eqn:L; [|reflexivity].
  apply Nat.ltb_lt in L. cbn in L. lia.
Qed.

Lemma sub_trailing_semi_prefix (fuel : nat) :
  forall prev s, exists u, s = sub_from fuel re_trailing_semi [] prev s ++ u.
Proof.
  induction fuel as [|fuel IH]; intros prev s; [exists []; cbn; rewrite app_nil_r; reflexivity|].
  cbn [sub_from].
  destruct (run re_trailing_semi prev s [] (accept s)) as [m|] eqn:R.
  - rewrite (trailing_semi_rest _ _ _ _ R).
    destruct (length (@nil ascii) <? length s)%nat.
    + rewrite sub_trailing_semi_nil. exists s. reflexivity.
    + destruct s as [|c t]; [exists []; reflexivity|].
      destruct (IH (Some c) t) as (u & Hu). exists u. cbn [app]. congruence.
  - destruct s as [|c t]; [exists []; reflexivity|].
    destruct (IH (Some c) t) as (u & Hu). exists u. cbn [app]. congruence.
Qed.

Lemma drop_semi_prefix (s : text) : exists u, s = re_sub re_trailing_semi [] s ++ u.
Proof. rewrite re_sub_eq. apply sub_trailing_semi_prefix. Qed.

Lemma Expand_app (a' a b' b : text) :
  Expand a' a -> Expand b' b -> Expand (a' ++ b') (a ++ b).
Proof.
  intros Ha Hb. induction Ha as [|c z' z Hc Ha IH|c' u z' z Hc Hu Hs Ha IH].
  - exact Hb.
  - cbn [app]. apply Expand_char; assumption.
  - rewrite <- app_assoc. cbn [app]. apply Expand_run; assumption.
Qed.

Lemma Expand_app_inv (a' : text) :
  forall b' z,
    Expand (a' ++ b') z -> exists a b, z = a ++ b /\ Expand a' a /\ Expand b' b.
Proof.
  induction a' as [|c a' IH]; intros b' z H.
  - exists [], z. split; [reflexivity|]. split; [constructor|exact H].
  - cbn [app] in H. inversion H as [|c0 z0' z0 Hc H0|c0 u z0' z0 Hc Hu Hs H0]; subst.
    + destruct (IH _ _ H0) as (a & b & -> & Ha & Hb).
      exists (c :: a), b. split; [reflexivity|]. split; [constructor; assumption|exact Hb].
    + destruct (IH _ _ H0) as (a & b & -> & Ha & Hb).
      exists (u ++ a), b. split; [apply app_assoc|].
      split; [constructor; assumption|exact Hb].
Qed.

Lemma Expand_nonspace (w' : text) :
  forall w,
    (forall c, In c w' -> is_space c = false) -> Expand w' w -> w = w'.
Proof.
  induction w' as [|c w' IH]; intros w Hw H;
    inversion H as [|c0 z0' z0 Hc H0|c0 u z0' z0 Hc Hu Hs H0]; subst.
  - reflexivity.
  - f_equal. apply IH; [|exact H0]. intros x Hx. apply Hw. right; exact Hx.
  - rewrite (Hw c) in Hc by (left; reflexivity). discriminate.
Qed.

Lemma Expand_space (w' : text) :
  forall w,
    forallb is_space w' = true -> Expand w' w ->
    forallb is_space w = true /\ (length w' <= length w)%nat.
Proof.
  induction w' as [|c w' IH]; intros w Hw H;
    inversion H as [|c0 z0' z0 Hc H0|c0 u z0' z0 Hc Hu Hs H0]; subst.
  - split; [reflexivity|lia].
  - cbn [forallb] in Hw. rewrite Hc in Hw. discriminate.
  - cbn [forallb] in Hw. apply andb_prop in Hw as [_ Hw].
    destruct (IH _ Hw H0) as [Hz Hl]. split.
    + rewrite forallb_app, Hs, Hz. reflexivity.
    + rewrite length_app. cbn [length]. destruct u; [congruence|cbn; lia].
Qed.

Lemma forallb_In (p : ascii -> bool) (w : text) :
  forallb p w = true -> forall c, In c w -> p c = true.
Proof. intros H. apply forallb_forall. exact H. Qed.

(** A robust pattern that accepts a piece of collapsed text accepts the
    piece it comes from. *)
Lemma robust_expand (r : regex) :
  robust r ->
  forall prev w' s' caps caps' w prev2 s2,
    Matches r prev w' s' caps caps' -> Expand w' w ->
    Matches r prev2 w s2 caps caps'.
Proof.
  induction r as [|p|p lo hi|r1 IH1 r2 IH2|r1 IH1 r2 IH2|r1 IH1|n r1 IH1| | |];
    cbn [robust Matches]; intros R prev w' s' caps caps' w prev2 s2 M E;
    try contradiction.
  - destruct M as [-> ->]. inversion E. auto.
  - destruct M as [(c & -> & Hc) ->]. split; [|reflexivity].
    rewrite (Expand_nonspace [c] w); [eauto| |exact E].
    intros x [<-|[]]. apply R; exact Hc.
  - destruct M as [(Hw & Hlo & Hhi) ->]. split; [|reflexivity].
    destruct R as [R|(R & Rlo & ->)].
    + rewrite (Expand_nonspace w' w); [auto| |exact E].
      intros x Hx. apply R. eapply forallb_In; eassumption.
    + assert (Hs : forallb is_space w' = true).
      { eapply forallb_impl; [|exact Hw]. intros c Hc. rewrite <- R. exact Hc. }
      destruct (Expand_space w' w Hs E) as [Hz Hl].
      split; [|split; [lia|exact I]].
      eapply forallb_impl; [|exact Hz]. intros c Hc. rewrite R. exact Hc.
  - destruct R as [R1 R2]. destruct M as (w1 & w2 & cm & -> & M1 & M2).
    apply Expand_app_inv in E as (a & b & -> & Ea & Eb).
    exists a, b, cm. split; [reflexivity|]. split; eauto.
  - destruct R as [R1 R2]. destruct M as [M|M]; eauto.
  - destruct M as [M|[-> ->]]; [eauto|]. inversion E. right; auto.
Qed.

Lemma Expand_collapse_aux (n : nat) :
  forall z, (length z <= n)%nat -> Expand (collapse_from None z) z.
Proof.
  induction n as [|n IH]; intros z Hn.
  - destruct z; [constructor|cbn in Hn; lia].
  - destruct z as [|c t]; [constructor|]. cbn [length] in Hn.
    cbn [collapse_from]. destruct (is_space c) eqn:Hc.
    + destruct (span_space t) as (u & s' & -> & Hu & Hs).
      assert (Hl : (length s' <= n)%nat) by (rewrite length_app in Hn; lia).
      destruct u as [|c2 u].
      * cbn [app]. rewrite collapse_from_stop by exact Hs. cbn [flush app].
        apply (Expand_run c [c] _ s');
          [exact Hc|discriminate|cbn [forallb]; rewrite Hc; reflexivity|apply IH; exact Hl].
      * rewrite (collapse_from_run (c2 :: u)); [|exact Hu|cbn; lia|exact Hs].
        change (c :: (c2 :: u) ++ s') with ((c :: c2 :: u) ++ s').
        apply Expand_run;
          [reflexivity|discriminate|cbn [forallb]; rewrite Hc; exact Hu|apply IH; exact Hl].
    + cbn [flush app]. apply Expand_char; [exact Hc|]. apply IH. lia.
Qed.

Lemma Expand_collapse (z : text) : Expand (collapse_spaces z) z.
Proof. apply (Expand_collapse_aux (length z)). lia. Qed.

Lemma occurs_expand (r : regex) (z' z : text) :
  robust r -> Expand z' z -> occurs r z' -> occurs r z.
Proof.
  intros R E (pre' & w' & post' & caps' & -> & M).
  apply Expand_app_inv in E as (pre & rest & -> & Epre & E).
  apply Expand_app_inv in E as (w & post & -> & Ew & Epost).
  exists pre, w, post, caps'. split; [reflexivity|].
  eapply robust_expand; eassumption.
Qed.

Lemma nonspace_class (p : ascii -> bool) :
  forallb (fun c => implb (p c) (negb (is_space c))) all_chars = true ->
  forall c, p c = true -> is_space c = false.
Proof.
  intros H c Hc. pose proof (for_all_chars _ H c) as Hi. cbv beta in Hi.
  rewrite Hc in Hi. apply negb_true_iff in Hi. exact Hi.
Qed.

Ltac solve_robust :=
  repeat match goal with
         | |- _ /\ _ => split
         | |- True => exact I
         | |- forall c, _ = true -> is_space c = false =>
             apply nonspace_class; vm_compute; reflexivity
         | |- _ \/ _ =>
             first [ left; apply nonspace_class; vm_compute; reflexivity
                   | right; split; [intros c; reflexivity|split; [lia|reflexivity]] ]
         end.

Ltac unfold_pattern :=
  cbv [robust re_strip_owner_label re_strip_owner_paren re_strip_by
       re_strip_priority re_strip_ptag re_strip_no_owner re_opt_semi re_name
       re_ptag re_paren_ptag re_month_abbrev
       seq_of alt_of lit lit_ci map str list_ascii_of_string plus star times].

Lemma robust_strip_owner_label : robust re_strip_owner_label.
Proof. unfold_pattern. solve_robust. Qed.

Lemma robust_strip_owner_paren : robust re_strip_owner_paren.
Proof. unfold_pattern. solve_robust. Qed.

Lemma robust_strip_by : robust re_strip_by.
Proof. unfold_pattern. solve_robust. Qed.

Lemma robust_strip_priority : robust re_strip_priority.
Proof. unfold_pattern. solve_robust. Qed.

Lemma robust_strip_ptag : robust re_strip_ptag.
Proof. unfold_pattern. solve_robust. Qed.

Lemma robust_strip_no_owner : robust re_strip_no_owner.
Proof. unfold_pattern. solve_robust. Qed.

Lemma Matches_seq_assoc (a b c : regex) (prev : option ascii) (w s' : text)
    (caps caps' : captures) :
  Matches (Seq a (Seq b c)) prev w s' caps caps' <->
  Matches (Seq (Seq a b) c) prev w s' caps caps'.
Proof.
  cbn [Matches]. split.
  - intros (w1 & w23 & c1 & -> & Ma & (w2 & w3 & c2 & -> & Mb & Mc)).
    exists (w1 ++ w2), w3, c2. split; [apply app_assoc|]. split.
    + exists w1, w2, c1. split; [reflexivity|]. rewrite <- app_assoc in Ma. auto.
    + rewrite last_of_app. exact Mc.
  - intros (w12 & w3 & c2 & -> & (w1 & w2 & c1 & -> & Ma & Mb) & Mc).
    exists w1, (w2 ++ w3), c1. split; [symmetry; apply app_assoc|]. split.
    + rewrite <- app_assoc. exact Ma.
    + exists w2, w3, c2. split; [reflexivity|]. rewrite last_of_app in Mc. auto.
Qed.

Lemma strip_due_split (prev : option ascii) (w s' : text) (caps caps' : captures) :
  Matches re_strip_due prev w s' caps caps' <->
  Matches (Seq (Seq re_due_head (plus is_space)) re_until_punct) prev w s' caps caps'.
Proof.
  change re_strip_due with
    (Seq re_opt_semi (Seq (Chr (one_of (str "Dd"))) (Seq (lit "ue")
       (Seq (Opt (Chr (chr ":"))) (Seq (plus is_space) re_until_punct))))).
  unfold re_due_head. rewrite !Matches_seq_assoc. reflexivity.
Qed.

Lemma robust_due_head : robust (Seq re_due_head (plus is_space)).
Proof.
  cbv [robust re_due_head re_opt_semi seq_of lit map str list_ascii_of_string plus star].
  solve_robust.
Qed.

Lemma no_double_adjacent (a : text) (x c : ascii) (b : text) :
  no_double_space (a ++ x :: c :: b) = true -> is_space x = true -> is_space c = false.
Proof.
  intros H Hx. apply no_double_space_app in H as [_ H].
  change (no_double_space (x :: c :: b))
    with (negb (is_space x && is_space c) && no_double_space (c :: b)) in H.
  rewrite Hx in H. destruct (is_space c); [discriminate|reflexivity].
Qed.

(** The ["Due: ..."] pattern ends with [[^;.\n]+], which does accept white
    space; in collapsed text it starts at a character that is not white
    space, and one such character is enough in the original. *)
Lemma occurs_due_expand (z' z : text) :
  Expand z' z -> no_double_space z' = true ->
  occurs re_strip_due z' -> occurs re_strip_due z.
Proof.
  intros E Hn (pre' & w' & post' & caps' & -> & M).
  apply strip_due_split in M. cbn [Matches] in M.
  destruct M as (hw' & u' & cm & -> & Mh & Mu).
  change (exists w1 w2 cm0, hw' = w1 ++ w2 /\
            Matches re_due_head (last_of None pre') w1 (w2 ++ u' ++ post') [] cm0 /\
            Matches (plus is_space) (last_of (last_of None pre') w1) w2 (u' ++ post') cm0 cm)
    in Mh.
  destruct Mh as (h' & ws' & cm0 & -> & Mh & Ms).
  pose proof Ms as Ms0. cbn [Matches plus] in Ms0.
  destruct Ms0 as [(Hws & Hwl & _) ->].
  cbn [Matches re_until_punct plus] in Mu. destruct Mu as [(Hu & Hul & _) ->].
  destruct u' as [|c ur']; [cbn in Hul; lia|].
  assert (Hc : is_space c = false).
  { destruct (exists_last (l := ws')) as (wi & x & Ex).
    { intros ->. cbn in Hwl. lia. }
    assert (Hx : is_space x = true).
    { rewrite Ex, forallb_app in Hws. apply andb_prop in Hws as [_ Hws].
      cbn [forallb] in Hws. rewrite andb_true_r in Hws. exact Hws. }
    apply (no_double_adjacent (pre' ++ h' ++ wi) x c (ur' ++ post')); [|exact Hx].
    rewrite <- Hn, Ex. rewrite <- !app_assoc. reflexivity. }
  apply Expand_app_inv in E as (pre & rest & -> & Epre & E).
  rewrite <- !app_assoc in E.
  apply Expand_app_inv in E as (h & rest1 & -> & Eh & E).
  apply Expand_app_inv in E as (ws & rest2 & -> & Ews & E).
  cbn [app] in E.
  inversion E as [|c0 z0' z0 Hc0 E0|c0 u0 z0' z0 Hc0 Hu0 Hs0 E0]; subst.
  2: { rewrite Hc in Hc0. discriminate Hc0. }
  exists pre, ((h ++ ws) ++ [c]), z0, []. split.
  - rewrite <- !app_assoc. reflexivity.
  - apply strip_due_split. cbn [Matches].
    exists (h ++ ws), [c], []. split; [reflexivity|]. split.
    + change (exists w1 w2 cm0, h ++ ws = w1 ++ w2 /\
                Matches re_due_head (last_of None pre) w1 (w2 ++ [c] ++ z0) [] cm0 /\
                Matches (plus is_space) (last_of (last_of None pre) w1) w2 ([c] ++ z0) cm0 []).
      exists h, ws, []. split; [reflexivity|]. split.
      * pose proof robust_due_head as [Rh _].
        eapply (robust_expand re_due_head Rh); [|exact Eh].
        assert (cm0 = []) as -> by (eapply Matches_no_groups; [|exact Mh]; reflexivity).
        exact Mh.
      * pose proof robust_due_head as [_ Rs].
        eapply (robust_expand (plus is_space) Rs); [|exact Ews].
        assert (cm0 = []) as -> by (eapply Matches_no_groups; [|exact Mh]; reflexivity).
        exact Ms.
    + cbn [re_until_punct plus Matches]. split; [|reflexivity].
      cbn [forallb] in Hu. apply andb_prop in Hu as [Hu _].
      cbn [forallb length]. rewrite Hu. repeat split; auto.
Qed.

Lemma metadata_free_collapse (z : text) :
  metadata_free z -> metadata_free (collapse_spaces z).
Proof.
  unfold metadata_free, metadata_patterns. intros H.
  repeat match goal with
         | H : Forall _ (_ :: _) |- _ => apply Forall_cons_iff in H as [? H]
         end.
  pose proof (Expand_collapse z) as E.
  pose proof (collapse_spaces_no_double_space z) as Hn.
  repeat constructor; apply re_search_none; intros O;
    match goal with
    | X : re_search ?r z = None |- _ =>
        match type of O with occurs r _ => apply re_search_none in X; apply X end
    end.
  - eapply occurs_expand; [apply robust_strip_owner_label|exact E|exact O].
  - eapply occurs_expand; [apply robust_strip_owner_paren|exact E|exact O].
  - eapply occurs_due_expand; eassumption.
  - eapply occurs_expand; [apply robust_strip_by|exact E|exact O].
  - eapply occurs_expand; [apply robust_strip_priority|exact E|exact O].
  - eapply occurs_expand; [apply robust_strip_ptag|exact E|exact O].
  - eapply occurs_expand; [apply robust_strip_no_owner|exact E|exact O].
Qed.

Lemma metadata_free_strip (s : text) : metadata_free s -> metadata_free (strip s).
Proof.
  intros H. destruct (strip_inside s) as (a & b & E). rewrite E in H.
  eapply metadata_free_inside; exact H.
Qed.

(** The residual clean-up creates no metadata fragment. *)
Lemma metadata_free_tidy (x : text) : metadata_free x -> metadata_free (tidy x).
Proof.
  intros H. rewrite tidy_eq.
  destruct (drop_semi_prefix x) as (u & Eu). rewrite Eu in H.
  apply metadata_free_prefix in H.
  apply metadata_free_collapse, metadata_free_strip in H.
  destruct (rstrip_dot_prefix (strip (collapse_spaces (re_sub re_trailing_semi [] x))))
    as (v & Ev).
  rewrite Ev in H. apply metadata_free_prefix in H.
  apply metadata_free_strip. exact H.
Qed.

(** ** Idempotence of the cleaner *)

(** When the cleaned text is itself free of metadata fragments and ends in
    neither [;] nor [.], cleaning it again changes nothing. *)
Lemma clean_again (x : text) :
  metadata_free (_clean_task_text x) ->
  ~ ends_with ";" (_clean_task_text x) ->
  ~ ends_with "." (_clean_task_text x) ->
  _clean_task_text (_clean_task_text x) = _clean_task_text x.
Proof.
  intros Hfree Hsemi Hdot.
  rewrite (clean_metadata_free _ Hfree).
  destruct (clean_is_tidy x) as (z & Hz). rewrite Hz in *.
  apply tidy_fixed; auto using tidy_trimmed, tidy_no_double_space.
Qed.

(** C9, as the code has it: for text free of metadata fragments whose
    cleaned form ends in neither [;] nor [.], cleaning is idempotent. *)
Theorem clean_idempotent (x : text) :
  metadata_free x ->
  ~ ends_with ";" (_clean_task_text x) ->
  ~ ends_with "." (_clean_task_text x) ->
  _clean_task_text (_clean_task_text x) = _clean_task_text x.
Proof.
  intros Hfree. apply clean_again.
  rewrite (clean_metadata_free x Hfree). apply metadata_free_tidy. exact Hfree.
Qed.

Lemma clean_idempotent_witness :
  _clean_task_text (_clean_task_text (str "Fix  bug. ")) =
  _clean_task_text (str "Fix  bug. ").
Proof.
  apply (clean_idempotent (str "Fix  bug. ")).
  - unfold metadata_free, metadata_patterns. repeat constructor; vm_compute; reflexivity.
  - apply (not_ends_with ";" "g"); [vm_compute; reflexivity|discriminate].
  - apply (not_ends_with "." "g"); [vm_compute; reflexivity|discriminate].
Defined.

(** C9 as stated fails: a metadata-free text ending in [;.] is cleaned to a
    text ending in [;], which a second cleaning removes. *)
Lemma clean_idempotent_counterexample :
  metadata_free (str "Fix bug;.") /\
  _clean_task_text (str "Fix bug;.") = str "Fix bug;" /\
  _clean_task_text (_clean_task_text (str "Fix bug;.")) = str "Fix bug" /\
  str "Fix bug" <> str "Fix bug;".
Proof.
  split; [|split; [|split]].
  - unfold metadata_free, metadata_patterns. repeat constructor; vm_compute; reflexivity.
  - vm_compute. reflexivity.
  - vm_compute. reflexivity.
  - discriminate.
Qed.

(** ** re.sub never meets an empty match *)

Lemma Matches_nonempty (r : regex) :
  nullable r = false ->
  forall prev w s' caps caps', Matches r prev w s' caps caps' -> w <> [].
Proof.
  induction r as [|p|p lo hi|r1 IH1 r2 IH2|r1 IH1 r2 IH2|r1 IH1|n r1 IH1| | |];
    cbn [nullable Matches]; intros N prev w s' caps caps' M; try discriminate.
  - destruct M as [(c & -> & _) _]. discriminate.
  - destruct M as [(_ & Hl & _) _]. apply Nat.eqb_neq in N.
    intros ->. cbn in Hl. lia.
  - destruct M as (w1 & w2 & cm & -> & M1 & M2).
    apply andb_false_iff in N as [N|N].
    + apply IH1 in M1; [|exact N]. destruct w1; [congruence|discriminate].
    + apply IH2 in M2; [|exact N]. destruct w1, w2; try congruence; discriminate.
  - apply orb_false_iff in N as [N1 N2]. destruct M as [M|M]; eauto.
  - destruct M as (cm & M & _). eauto.
Qed.

(** A match of a pattern that cannot match the empty string leaves a
    strictly shorter text, so [sub_from] always continues after the match. *)
Lemma run_progress (r : regex) (prev : option ascii) (s : text) (m : rmatch) :
  nullable r = false -> run r prev s [] (accept s) = Some m ->
  (length (m_rest m) < length s)%nat.
Proof.
  intros N H. apply run_sound in H as (w & s' & caps' & -> & M & Hk).
  unfold accept in Hk. injection Hk as <-. cbn [m_rest].
  apply (Matches_nonempty r N) in M. rewrite length_app.
  destruct w; [congruence|cbn; lia].
Qed.

Lemma sub_patterns_not_nullable :
  Forall (fun r => nullable r = false) sub_patterns.
Proof. unfold sub_patterns, metadata_patterns. repeat constructor. Qed.

(** * Further properties *)

(** ** Lines of a document *)

Lemma forallb_rev_eq {T : Type} (p : T -> bool) (s : list T) :
  forallb p (rev s) = forallb p s.
Proof.
  induction s as [|c t IH]; [reflexivity|].
  cbn [rev forallb]. rewrite forallb_app, IH. cbn [forallb].
  rewrite andb_true_r. apply andb_comm.
Qed.

Lemma single_line_rev (s : text) : single_line (rev s) = single_line s.
Proof. unfold single_line. apply forallb_rev_eq. Qed.

Lemma splitlines_from_single_aux (n : nat) :
  forall s cur, (length s <= n)%nat -> single_line cur = true ->
  Forall (fun l => single_line l = true) (splitlines_from cur s).
Proof.
  induction n as [|n IH]; intros s cur Hn Hc.
  - destruct s; [|cbn in Hn; lia]. cbn [splitlines_from].
    destruct cur; constructor; [|constructor]. rewrite single_line_rev. exact Hc.
  - destruct s as [|c t]; cbn [splitlines_from].
    { destruct cur; constructor; [|constructor]. rewrite single_line_rev. exact Hc. }
    cbn [length] in Hn.
    destruct (is_linebreak c) eqn:Hl.
    + constructor; [rewrite single_line_rev; exact Hc|].
      destruct (Ascii.eqb c carriage_return).
      * destruct t as [|c' t']; [apply IH; [cbn; lia|reflexivity]|].
        cbn [length] in Hn.
        destruct (Ascii.eqb c' newline); apply IH; cbn [length]; try lia; reflexivity.
      * apply IH; [lia|reflexivity].
    + apply IH; [lia|]. unfold single_line in *. cbn [forallb].
      rewrite Hl. exact Hc.
Qed.

(** No line of [splitlines] holds a line boundary. *)
Lemma splitlines_single (s : text) :
  Forall (fun l => single_line l = true) (splitlines s).
Proof. apply (splitlines_from_single_aux (length s)); [lia|reflexivity]. Qed.

(** A text without line boundaries is its own only line. *)
Lemma splitlines_from_one (s : text) :
  forall cur, single_line s = true -> rev cur ++ s <> [] ->
  splitlines_from cur s = [rev cur ++ s].
Proof.
  induction s as [|c t IH]; intros cur Hs Hne; cbn [splitlines_from].
  - rewrite app_nil_r in *. destruct cur; [contradiction|reflexivity].
  - unfold single_line in Hs. cbn [forallb] in Hs. apply andb_prop in Hs as [Hc Ht].
    apply negb_true_iff in Hc. rewrite Hc.
    rewrite (IH (c :: cur)); cbn [rev]; rewrite <- ?app_assoc; cbn [app].
    + reflexivity.
    + exact Ht.
    + destruct (rev cur); discriminate.
Qed.

Lemma splitlines_one (s : text) :
  single_line s = true -> s <> [] -> splitlines s = [s].
Proof. intros Hs Hne. apply (splitlines_from_one s []); assumption. Qed.

Lemma single_line_lstrip (p : ascii -> bool) (s : text) :
  single_line s = true -> single_line (lstrip_by p s) = true.
Proof.
  induction s as [|c t IH]; [reflexivity|]. intros H. cbn [lstrip_by].
  destruct (p c); [|exact H]. apply IH.
  unfold single_line in H. cbn [forallb] in H. apply andb_prop in H as [_ H]. exact H.
Qed.

Lemma single_line_strip (s : text) :
  single_line s = true -> single_line (strip s) = true.
Proof.
  intros H. unfold strip, rstrip_by.
  rewrite single_line_rev. apply single_line_lstrip. rewrite single_line_rev.
  apply single_line_lstrip. exact H.
Qed.

Lemma strip_strip (s : text) : strip (strip s) = strip s.
Proof. apply trimmed_strip, strip_trimmed. Qed.

(** [splitlines] of two texts joined by a newline: the lines of the first,
    then those of the second, with an empty line between them when the first
    text is empty or ends in a line boundary other than a carriage return. *)
Lemma splitlines_from_app_aux (n : nat) :
  forall a cur b, (length a <= n)%nat ->
  exists blank,
    (blank = [] \/ blank = [[]]) /\
    splitlines_from cur (a ++ newline :: b) =
    splitlines_from cur a ++ blank ++ splitlines b.
Proof.
  induction n as [|n IH]; intros a cur b Hn.
  - destruct a; [|cbn in Hn; lia]. cbn [app splitlines_from].
    change (is_linebreak newline) with true.
    change (Ascii.eqb newline carriage_return) with false. cbv iota.
    destruct cur; [exists [[]]|exists []]; split; auto.
  - destruct a as [|c t].
    { cbn [app splitlines_from].
      change (is_linebreak newline) with true.
      change (Ascii.eqb newline carriage_return) with false. cbv iota.
      destruct cur; [exists [[]]|exists []]; split; auto. }
    cbn [length] in Hn. cbn [app splitlines_from].
    destruct (is_linebreak c).
    + destruct (Ascii.eqb c carriage_return).
      * destruct t as [|c' t'].
        { cbn [app]. change (Ascii.eqb newline newline) with true. cbv iota.
          exists []; split; auto. }
        cbn [app length] in *.
        destruct (Ascii.eqb c' newline).
        -- destruct (IH t' [] b) as (blank & Hb & E); [lia|].
           exists blank; split; [exact Hb|]. rewrite E. reflexivity.
        -- destruct (IH (c' :: t') [] b) as (blank & Hb & E); [cbn; lia|].
           exists blank; split; [exact Hb|]. cbn [app] in E. rewrite E. reflexivity.
      * destruct (IH t [] b) as (blank & Hb & E); [lia|].
        exists blank; split; [exact Hb|]. rewrite E. reflexivity.
    + apply IH; lia.
Qed.

Lemma splitlines_app (a b : text) :
  exists blank,
    (blank = [] \/ blank = [[]]) /\
    splitlines (a ++ newline :: b) = splitlines a ++ blank ++ splitlines b.
Proof. apply (splitlines_from_app_aux (length a)); lia. Qed.

(** ** The parsing driver, line by line *)

Lemma parse_line_strip (today : date) (raw : text) :
  parse_line today (strip raw) = parse_line today raw.
Proof. unfold parse_line. rewrite strip_strip. reflexivity. Qed.

Lemma parse_line_blank (today : date) : parse_line today [] = Ok None.
Proof. reflexivity. Qed.

(** X1: an item is a function of its own line: parsing the [raw_line] of a
    returned item as a document of its own gives back exactly that item. *)
Theorem reparse_raw_line (today : date) (doc : text) (items : list ActionItem)
    (it : ActionItem) :
  parse_meeting_notes today doc = Ok items -> In it items ->
  parse_meeting_notes today (raw_line it) = Ok [it].
Proof.
  intros H Hin. unfold parse_meeting_notes in *.
  destruct (parse_lines_in _ _ _ H it Hin) as (raw & Hraw & Hl).
  pose proof (splitlines_single doc) as Hs.
  rewrite Forall_forall in Hs. specialize (Hs raw Hraw).
  pose proof Hl as Hi.
  apply parse_line_item in Hi as (_ & _ & He & _ & _ & _ & _ & _ & _ & _ & Hr).
  rewrite Hr. rewrite splitlines_one.
  - cbn [parse_lines]. rewrite parse_line_strip, Hl. reflexivity.
  - apply single_line_strip; exact Hs.
  - apply is_empty_false; exact He.
Qed.

Lemma reparse_raw_line_witness :
  let it := mkActionItem (str "ship the build") (str "unassigned") (str "2026-02-09")
              (str "high") (str "TODO: ship the build by next Monday (P1)") in
  parse_meeting_notes (mkDate 2026 2 6) (raw_line it) = Ok [it].
Proof.
  cbv zeta.
  apply (reparse_raw_line (mkDate 2026 2 6)
           (str "Notes of the weekly sync" ++ newline ::
            str "   TODO: ship the build by next Monday (P1)  " ++ newline ::
            str "Decision: keep the old logo")
           [mkActionItem (str "ship the build") (str "unassigned") (str "2026-02-09")
              (str "high") (str "TODO: ship the build by next Monday (P1)")]).
  - vm_compute. reflexivity.
  - left. reflexivity.
Defined.

Lemma parse_lines_blank (today : date) (blank : list text) (rest : list text) :
  blank = [] \/ blank = [[]] ->
  parse_lines today (blank ++ rest) = parse_lines today rest.
Proof.
  intros [->| ->]; [reflexivity|].
  cbn [app parse_lines]. rewrite parse_line_blank. cbn [bind].
  destruct (parse_lines today rest); reflexivity.
Qed.

(** X2: the parser works line by line: the items of two texts joined by a
    newline are the items of the first followed by the items of the second. *)
Theorem parse_meeting_notes_app (today : date) (a b : text) :
  parse_meeting_notes today (a ++ newline :: b) =
  (xs <- parse_meeting_notes today a ;;
   ys <- parse_meeting_notes today b ;;
   Ok (xs ++ ys)).
Proof.
  unfold parse_meeting_notes.
  destruct (splitlines_app a b) as (blank & Hb & ->).
  rewrite parse_lines_app, (parse_lines_blank today blank _ Hb). reflexivity.
Qed.

Lemma subsequence_nil {T : Type} (b : list T) : subsequence [] b.
Proof. induction b as [|y b IH]; [reflexivity|left; exact IH]. Qed.

Lemma parse_lines_subsequence (today : date) (lines : list text) :
  forall items,
    parse_lines today lines = Ok items ->
    subsequence (map raw_line items) (map strip lines).
Proof.
  induction lines as [|raw rest IH]; cbn [parse_lines]; intros items H.
  - injection H as <-. reflexivity.
  - destruct (parse_line today raw) as [item|] eqn:Hl; cbn [bind] in H; [|discriminate].
    destruct (parse_lines today rest) as [items'|] eqn:Hr; cbn [bind] in H; [|discriminate].
    injection H as <-. specialize (IH _ eq_refl). cbn [map subsequence].
    destruct item as [it|]; [|left; exact IH].
    right. cbn [map]. split; [|exact IH].
    apply parse_line_item in Hl as (_ & _ & _ & _ & _ & _ & _ & _ & _ & _ & Hraw).
    exact Hraw.
Qed.

(** X3: the items come in document order, at most one per line: their
    [raw_line]s are the stripped lines of the document with some lines left
    out. *)
Theorem items_in_document_order (today : date) (doc : text) (items : list ActionItem) :
  parse_meeting_notes today doc = Ok items ->
  subsequence (map raw_line items) (map strip (splitlines doc)).
Proof. apply parse_lines_subsequence. Qed.

Lemma items_in_document_order_witness :
  subsequence
    [str "TODO: ship the build"; str "Bob to review the patch"]
    [str "Weekly sync"; str "TODO: ship the build"; []; str "Bob to review the patch"].
Proof.
  apply (items_in_document_order (mkDate 2026 2 6)
           (str "Weekly sync" ++ newline :: str "  TODO: ship the build" ++ newline ::
            newline :: str "Bob to review the patch")
           [mkActionItem (str "ship the build") unassigned [] (str "normal")
              (str "TODO: ship the build");
            mkActionItem (str "review the patch") (str "Bob") [] (str "normal")
              (str "Bob to review the patch")]).
  vm_compute. reflexivity.
Defined.

(** ** The parser raises only in the last year of the calendar *)

Lemma add_days_week (today : date) (k : nat) :
  valid_date today = true -> year today < MAXYEAR -> (k <= 31)%nat ->
  exists d, add_days today k = Ok d.
Proof. intros V Y Hk. apply add_days_total; auto. Qed.

Lemma normalize_date_total (today : date) (raw : text) :
  valid_date today = true -> year today < MAXYEAR ->
  exists r, normalize_date today raw = Ok r.
Proof.
  intros V Y. unfold normalize_date.
  destruct (is_empty (strip raw)); [eauto|].
  destruct (fromisoformat (strip raw)); [eauto|].
  destruct (is_some (re_fullmatch re_quarter (to_lower (strip raw)))); [eauto|].
  destruct (re_fullmatch re_relative (to_lower (strip raw))) as [m|].
  { destruct (dict_get _DAY_NAMES (group_str 1 m)) as [target|]; [|eauto].
    cbv zeta.
    match goal with |- context [add_days today ?k] =>
      destruct (add_days_week today k V Y) as [d ->] end.
    - pose proof (Z.mod_pos_bound (target - weekday today) 7).
      destruct (Z.eqb_spec ((target - weekday today) mod 7) 0); lia.
    - cbn [bind]. eauto. }
  destruct (text_eqb (to_lower (strip raw)) (str "today")); [eauto|].
  destruct (text_eqb (to_lower (strip raw)) (str "tomorrow")).
  { destruct (add_days_week today 1 V Y) as [d ->]; [lia|]. cbn [bind]. eauto. }
  destruct (re_fullmatch re_slash (strip raw)); [eauto|].
  destruct (re_fullmatch re_month_day (strip raw)) as [m|].
  { destruct (dict_get _MONTH_NAMES (to_lower (group_str 1 m))); [eauto|].
    destruct (re_fullmatch re_day_month (strip raw)) as [m'|]; [|eauto].
    destruct (dict_get _MONTH_NAMES (to_lower (group_str 2 m'))); eauto. }
  destruct (re_fullmatch re_day_month (strip raw)) as [m'|]; [|eauto].
  destruct (dict_get _MONTH_NAMES (to_lower (group_str 2 m'))); eauto.
Qed.

Lemma _extract_due_date_total (today : date) (line : text) :
  valid_date today = true -> year today < MAXYEAR ->
  exists r, _extract_due_date today line = Ok r.
Proof.
  intros V Y. unfold _extract_due_date.
  assert (D : forall m, exists r, due_of today m = Ok r)
    by (intros m; apply normalize_date_total; assumption).
  assert (H1 : exists r,
             match re_search re_due line with
             | Some m => due_of today m | None => Ok [] end = Ok r)
    by (destruct (re_search re_due line); eauto).
  destruct H1 as [first ->]. cbn [bind].
  destruct (negb (is_empty first)); [eauto|].
  assert (H2 : exists r,
             match re_search re_by line with
             | Some m => due_of today m | None => Ok [] end = Ok r)
    by (destruct (re_search re_by line); eauto).
  destruct H2 as [second ->]. cbn [bind].
  destruct (negb (is_empty second)); eauto.
Qed.

Lemma parse_line_total (today : date) (raw : text) :
  valid_date today = true -> year today < MAXYEAR ->
  exists r, parse_line today raw = Ok r.
Proof.
  intros V Y. unfold parse_line.
  destruct (is_empty (strip raw)); [eauto|].
  destruct (is_some (re_search _RE_DECISION (strip raw))); [eauto|].
  destruct (classify (strip raw)) as [[task_text|] inferred]; [|eauto].
  destruct (_extract_due_date_total today (strip raw) V Y) as [due ->]. cbn [bind].
  destruct (is_empty (_clean_task_text task_text)); eauto.
Qed.

(** X4: with a reference date before the year 9999 the parser returns a list
    for every document: the [OverflowError] of [today + timedelta] cannot
    occur, and no other exception escapes. *)
Theorem parse_meeting_notes_returns (today : date) (doc : text) :
  valid_date today = true -> year today < MAXYEAR ->
  exists items, parse_meeting_notes today doc = Ok items.
Proof.
  intros V Y. unfold parse_meeting_notes.
  induction (splitlines doc) as [|raw rest IH]; cbn [parse_lines]; [eauto|].
  destruct (parse_line_total today raw V Y) as [item ->].
  destruct IH as [items ->]. cbn [bind]. eauto.
Qed.

Lemma parse_meeting_notes_returns_witness :
  exists items,
    parse_meeting_notes (mkDate 9998 12 31) (str "TODO: renew the lease due next Friday")
    = Ok items.
Proof.
  apply (parse_meeting_notes_returns (mkDate 9998 12 31)).
  - vm_compute. reflexivity.
  - vm_compute. reflexivity.
Defined.

(** On the last day of the calendar a relative date does raise. *)
Example parse_raises_at_date_max :
  parse_meeting_notes (mkDate 9999 12 31) (str "TODO: renew the lease due tomorrow")
  = Raised.
Proof. vm_compute. reflexivity. Qed.

(** ** Matching a lower-cased string *)

Lemma char_fact (f : ascii -> bool) :
  forallb f all_chars = true -> forall c, f c = true.
Proof. apply for_all_chars. Qed.

Lemma lower_space (c : ascii) : is_space (lower c) = is_space c.
Proof.
  apply eqb_prop. revert c. apply char_fact. vm_compute. reflexivity.
Qed.

Lemma lower_is_digit (c : ascii) : is_digit (lower c) = is_digit c.
Proof.
  apply eqb_prop. revert c. apply char_fact. vm_compute. reflexivity.
Qed.

Lemma lower_lower (c : ascii) : lower (lower c) = lower c.
Proof.
  apply Ascii.eqb_eq. revert c. apply char_fact. vm_compute. reflexivity.
Qed.

Lemma lower_newline (c : ascii) : Ascii.eqb (lower c) newline = Ascii.eqb c newline.
Proof.
  apply eqb_prop. revert c. apply char_fact. vm_compute. reflexivity.
Qed.

Lemma lower_comma (c : ascii) : chr "," (lower c) = chr "," c.
Proof.
  apply eqb_prop. revert c. apply char_fact. vm_compute. reflexivity.
Qed.

(** A digit, a hyphen or a slash is the lower-case form of itself only. *)
Lemma lower_plain (c : ascii) :
  is_digit (lower c) || Ascii.eqb (lower c) hyphen || Ascii.eqb (lower c) "/" = true ->
  lower c = c.
Proof.
  intros H. apply Ascii.eqb_eq. revert c H.
  assert (F : forall c,
             implb (is_digit (lower c) || Ascii.eqb (lower c) hyphen
                    || Ascii.eqb (lower c) "/") (Ascii.eqb (lower c) c) = true)
    by (apply char_fact; vm_compute; reflexivity).
  intros c H. specialize (F c). rewrite H in F. exact F.
Qed.

Lemma to_lower_plain (s : text) :
  forallb (fun c => is_digit c || Ascii.eqb c hyphen || Ascii.eqb c "/") (to_lower s) = true ->
  to_lower s = s.
Proof.
  induction s as [|c s IH]; [reflexivity|]. cbn [to_lower map forallb].
  intros H. apply andb_prop in H as [Hc Hs].
  rewrite (lower_plain c Hc). f_equal. apply IH; exact Hs.
Qed.

Lemma to_lower_to_lower (s : text) : to_lower (to_lower s) = to_lower s.
Proof.
  unfold to_lower. rewrite map_map. apply map_ext. intros c. apply lower_lower.
Qed.

Lemma to_lower_length (s : text) : length (to_lower s) = length s.
Proof. apply length_map. Qed.

Lemma lstrip_by_lower (p : ascii -> bool) (s : text) :
  (forall c, p (lower c) = p c) ->
  lstrip_by p (to_lower s) = to_lower (lstrip_by p s).
Proof.
  intros Hp. induction s as [|c s IH]; [reflexivity|].
  cbn [to_lower map lstrip_by]. rewrite Hp. destruct (p c); [exact IH|reflexivity].
Qed.

Lemma to_lower_rev (s : text) : to_lower (rev s) = rev (to_lower s).
Proof. apply map_rev. Qed.

Lemma strip_to_lower (s : text) : strip (to_lower s) = to_lower (strip s).
Proof.
  unfold strip, rstrip_by.
  rewrite (lstrip_by_lower is_space s lower_space).
  rewrite <- to_lower_rev, (lstrip_by_lower is_space _ lower_space).
  rewrite to_lower_rev. reflexivity.
Qed.

Lemma consumed_to_lower (s s' : text) :
  consumed (to_lower s) (to_lower s') = to_lower (consumed s s').
Proof.
  unfold consumed, to_lower. rewrite !length_map. apply firstn_map.
Qed.

Lemma at_eol_to_lower (s : text) : at_eol (to_lower s) = at_eol s.
Proof.
  destruct s as [|c [|c' t]]; cbn [to_lower map at_eol]; auto using lower_newline.
Qed.

Lemma word_after_to_lower (s : text) : word_after (to_lower s) = word_after s.
Proof. destruct s; cbn [to_lower map word_after]; auto using lower_word. Qed.

Lemma word_before_lower (prev : option ascii) :
  word_before (option_map lower prev) = word_before prev.
Proof. destruct prev; cbn [option_map word_before]; auto using lower_word. Qed.

Section Lowered.
Variables A B : Type.
Variable F : A -> B.

(** The matcher takes the same decisions on a string and on its lower-cased
    form when no class of the pattern depends on the case. *)
Lemma rep_lower (p : ascii -> bool) (s : text) :
  (forall c, p (lower c) = p c) ->
  forall lo hi prev (k : option ascii -> text -> option A)
         (k' : option ascii -> text -> option B),
    (forall prev' s',
       k' (option_map lower prev') (to_lower s') = option_map F (k prev' s')) ->
    rep p lo hi (option_map lower prev) (to_lower s) k'
    = option_map F (rep p lo hi prev s k).
Proof.
  intros Hp. induction s as [|c t IH]; intros lo hi prev k k' Hk.
  - cbn [to_lower map rep]. destruct lo; [apply (Hk prev [])|reflexivity].
  - cbn [to_lower map rep]. rewrite Hp.
    pose proof (Hk prev (c :: t)) as Hstop. cbn [to_lower map] in Hstop.
    destruct (p c && more_allowed hi).
    + change (Some (lower c)) with (option_map lower (Some c)).
      fold (to_lower t). rewrite (IH _ _ _ k k' Hk).
      destruct (rep p (pred lo) (option_map pred hi) (Some c) t k); cbn [option_map];
        [reflexivity|].
      destruct lo; [exact Hstop|reflexivity].
    + destruct lo; [exact Hstop|reflexivity].
Qed.
End Lowered.

Arguments rep_lower {A B} F p s _ lo hi prev k k' _.

Lemma run_lower (r : regex) :
  case_blind r ->
  forall (A B : Type) (F : A -> B) prev s caps
         (k : option ascii -> text -> captures -> option A)
         (k' : option ascii -> text -> captures -> option B),
    (forall prev' s' caps',
       k' (option_map lower prev') (to_lower s') (lower_caps caps')
       = option_map F (k prev' s' caps')) ->
    run r (option_map lower prev) (to_lower s) (lower_caps caps) k'
    = option_map F (run r prev s caps k).
Proof.
  induction r as [|p|p lo hi|r1 IH1 r2 IH2|r1 IH1 r2 IH2|r1 IH1|n r1 IH1| | |];
    cbn [case_blind]; intros Hb A B F prev s caps k k' Hk; cbn [run].
  - apply Hk.
  - destruct s as [|c t]; cbn [to_lower map]; [reflexivity|].
    rewrite Hb. destruct (p c); [|reflexivity]. apply (Hk (Some c) t caps).
  - apply (rep_lower F p s Hb). intros prev' s'. apply Hk.
  - destruct Hb as [Hb1 Hb2]. apply (IH1 Hb1 A B F).
    intros prev' s' caps'. apply (IH2 Hb2 A B F). exact Hk.
  - destruct Hb as [Hb1 Hb2].
    rewrite (IH1 Hb1 A B F prev s caps k k' Hk).
    destruct (run r1 prev s caps k); cbn [option_map]; [reflexivity|].
    apply (IH2 Hb2 A B F). exact Hk.
  - rewrite (IH1 Hb A B F prev s caps k k' Hk).
    destruct (run r1 prev s caps k); cbn [option_map]; [reflexivity|]. apply Hk.
  - apply (IH1 Hb A B F). intros prev' s' caps'.
    rewrite consumed_to_lower.
    apply (Hk prev' s' ((n, consumed s s') :: caps')).
  - destruct prev; cbn [option_map]; [reflexivity|]. apply (Hk None).
  - rewrite at_eol_to_lower. destruct (at_eol s); [apply Hk|reflexivity].
  - rewrite word_before_lower, word_after_to_lower.
    destruct (xorb (word_before prev) (word_after s)); [apply Hk|reflexivity].
Qed.

Lemma re_fullmatch_lower (r : regex) (s : text) :
  case_blind r ->
  re_fullmatch r (to_lower s) = option_map lower_match (re_fullmatch r s).
Proof.
  intros Hb. rewrite !re_fullmatch_eq.
  apply (run_lower r Hb rmatch rmatch lower_match None s []).
  intros prev' s' caps'. unfold accept_end.
  destruct s'; cbn [to_lower map option_map]; reflexivity.
Qed.

Lemma group_lower_caps (n : nat) (caps : captures) :
  group n (lower_caps caps) = option_map to_lower (group n caps).
Proof.
  induction caps as [|[i w] caps IH]; [reflexivity|].
  cbn [lower_caps map group fst snd]. destruct (Nat.eqb i n); [reflexivity|exact IH].
Qed.

Lemma mgroup_lower_match (n : nat) (m : rmatch) :
  mgroup n (lower_match m) = option_map to_lower (mgroup n m).
Proof. unfold mgroup, lower_match. cbn [m_caps]. apply group_lower_caps. Qed.

Lemma group_str_lower_match (n : nat) (m : rmatch) :
  group_str n (lower_match m) = to_lower (group_str n m).
Proof.
  unfold group_str. rewrite mgroup_lower_match.
  destruct (mgroup n m); reflexivity.
Qed.

(** ** normalize_date reads its argument up to case and surrounding space *)

Lemma slash_chars (x : text) (m : rmatch) :
  re_fullmatch re_slash x = Some m ->
  forallb (fun c => is_digit c || Ascii.eqb c "/") x = true.
Proof.
  intros H. apply re_fullmatch_sound in H as (caps' & M & _).
  cbn [Matches re_slash seq_of times] in M. break.
  all: rewrite ?forallb_app; cbn [forallb].
  all: repeat match goal with
         | H : forallb is_digit ?x = true |- context [forallb _ ?x] =>
             rewrite (digits_or_slash x H)
         | H : chr "/" ?c = true |- context [Ascii.eqb ?c "/"] =>
             unfold chr in H; rewrite H
         end.
  all: rewrite ?orb_true_r; reflexivity.
Qed.

Lemma plain_of_slash (x : text) :
  forallb (fun c => is_digit c || Ascii.eqb c "/") x = true ->
  forallb (fun c => is_digit c || Ascii.eqb c hyphen || Ascii.eqb c "/") x = true.
Proof.
  apply forallb_impl. intros c H. apply orb_prop in H as [-> | ->];
    rewrite ?orb_true_r; reflexivity.
Qed.

Lemma plain_of_iso (x : text) :
  forallb (fun c => is_digit c || Ascii.eqb c hyphen) x = true ->
  forallb (fun c => is_digit c || Ascii.eqb c hyphen || Ascii.eqb c "/") x = true.
Proof. apply forallb_impl. intros c ->. reflexivity. Qed.

Lemma plain_to_lower (s : text) :
  forallb (fun c => is_digit c || Ascii.eqb c hyphen || Ascii.eqb c "/") s = true ->
  to_lower s = s.
Proof.
  induction s as [|c s IH]; [reflexivity|]. cbn [to_lower map forallb].
  intros H. apply andb_prop in H as [Hc Hs].
  assert (E : lower c = c).
  { apply Ascii.eqb_eq. revert c Hc.
    assert (F : forall c,
               implb (is_digit c || Ascii.eqb c hyphen || Ascii.eqb c "/")
                     (Ascii.eqb (lower c) c) = true)
      by (apply char_fact; vm_compute; reflexivity).
    intros c Hc. specialize (F c). rewrite Hc in F. exact F. }
  rewrite E. f_equal. apply IH; exact Hs.
Qed.

Lemma fromisoformat_lower (s : text) : fromisoformat (to_lower s) = fromisoformat s.
Proof.
  destruct (fromisoformat s) as [d|] eqn:E1.
  - rewrite (plain_to_lower s); [exact E1|].
    apply plain_of_iso. eapply fromisoformat_chars; exact E1.
  - destruct (fromisoformat (to_lower s)) as [d|] eqn:E2; [|reflexivity].
    rewrite (to_lower_plain s) in E2; [congruence|].
    apply plain_of_iso. eapply fromisoformat_chars; exact E2.
Qed.

Lemma re_slash_lower (s : text) :
  re_fullmatch re_slash (to_lower s) = re_fullmatch re_slash s.
Proof.
  destruct (re_fullmatch re_slash s) as [m|] eqn:E1.
  - rewrite (plain_to_lower s); [exact E1|].
    apply plain_of_slash. eapply slash_chars; exact E1.
  - destruct (re_fullmatch re_slash (to_lower s)) as [m|] eqn:E2; [|reflexivity].
    rewrite (to_lower_plain s) in E2; [congruence|].
    apply plain_of_slash. eapply slash_chars; exact E2.
Qed.

Lemma case_blind_month_day : case_blind re_month_day.
Proof.
  cbn [case_blind re_month_day re_opt_year seq_of plus star times].
  repeat match goal with |- _ /\ _ => split end;
    auto using lower_word, lower_space, lower_is_digit, lower_comma.
Qed.

Lemma case_blind_day_month : case_blind re_day_month.
Proof.
  cbn [case_blind re_day_month re_opt_year seq_of plus star times].
  repeat match goal with |- _ /\ _ => split end;
    auto using lower_word, lower_space, lower_is_digit, lower_comma.
Qed.

Lemma month_day_digits (s : text) (m : rmatch) :
  re_fullmatch re_month_day s = Some m ->
  forallb is_digit (group_str 2 m) = true /\
  (forall w, mgroup 3 m = Some w -> forallb is_digit w = true).
Proof.
  intros H. apply re_fullmatch_sound in H as (caps' & M & ->).
  cbn [Matches re_month_day re_opt_year seq_of times plus star] in M. break.
  all: unfold group_str, mgroup; cbn [m_caps group Nat.eqb].
  all: split; [assumption|intros w E; inversion E; subst; assumption].
Qed.

Lemma day_month_digits (s : text) (m : rmatch) :
  re_fullmatch re_day_month s = Some m ->
  forallb is_digit (group_str 1 m) = true /\
  (forall w, mgroup 3 m = Some w -> forallb is_digit w = true).
Proof.
  intros H. apply re_fullmatch_sound in H as (caps' & M & ->).
  cbn [Matches re_day_month re_opt_year seq_of times plus star] in M. break.
  all: unfold group_str, mgroup; cbn [m_caps group Nat.eqb].
  all: split; [assumption|intros w E; inversion E; subst; assumption].
Qed.

Lemma year_or_current_lower (today : date) (m : rmatch) :
  (forall w, mgroup 3 m = Some w -> forallb is_digit w = true) ->
  year_or_current today (lower_match m) = year_or_current today m.
Proof.
  intros H. unfold year_or_current. rewrite mgroup_lower_match.
  destruct (mgroup 3 m) as [w|]; cbn [option_map]; [|reflexivity].
  rewrite (to_lower_digits w (H w eq_refl)). reflexivity.
Qed.

(** Lower-casing the argument does not change the result. *)
Lemma normalize_date_lower (today : date) (raw : text) :
  normalize_date today (to_lower raw) = normalize_date today raw.
Proof.
  unfold normalize_date. rewrite strip_to_lower.
  generalize (strip raw) as s. intros s.
  replace (is_empty (to_lower s)) with (is_empty s) by (destruct s; reflexivity).
  destruct (is_empty s); [reflexivity|].
  rewrite fromisoformat_lower. destruct (fromisoformat s); [reflexivity|].
  rewrite to_lower_to_lower.
  destruct (is_some (re_fullmatch re_quarter (to_lower s))); [reflexivity|].
  destruct (re_fullmatch re_relative (to_lower s)); [reflexivity|].
  destruct (text_eqb (to_lower s) (str "today")); [reflexivity|].
  destruct (text_eqb (to_lower s) (str "tomorrow")); [reflexivity|].
  rewrite re_slash_lower. destruct (re_fullmatch re_slash s); [reflexivity|].
  rewrite (re_fullmatch_lower re_month_day s case_blind_month_day).
  rewrite (re_fullmatch_lower re_day_month s case_blind_day_month).
  assert (HB :
    match option_map lower_match (re_fullmatch re_day_month s) with
    | Some m_day_month =>
        match dict_get _MONTH_NAMES (to_lower (group_str 2 m_day_month)) with
        | Some month =>
            Some (iso_or_empty (year_or_current today m_day_month) month
                    (int_of (group_str 1 m_day_month)))
        | None => None
        end
    | None => None
    end =
    match re_fullmatch re_day_month s with
    | Some m_day_month =>
        match dict_get _MONTH_NAMES (to_lower (group_str 2 m_day_month)) with
        | Some month =>
            Some (iso_or_empty (year_or_current today m_day_month) month
                    (int_of (group_str 1 m_day_month)))
        | None => None
        end
    | None => None
    end).
  { destruct (re_fullmatch re_day_month s) as [m|] eqn:E; cbn [option_map];
      [|reflexivity].
    destruct (day_month_digits s m E) as [D1 D3].
    rewrite !group_str_lower_match, to_lower_to_lower.
    rewrite (to_lower_digits _ D1), (year_or_current_lower today m D3).
    reflexivity. }
  destruct (re_fullmatch re_month_day s) as [m|] eqn:E; cbn [option_map].
  - destruct (month_day_digits s m E) as [D2 D3].
    rewrite !group_str_lower_match, to_lower_to_lower.
    rewrite (to_lower_digits _ D2), (year_or_current_lower today m D3).
    destruct (dict_get _MONTH_NAMES (to_lower (group_str 1 m))); [reflexivity|].
    cbv zeta in HB |- *. rewrite HB. reflexivity.
  - cbv zeta in HB |- *. rewrite HB. reflexivity.
Qed.

Lemma normalize_date_strip (today : date) (raw : text) :
  normalize_date today (strip raw) = normalize_date today raw.
Proof. unfold normalize_date. rewrite strip_strip. reflexivity. Qed.

(** The class [iso_char] is closed under change of case. *)
Lemma iso_char_lower (c : ascii) : iso_char (lower c) = iso_char c.
Proof. apply eqb_prop. revert c. apply char_fact. vm_compute. reflexivity. Qed.

Lemma forallb_iso_lower (s : text) :
  forallb iso_char (to_lower s) = forallb iso_char s.
Proof.
  induction s as [|c s IH]; [reflexivity|].
  cbn [to_lower map forallb]. rewrite iso_char_lower. f_equal. exact IH.
Qed.

(** A text with a character outside [iso_char] is no ISO date. *)
Lemma fromisoformat_iso_chars (s : text) :
  forallb iso_char s = false -> fromisoformat s = None.
Proof.
  intros H. destruct (fromisoformat s) as [d|] eqn:E; [|reflexivity].
  apply fromisoformat_chars in E.
  assert (F : forallb iso_char s = true); [|congruence].
  apply forallb_forall. intros c Hc. rewrite forallb_forall in E.
  specialize (E c Hc). cbv beta in E.
  assert (I : implb (is_digit c || Ascii.eqb c hyphen) (iso_char c) = true)
    by (apply (char_fact (fun x => implb (is_digit x || Ascii.eqb x hyphen) (iso_char x)));
        vm_compute; reflexivity).
  rewrite E in I. exact I.
Qed.

(** X5: [normalize_date] reads its argument up to case and surrounding white
    space: two strings that agree once stripped and lower-cased have the same
    result, provided they hold some character other than a digit, a hyphen
    and the letter W: [date.fromisoformat], which takes its argument as it
    is written, then refuses both. *)
Theorem normalize_date_case_insensitive (today : date) (a b : text) :
  to_lower (strip a) = to_lower (strip b) ->
  forallb iso_char (strip a) = false ->
  fromisoformat (strip a) = None /\ fromisoformat (strip b) = None /\
  normalize_date today a = normalize_date today b.
Proof.
  intros H Ha.
  assert (Hb : forallb iso_char (strip b) = false)
    by (rewrite <- forallb_iso_lower, <- H, forallb_iso_lower; exact Ha).
  split; [exact (fromisoformat_iso_chars _ Ha)|].
  split; [exact (fromisoformat_iso_chars _ Hb)|].
  rewrite <- (normalize_date_strip today a), <- (normalize_date_strip today b).
  rewrite <- (normalize_date_lower today (strip a)).
  rewrite <- (normalize_date_lower today (strip b)).
  rewrite H. reflexivity.
Qed.

Lemma normalize_date_case_insensitive_witness :
  fromisoformat (strip (str "  FEBRUARY 14, 2027 ")) = None /\
  fromisoformat (strip (str "February 14, 2027")) = None /\
  normalize_date (mkDate 2026 2 6) (str "  FEBRUARY 14, 2027 ")
  = normalize_date (mkDate 2026 2 6) (str "February 14, 2027").
Proof.
  apply (normalize_date_case_insensitive (mkDate 2026 2 6)).
  - vm_compute. reflexivity.
  - vm_compute. reflexivity.
Defined.

(** ** normalize_date on its own results *)

Lemma normalize_date_isoformat (today d : date) :
  valid_date d = true -> normalize_date today (isoformat d) = Ok (isoformat d).
Proof.
  intros V. unfold normalize_date. rewrite strip_isoformat.
  rewrite fromisoformat_isoformat by exact V.
  rewrite isoformat_shape at 1. reflexivity.
Qed.

(** X6: [normalize_date] is idempotent, and its results are absolute: a
    result, given back under any reference date, is returned unchanged. *)
Theorem normalize_date_idempotent (today : date) (raw r : text) :
  valid_date today = true -> normalize_date today raw = Ok r ->
  forall today', normalize_date today' r = Ok r.
Proof.
  intros V H today'.
  destruct (normalize_date_shape today raw r V H) as [->|(y & m & d & Vd & ->)].
  - reflexivity.
  - apply (normalize_date_isoformat today' (mkDate y m d)). exact Vd.
Qed.

Lemma normalize_date_idempotent_witness :
  normalize_date (mkDate 2031 7 1) (str "2026-02-13") = Ok (str "2026-02-13").
Proof.
  apply (normalize_date_idempotent (mkDate 2026 2 6) (str "next Friday")).
  - vm_compute. reflexivity.
  - vm_compute. reflexivity.
Defined.

(** ** "today" and "tomorrow" *)

Lemma normalize_date_word (today : date) (raw : text) (w : string) :
  to_lower (strip raw) = str w ->
  normalize_date today raw = normalize_date today (str w).
Proof.
  intros H. rewrite <- (normalize_date_strip today raw).
  rewrite <- (normalize_date_lower today (strip raw)), H. reflexivity.
Qed.

Lemma normalize_date_today (today : date) :
  normalize_date today (str "today") = Ok (isoformat today).
Proof.
  unfold normalize_date.
  assert (S : strip (str "today") = str "today") by (vm_compute; reflexivity).
  assert (F : fromisoformat (str "today") = None) by (vm_compute; reflexivity).
  assert (L : to_lower (str "today") = str "today") by (vm_compute; reflexivity).
  assert (Q : re_fullmatch re_quarter (str "today") = None) by (vm_compute; reflexivity).
  assert (R : re_fullmatch re_relative (str "today") = None) by (vm_compute; reflexivity).
  rewrite S, F, L, Q, R. reflexivity.
Qed.

Lemma normalize_date_tomorrow (today : date) :
  normalize_date today (str "tomorrow") =
  (result <- add_days today 1 ;; Ok (isoformat result)).
Proof.
  unfold normalize_date.
  assert (S : strip (str "tomorrow") = str "tomorrow") by (vm_compute; reflexivity).
  assert (F : fromisoformat (str "tomorrow") = None) by (vm_compute; reflexivity).
  assert (L : to_lower (str "tomorrow") = str "tomorrow") by (vm_compute; reflexivity).
  assert (Q : re_fullmatch re_quarter (str "tomorrow") = None) by (vm_compute; reflexivity).
  assert (R : re_fullmatch re_relative (str "tomorrow") = None) by (vm_compute; reflexivity).
  rewrite S, F, L, Q, R. reflexivity.
Qed.

Lemma next_day_none (d : date) :
  valid_date d = true -> next_day d = None -> d = mkDate 9999 12 31.
Proof.
  unfold valid_date. destruct d as [y m dd]; cbn [year month day].
  intros V; apply valid_ymd_iff in V as (Hy & Hm & Hd).
  unfold next_day; cbn [year month day].
  destruct (Z.ltb_spec dd (days_in_month y m)); [discriminate|].
  destruct (Z.ltb_spec m 12); [discriminate|].
  destruct (Z.ltb_spec y MAXYEAR); [discriminate|]. intros _.
  unfold MAXYEAR, MINYEAR in *.
  assert (m = 12) by lia; subst m. cbn [days_in_month] in *.
  f_equal; lia.
Qed.

(** X7: ["today"] and ["tomorrow"], in any case and with surrounding white
    space, give the reference date and the day after it; ["tomorrow"] raises
    [OverflowError] on the last day of the calendar, 9999-12-31, and only
    then. *)
Theorem normalize_date_today_tomorrow (today : date) (raw : text) :
  valid_date today = true ->
  (to_lower (strip raw) = str "today" ->
   normalize_date today raw = Ok (isoformat today)) /\
  (to_lower (strip raw) = str "tomorrow" ->
   match next_day today with
   | Some d =>
       normalize_date today raw = Ok (isoformat d) /\
       valid_date d = true /\ toordinal d = toordinal today + 1
   | None => normalize_date today raw = Raised /\ today = mkDate 9999 12 31
   end).
Proof.
  intros V. split; intros H.
  - rewrite (normalize_date_word today raw "today" H). apply normalize_date_today.
  - rewrite (normalize_date_word today raw "tomorrow" H), normalize_date_tomorrow.
    cbn [add_days]. destruct (next_day today) as [d|] eqn:E; cbn [bind].
    + split; [reflexivity|]. apply next_day_spec; assumption.
    + split; [reflexivity|]. apply next_day_none; assumption.
Qed.

Lemma normalize_date_today_tomorrow_witness :
  normalize_date (mkDate 2026 2 28) (str " Tomorrow ") = Ok (str "2026-03-01") /\
  normalize_date (mkDate 2026 2 28) (str "TODAY") = Ok (str "2026-02-28").
Proof.
  destruct (normalize_date_today_tomorrow (mkDate 2026 2 28) (str " Tomorrow "))
    as [_ H1]; [vm_compute; reflexivity|].
  destruct (normalize_date_today_tomorrow (mkDate 2026 2 28) (str "TODAY"))
    as [H2 _]; [vm_compute; reflexivity|].
  split.
  - apply H1. vm_compute. reflexivity.
  - apply H2. vm_compute. reflexivity.
Defined.

(** ** The priority of a line *)

Lemma chr_ci_p_word (c : ascii) : chr_ci "P" c = true -> is_word c = true.
Proof.
  revert c.
  assert (F : forall c, implb (chr_ci "P" c) (is_word c) = true)
    by (apply char_fact; vm_compute; reflexivity).
  intros c H. specialize (F c). rewrite H in F. exact F.
Qed.

Lemma chr_ci_colon_word (c : ascii) : chr_ci ":" c = true -> is_word c = false.
Proof.
  revert c.
  assert (F : forall c, implb (chr_ci ":" c) (negb (is_word c)) = true)
    by (apply char_fact; vm_compute; reflexivity).
  intros c H. specialize (F c). rewrite H in F. apply negb_true_iff. exact F.
Qed.

Lemma word_before_spaces (c : ascii) (ws : text) :
  is_word c = false -> forallb is_space ws = true ->
  word_before (last_of (Some c) ws) = false.
Proof.
  intros Hc Hws. destruct ws as [|a ws'].
  - exact Hc.
  - destruct (last_of_forallb is_space (a :: ws') (Some c) Hws) as (e & -> & He);
      [cbn; lia|].
    cbn. apply space_not_word. exact He.
Qed.

(** A priority tag between word boundaries is found by the token pattern. *)
Lemma token_at (pre post : text) (p d : ascii) :
  chr_ci "P" p = true -> one_of (str "012") d = true ->
  word_before (last_of None pre) = false ->
  xorb (word_before (Some d)) (word_after post) = true ->
  occurs re_priority_token (pre ++ [p; d] ++ post).
Proof.
  intros Hp Hd Hb Hend.
  exists pre, [p; d], post, [(1%nat, [p; d])]. split; [reflexivity|].
  cbn [Matches re_priority_token seq_of re_ptag].
  exists [], [p; d], []. split; [reflexivity|].
  split; [right; split; reflexivity|].
  exists [], [p; d], []. split; [reflexivity|].
  split.
  { split; [reflexivity|]. split; [|reflexivity].
    cbn [last_of fold_left app word_after]. fold (last_of None pre).
    rewrite Hb, (chr_ci_p_word p Hp). reflexivity. }
  exists [p; d], [], [(1%nat, [p; d])]. split; [reflexivity|].
  split.
  { exists []. split; [|reflexivity].
    exists [p], [d], []. split; [reflexivity|].
    split; (split; [eexists; split; [reflexivity|assumption]|reflexivity]). }
  exists [], [], [(1%nat, [p; d])]. split; [reflexivity|].
  split.
  { split; [reflexivity|]. split; [|reflexivity].
    cbn [last_of fold_left app]. exact Hend. }
  right. split; reflexivity.
Qed.

Lemma label_implies_token (line : text) :
  occurs re_priority_label line -> occurs re_priority_token line.
Proof.
  intros (pre & w & post & caps' & -> & M).
  cbn [Matches re_priority_label seq_of lit_ci map str list_ascii_of_string star re_ptag] in M.
  break.
  match goal with H : xorb _ _ = true |- _ =>
    cbn [last_of fold_left app] in H; rename H into Hend end.
  match goal with
  | Hp : chr_ci "P" ?p = true, Hd : one_of _ ?d = true,
    Hc : chr_ci ":" ?c = true, Hs : forallb is_space ?ws = true
    |- occurs _ (_ ++ (?head ++ ?ws ++ ([?p] ++ [?d]) ++ []) ++ _) =>
      replace (pre ++ (head ++ ws ++ ([p] ++ [d]) ++ []) ++ post)
        with ((pre ++ head ++ ws) ++ [p; d] ++ post)
        by (cbn [app]; rewrite <- !app_assoc; reflexivity);
      apply (token_at _ post p d Hp Hd); [|exact Hend];
      rewrite app_assoc, last_of_app;
      replace (last_of None (pre ++ head)) with (Some c)
        by (rewrite last_of_app; reflexivity);
      apply word_before_spaces; [|exact Hs];
      apply chr_ci_colon_word; exact Hc
  end.
Qed.

(** X10: the second pattern of [_extract_priority], ["Priority: P<n>"], never
    decides the result: wherever it matches, the first pattern has matched
    already, so the priority is that of the first [P0]/[P1]/[P2] token
    between word boundaries, or ["normal"] when there is none. *)
Theorem priority_label_redundant (line : text) :
  _extract_priority line =
  match re_search re_priority_token line with
  | Some m => priority_of m
  | None => str "normal"
  end.
Proof.
  unfold _extract_priority.
  destruct (re_search re_priority_token line) as [m|] eqn:E; [reflexivity|].
  assert (N : re_search re_priority_label line = None).
  { apply re_search_none. intros O. apply label_implies_token in O.
    apply re_search_none in E. contradiction. }
  rewrite N. reflexivity.
Qed.

(** ** sort_items and the formatters *)

Section SortedLists.
Context {T K : Type} `{CompareLaws K}.
Variable f : T -> K.

Lemma le_by_antisym (a b : K) : le_by a b = true -> le_by b a = true -> a = b.
Proof.
  unfold le_by. rewrite (compare_antisym a b).
  destruct (compare a b) eqn:E; cbn; try discriminate.
  intros _ _. apply compare_eq. exact E.
Qed.

Lemma insert_by_least (x : T) (l : list T) :
  Forall (fun y => le_by (f x) (f y) = true) l -> insert_by f x l = x :: l.
Proof.
  destruct l as [|y l]; [reflexivity|]. intros F.
  apply Forall_inv in F. cbn [insert_by]. rewrite F. reflexivity.
Qed.

(** Sorting a sorted list changes nothing. *)
Lemma sorted_by_id (l : list T) :
  StronglySorted (fun a b => le_by (f a) (f b) = true) l -> sorted_by f l = l.
Proof.
  induction 1 as [|x l S IH F]; [reflexivity|].
  cbn [sorted_by]. rewrite IH. apply insert_by_least. exact F.
Qed.

Lemma key_inj (l : list T) :
  NoDup (map f l) -> forall a b, In a l -> In b l -> f a = f b -> a = b.
Proof.
  induction l as [|x l IH]; cbn [map]; intros N a b Ha Hb E; [contradiction|].
  apply NoDup_cons_iff in N as [Nx N].
  destruct Ha as [<-|Ha], Hb as [<-|Hb]; auto.
  - exfalso. apply Nx. rewrite E. apply in_map. exact Hb.
  - exfalso. apply Nx. rewrite <- E. apply in_map. exact Ha.
Qed.

(** Two sorted lists with the same elements, no two of them with the same
    key, are equal. *)
Lemma sorted_unique (l1 : list T) :
  forall l2,
    StronglySorted (fun a b => le_by (f a) (f b) = true) l1 ->
    StronglySorted (fun a b => le_by (f a) (f b) = true) l2 ->
    Permutation l1 l2 -> NoDup (map f l1) -> l1 = l2.
Proof.
  induction l1 as [|x t1 IH]; intros l2 S1 S2 P N.
  - apply Permutation_nil in P. congruence.
  - destruct l2 as [|y t2]; [apply Permutation_sym, Permutation_nil in P; discriminate|].
    assert (E : x = y).
    { assert (Hx : In x (y :: t2)) by (eapply Permutation_in; [exact P|left; reflexivity]).
      assert (Hy : In y (x :: t1))
        by (eapply Permutation_in; [symmetry; exact P|left; reflexivity]).
      destruct Hx as [->|Hx]; [reflexivity|].
      destruct Hy as [->|Hy]; [reflexivity|].
      apply StronglySorted_inv in S1 as [_ F1]. apply StronglySorted_inv in S2 as [_ F2].
      rewrite Forall_forall in F1, F2.
      apply (key_inj (x :: t1) N); [left; reflexivity|right; exact Hy|].
      apply le_by_antisym; auto. }
    subst y. f_equal.
    apply StronglySorted_inv in S1 as [S1 _]. apply StronglySorted_inv in S2 as [S2 _].
    cbn [map] in N. apply NoDup_cons_iff in N as [_ N].
    apply IH; auto. eapply Permutation_cons_inv; exact P.
Qed.

Lemma sorted_by_order_independent (a b : list T) :
  Permutation a b -> NoDup (map f a) -> sorted_by f a = sorted_by f b.
Proof.
  intros P N. apply sorted_unique.
  - apply sorted_by_sorted.
  - apply sorted_by_sorted.
  - rewrite !sorted_by_perm. exact P.
  - eapply Permutation_NoDup; [|exact N].
    apply Permutation_map. symmetry. apply sorted_by_perm.
Qed.
End SortedLists.

Lemma NoDup_map_through {X Y Z : Type} (f : X -> Y) (h : Y -> Z) (l : list X) :
  NoDup (map (fun x => h (f x)) l) -> NoDup (map f l).
Proof.
  induction l as [|x l IH]; cbn [map]; intros N; [constructor|].
  apply NoDup_cons_iff in N as [Nx N]. constructor; [|apply IH; exact N].
  intros I. apply Nx. apply in_map_iff in I as (x' & E & I').
  apply in_map_iff. exists x'. split; [rewrite E; reflexivity|exact I'].
Qed.

Lemma distinct_sort_keys (items : list ActionItem) :
  NoDup (map (fun it => (to_lower (owner it), due_date it)) items) ->
  NoDup (map _sort_key items).
Proof.
  apply (NoDup_map_through _sort_key (fun k => (snd (fst (fst k)), snd k))).
Qed.

(** X13: sorting is idempotent: a list that [sort_items] returned is left as
    it is by [sort_items]. *)
Theorem sort_items_idempotent (items : list ActionItem) :
  sort_items (sort_items items) = sort_items items.
Proof. unfold sort_items. apply sorted_by_id, sorted_by_sorted. Qed.

(** X14: when no two items agree on both the lower-cased owner and the due
    date, the result of [sort_items] does not depend on the order of its
    input. *)
Theorem sort_items_order_independent (a b : list ActionItem) :
  Permutation a b ->
  NoDup (map (fun it => (to_lower (owner it), due_date it)) a) ->
  sort_items a = sort_items b.
Proof.
  intros P N. unfold sort_items.
  apply sorted_by_order_independent; [exact P|]. apply distinct_sort_keys. exact N.
Qed.

Lemma sort_items_order_independent_witness :
  let a := mkActionItem (str "Task A") (str "Alice") (str "2026-02-10") (str "normal") [] in
  let b := mkActionItem (str "Task B") (str "bob") [] (str "high") [] in
  let c := mkActionItem (str "Task C") (str "Alice") [] (str "normal") [] in
  sort_items [c; a; b] = sort_items [a; b; c].
Proof.
  cbv zeta. apply sort_items_order_independent.
  - apply (Permutation_cons_append [_; _]).
  - vm_compute. repeat constructor; cbn [In]; intuition discriminate.
Defined.

(** X15: both formatters render the sorted list, so that with items of
    pairwise distinct (lower-cased owner, due date) the Markdown and JSON
    documents do not depend on the order in which the items are given. *)
Theorem formatters_order_independent (a b : list ActionItem) :
  Permutation a b ->
  NoDup (map (fun it => (to_lower (owner it), due_date it)) a) ->
  format_markdown a = format_markdown b /\ format_json a = format_json b.
Proof.
  intros P N. unfold format_markdown, format_json.
  replace (sort_items b) with (sort_items a); [split; reflexivity|].
  unfold sort_items.
  apply sorted_by_order_independent; [exact P|]. apply distinct_sort_keys. exact N.
Qed.

Lemma formatters_order_independent_witness :
  let a := mkActionItem (str "Task A") (str "Alice") (str "2026-02-10") (str "normal") [] in
  let b := mkActionItem (str "Task B") (str "bob") [] (str "high") [] in
  format_markdown [a; b] = format_markdown [b; a] /\
  format_json [a; b] = format_json [b; a].
Proof.
  cbv zeta. apply formatters_order_independent.
  - apply perm_swap.
  - vm_compute. repeat constructor; cbn [In]; intuition discriminate.
Defined.

(** ** The JSON document can be read back *)

Lemma char_fact2 (f : ascii -> ascii -> bool) :
  forallb (fun a => forallb (f a) all_chars) all_chars = true ->
  forall a b, f a b = true.
Proof.
  intros H a b. rewrite forallb_forall in H.
  specialize (H a (all_chars_complete a)). rewrite forallb_forall in H.
  apply H, all_chars_complete.
Qed.

(** No escape sequence is the beginning of another one. *)
Lemma escape_char_prefix (c1 c2 : ascii) :
  firstn (length (escape_char c1)) (escape_char c2) = escape_char c1 -> c1 = c2.
Proof.
  intros H. apply Ascii.eqb_eq. revert H.
  assert (F : forall a b,
             implb (text_eqb (firstn (length (escape_char a)) (escape_char b))
                             (escape_char a))
                   (Ascii.eqb a b) = true)
    by (apply char_fact2; vm_compute; reflexivity).
  intros H. specialize (F c1 c2). apply text_eqb_eq in H. rewrite H in F. exact F.
Qed.

Lemma firstn_prefix {T : Type} (e1 e2 r1 r2 : list T) :
  e1 ++ r1 = e2 ++ r2 -> (length e1 <= length e2)%nat ->
  firstn (length e1) e2 = e1.
Proof.
  intros E L.
  assert (X : firstn (length e1) (e1 ++ r1) = firstn (length e1) (e2 ++ r2))
    by (rewrite E; reflexivity).
  rewrite !firstn_app, firstn_all, Nat.sub_diag in X.
  replace (length e1 - length e2)%nat with 0%nat in X by lia.
  cbn [firstn] in X. rewrite !app_nil_r in X. symmetry. exact X.
Qed.

Lemma escape_char_inj (c1 c2 : ascii) (r1 r2 : text) :
  escape_char c1 ++ r1 = escape_char c2 ++ r2 -> c1 = c2 /\ r1 = r2.
Proof.
  intros E.
  assert (C : c1 = c2).
  { destruct (Nat.le_ge_cases (length (escape_char c1)) (length (escape_char c2))) as [L|L].
    - apply escape_char_prefix. eapply firstn_prefix; eassumption.
    - symmetry. apply escape_char_prefix. eapply firstn_prefix; [symmetry|]; eassumption. }
  subst c2. split; [reflexivity|]. eapply app_inv_head; exact E.
Qed.

(** An escape sequence never begins with the closing quote. *)
Lemma escape_char_head (c : ascii) (r t : text) :
  escape_char c ++ r <> quote :: t.
Proof.
  assert (F : forall a,
             match escape_char a with
             | h :: _ => negb (Ascii.eqb h quote)
             | [] => false
             end = true)
    by (apply char_fact; vm_compute; reflexivity).
  specialize (F c). destruct (escape_char c) as [|h tl]; [discriminate|].
  cbn [app]. intros E. injection E as -> _.
  rewrite Ascii.eqb_refl in F. discriminate.
Qed.

Lemma escaped_inj (s1 : text) :
  forall s2 t1 t2,
    flat_map escape_char s1 ++ quote :: t1 = flat_map escape_char s2 ++ quote :: t2 ->
    s1 = s2 /\ t1 = t2.
Proof.
  induction s1 as [|c1 s1 IH]; intros [|c2 s2] t1 t2; cbn [flat_map app].
  - intros E; injection E as ->. auto.
  - rewrite <- app_assoc. intros E. symmetry in E. apply escape_char_head in E. contradiction.
  - rewrite <- app_assoc. intros E. apply escape_char_head in E. contradiction.
  - rewrite <- !app_assoc. intros E. apply escape_char_inj in E as [-> E].
    apply IH in E as [-> ->]. auto.
Qed.

(** A string literal can be read back: it determines the string and where
    it ends. *)
Lemma encode_basestring_inj (s1 s2 t1 t2 : text) :
  encode_basestring s1 ++ t1 = encode_basestring s2 ++ t2 -> s1 = s2 /\ t1 = t2.
Proof.
  unfold encode_basestring. cbn [app]. rewrite <- !app_assoc. cbn [app].
  intros E; injection E as E. apply escaped_inj. exact E.
Qed.

Lemma sort_keys_asdict (it : ActionItem) :
  sort_keys (asdict it) =
  JDict [(str "due_date", JString (due_date it));
         (str "owner", JString (owner it));
         (str "priority", JString (priority it));
         (str "raw_line", JString (raw_line it));
         (str "task", JString (task it))].
Proof. reflexivity. Qed.

Lemma encode_item (it : ActionItem) (t : text) :
  encode 2 (sort_keys (asdict it)) ++ t = item_fields it t.
Proof.
  rewrite sort_keys_asdict. unfold item_fields.
  cbn [encode map join]. rewrite <- !app_assoc. reflexivity.
Qed.

Lemma item_fields_inj (a b : ActionItem) (t1 t2 : text) :
  item_fields a t1 = item_fields b t2 -> a = b /\ t1 = t2.
Proof.
  unfold item_fields. intros E.
  repeat (apply app_inv_head in E).
  apply encode_basestring_inj in E as [E1 E]. apply app_inv_head in E.
  apply encode_basestring_inj in E as [E2 E]. apply app_inv_head in E.
  apply encode_basestring_inj in E as [E3 E]. apply app_inv_head in E.
  apply encode_basestring_inj in E as [E4 E]. apply app_inv_head in E.
  apply encode_basestring_inj in E as [E5 E]. apply app_inv_head in E.
  split; [|exact E].
  destruct a as [a1 a2 a3 a4 a5], b as [b1 b2 b3 b4 b5].
  cbn [task owner due_date priority raw_line] in *. congruence.
Qed.

Lemma items_inj (la : list ActionItem) :
  forall lb t1 t2,
    la <> [] -> lb <> [] ->
    join (str "," ++ newline_indent 2)
         (map (encode 2) (map sort_keys (map asdict la))) ++ newline_indent 1 ++ t1 =
    join (str "," ++ newline_indent 2)
         (map (encode 2) (map sort_keys (map asdict lb))) ++ newline_indent 1 ++ t2 ->
    la = lb /\ t1 = t2.
Proof.
  induction la as [|x la IH]; intros lb t1 t2 Ha Hb E; [congruence|].
  destruct lb as [|y lb]; [congruence|].
  cbn [map join] in E.
  destruct la as [|x' la], lb as [|y' lb]; cbn [map] in E.
  - rewrite !encode_item in E. apply item_fields_inj in E as [-> E].
    apply app_inv_head in E. auto.
  - rewrite <- app_assoc, !encode_item in E. apply item_fields_inj in E as [_ E].
    discriminate E.
  - rewrite <- app_assoc, !encode_item in E. apply item_fields_inj in E as [_ E].
    discriminate E.
  - rewrite <- !app_assoc, !encode_item in E. apply item_fields_inj in E as [-> E].
    repeat (apply app_inv_head in E).
    destruct (IH (y' :: lb) t1 t2) as [E' ->];
      [discriminate|discriminate|cbn [map]; exact E|].
    rewrite E'. auto.
Qed.

Lemma format_json_eq (items : list ActionItem) :
  format_json items =
  str "{" ++ newline_indent 1 ++ encode_basestring (str "action_items") ++ str ": " ++
  encode 1 (JList (map sort_keys (map asdict (sort_items items)))) ++
  str "," ++ newline_indent 1 ++ encode_basestring (str "count") ++ str ": " ++
  repr_int (Z.of_nat (length (sort_items items))) ++ newline_indent 0 ++ str "}" ++
  [newline].
Proof.
  unfold format_json, json_dumps.
  change (sort_keys
            (JDict [(str "action_items", JList (map asdict (sort_items items)));
                    (str "count", JInt (Z.of_nat (length (sort_items items))))]))
    with (JDict [(str "action_items", JList (map sort_keys (map asdict (sort_items items))));
                 (str "count", JInt (Z.of_nat (length (sort_items items))))]).
  cbn [encode map join]. rewrite <- !app_assoc. reflexivity.
Qed.

Lemma sorted_lists_inj (sa sb : list ActionItem) (t1 t2 : text) :
  encode 1 (JList (map sort_keys (map asdict sa))) ++ str "," ++ t1 =
  encode 1 (JList (map sort_keys (map asdict sb))) ++ str "," ++ t2 ->
  sa = sb.
Proof.
  destruct sa as [|x sa], sb as [|y sb]; cbn [encode map]; intros E.
  - reflexivity.
  - discriminate E.
  - discriminate E.
  - rewrite <- !app_assoc in E. repeat (apply app_inv_head in E).
    apply (items_inj (x :: sa) (y :: sb)) in E as [E _]; [exact E| |]; discriminate.
Qed.

(** X16: the JSON document determines the sorted list of items: two inputs
    with the same document have the same sorted list, field by field
    (string literals are escaped so that they can be read back). *)
Theorem format_json_faithful (a b : list ActionItem) :
  format_json a = format_json b -> sort_items a = sort_items b.
Proof.
  rewrite !format_json_eq. intros E.
  repeat (apply app_inv_head in E).
  apply sorted_lists_inj in E. exact E.
Qed.

Lemma format_json_faithful_witness :
  let a := mkActionItem (str "Task A") (str "Alice") (str "2026-02-10") (str "normal") [] in
  let b := mkActionItem (str "Task B") (str "bob") [] (str "high") [] in
  sort_items [a; b] = sort_items [b; a].
Proof.
  cbv zeta. apply format_json_faithful. vm_compute. reflexivity.
Defined.

(** ** Month-name dates *)

(** Two runs of a class that both end where the class ends are the same. *)
Lemma span_unique (p : ascii -> bool) (a1 : text) :
  forall a2 r1 r2,
    forallb p a1 = true -> forallb p a2 = true ->
    a1 ++ r1 = a2 ++ r2 ->
    (forall c t, r1 = c :: t -> p c = false) ->
    (forall c t, r2 = c :: t -> p c = false) ->
    a1 = a2 /\ r1 = r2.
Proof.
  induction a1 as [|c a1 IH]; intros [|d a2] r1 r2 H1 H2 E S1 S2; cbn [app] in E.
  - auto.
  - cbn [forallb] in H2. apply andb_prop in H2 as [Hd _].
    rewrite (S1 _ _ E) in Hd. discriminate.
  - cbn [forallb] in H1. apply andb_prop in H1 as [Hc _].
    rewrite (S2 _ _ (eq_sym E)) in Hc. discriminate.
  - injection E as -> E. cbn [forallb] in H1, H2.
    apply andb_prop in H1 as [_ H1]. apply andb_prop in H2 as [_ H2].
    destruct (IH a2 r1 r2 H1 H2 E S1 S2) as [-> ->]. auto.
Qed.

Lemma month_names_entry (s : text) (m : Z) :
  dict_get _MONTH_NAMES s = Some m ->
  1 <= m <= 12 /\ forallb is_lower s = true /\ (3 <= length s)%nat /\
  s <> str "next".
Proof.
  intros H. apply dict_get_in in H.
  cbn [_MONTH_NAMES map fst snd In] in H.
  repeat (destruct H as [H|H]; [injection H as <- <-; repeat split;
                                 try lia; try discriminate; try (cbn; lia);
                                 vm_compute; reflexivity|]).
  contradiction.
Qed.

(** A word whose lower-case form is a month name: letters only. *)
Lemma month_word (w : text) (m : Z) :
  dict_get _MONTH_NAMES (to_lower w) = Some m ->
  1 <= m <= 12 /\ forallb is_alpha w = true /\ (3 <= length w)%nat /\
  to_lower w <> str "next".
Proof.
  intros H. apply month_names_entry in H as (Hm & Hl & Hn & Hx).
  rewrite to_lower_length in Hn. repeat split; try lia; auto.
  clear - Hl. induction w as [|c w IH]; [reflexivity|].
  cbn [to_lower map forallb] in *. apply andb_prop in Hl as [Hc Hl].
  rewrite (lower_is_lower c Hc). apply IH; exact Hl.
Qed.

Lemma alpha_not_digit (c : ascii) : is_alpha c = true -> is_digit c = false.
Proof.
  revert c.
  assert (F : forall c, implb (is_alpha c) (negb (is_digit c)) = true)
    by (apply char_fact; vm_compute; reflexivity).
  intros c H. specialize (F c). rewrite H in F. apply negb_true_iff. exact F.
Qed.

Lemma digit_word (c : ascii) : is_digit c = true -> is_word c = true.
Proof. unfold is_word. intros ->. reflexivity. Qed.

Lemma space_not_digit (c : ascii) : is_space c = true -> is_digit c = false.
Proof.
  intros H. destruct (is_digit c) eqn:E; [|reflexivity].
  apply digit_not_space in E. congruence.
Qed.

Lemma head_of (p : ascii -> bool) (s : text) :
  forallb p s = true -> s <> [] -> exists c t, s = c :: t /\ p c = true.
Proof.
  destruct s as [|c t]; [congruence|]. cbn [forallb]. intros H _.
  apply andb_prop in H as [H _]. eauto.
Qed.

(** The head of a separator is white space or a comma. *)
Lemma year_separator_head (sep : text) :
  year_separator sep ->
  exists c t, sep = c :: t /\ is_digit c = false /\ is_word c = false.
Proof.
  intros (Hne & a & b & Ha & Hb & [E|E]); subst sep.
  - destruct (head_of is_space (a ++ b)) as (c & t & E & Hc);
      [rewrite forallb_app, Ha, Hb; reflexivity|exact Hne|].
    exists c, t. rewrite E. auto using space_not_digit, space_not_word.
  - destruct a as [|c a].
    + cbn [app str list_ascii_of_string]. eexists _, _. split; [reflexivity|].
      split; reflexivity.
    + cbn [forallb] in Ha. apply andb_prop in Ha as [Hc _]. cbn [app].
      exists c, (a ++ str "," ++ b). auto using space_not_digit, space_not_word.
Qed.

Lemma last_of_nonempty (p : option ascii) (s : text) :
  s <> [] -> last_of p s = last_of None s.
Proof.
  intros H. destruct (exists_last H) as (b & e & ->).
  rewrite !last_of_app. reflexivity.
Qed.

(** [(?:\s*,?\s*(\d{4}))?] on a separator and a year. *)
Lemma opt_year_match {A : Type} (sep ys : text) (prev : option ascii)
    (caps : captures) (k : option ascii -> text -> captures -> option A) (x : A) :
  year_separator sep -> digits_4 ys ->
  k (last_of None ys) [] ((3%nat, ys) :: caps) = Some x ->
  run re_opt_year prev (sep ++ ys) caps k = Some x.
Proof.
  intros (Hne & a & b & Ha & Hb & E) [Hy Ly] Hk.
  destruct (head_of is_digit ys Hy) as (d & yt & Ey & Hd);
    [destruct ys; [discriminate|congruence]|].
  assert (Hyear : forall prev',
             rep is_digit 4 (Some 4%nat) prev' ys
               (fun prev'' s'' => k prev'' s'' ((3%nat, consumed ys s'') :: caps)) = Some x).
  { intros prev'. apply rep_greedy_end; [exact Hy|lia|cbn; lia|].
    rewrite consumed_nil, last_of_nonempty; [exact Hk|].
    rewrite Ey; discriminate. }
  assert (Htail : forall prev' u,
             forallb is_space u = true ->
             rep is_space 0 None prev' (u ++ ys)
               (fun prev'' s'' =>
                  run (Grp 3 (times is_digit 4 4)) prev'' s'' caps k) = Some x).
  { intros prev' u Hu.
    apply rep_greedy; [exact Hu|lia|exact I| |].
    - rewrite Ey. apply stops_before, digit_not_space; exact Hd.
    - cbn [run times]. apply Hyear. }
  unfold re_opt_year. cbn [run seq_of star].
  destruct E as [E|E]; subst sep.
  - erewrite (rep_greedy is_space (a ++ b) 0 None prev ys); [reflexivity| | | | |].
    + rewrite forallb_app, Ha, Hb; reflexivity.
    + lia.
    + exact I.
    + rewrite Ey. apply stops_before, digit_not_space; exact Hd.
    + rewrite Ey at 1. unfold chr at 1.
      rewrite (digit_neq d "," Hd eq_refl).
      apply (Htail _ []). reflexivity.
  - rewrite <- app_assoc.
    erewrite (rep_greedy is_space a 0 None prev (str "," ++ b ++ ys));
      [reflexivity|exact Ha|lia|exact I|apply stops_before; reflexivity|].
    cbn [str list_ascii_of_string app]. unfold chr at 1.
    cbn [Ascii.eqb Bool.eqb andb].
    rewrite (Htail _ b Hb). reflexivity.
Qed.

Lemma opt_year_none {A : Type} (prev : option ascii) (caps : captures)
    (k : option ascii -> text -> captures -> option A) :
  run re_opt_year prev [] caps k = k prev [] caps.
Proof. reflexivity. Qed.

Lemma opt_year_accept (s tail : text) (caps3 : captures) (prev : option ascii)
    (caps : captures) :
  year_tail tail caps3 ->
  run re_opt_year prev tail caps (accept_end s) =
  Some (mkMatch s [] (last_of prev tail) (caps3 ++ caps)).
Proof.
  intros [[-> ->]|(sep & ys & -> & Hs & Hy & ->)].
  - rewrite opt_year_none. reflexivity.
  - eapply opt_year_match; eauto. unfold accept_end. cbn [app].
    rewrite last_of_app, (last_of_nonempty (last_of prev sep) ys); [reflexivity|].
    destruct Hy as [_ L]. destruct ys; [discriminate|congruence].
Qed.

Lemma year_tail_head (p : ascii -> bool) (hi : option nat) (w tail : text)
    (caps3 : captures) :
  year_tail tail caps3 ->
  (forall c, is_digit c = false -> is_word c = false -> p c = false) ->
  stops_after p hi w tail.
Proof.
  intros [[-> _]|(sep & ys & -> & Hs & _)] Hp; [apply stops_at_end|].
  destruct (year_separator_head sep Hs) as (c & t & -> & Hd & Hw).
  cbn [app]. apply stops_before. apply Hp; assumption.
Qed.

Lemma month_day_match (w ws ds tail : text) (caps3 : captures) :
  forallb is_word w = true -> w <> [] ->
  forallb is_space ws = true -> ws <> [] ->
  digits_1_2 ds -> year_tail tail caps3 ->
  exists m, re_fullmatch re_month_day (w ++ ws ++ ds ++ tail) = Some m /\
            m_caps m = caps3 ++ [(2%nat, ds); (1%nat, w)].
Proof.
  intros Hw Nw Hs Ns [Hd Ld] Ht.
  destruct (head_of is_space ws Hs Ns) as (c1 & t1 & E1 & Hc1).
  destruct (head_of is_digit ds Hd) as (c2 & t2 & E2 & Hc2);
    [destruct ds; [cbn in Ld; lia|congruence]|].
  eexists. split.
  - rewrite re_fullmatch_eq. cbn [run re_month_day seq_of plus times].
    apply (rep_greedy is_word w 1 None None (ws ++ ds ++ tail));
      [exact Hw|destruct w; [congruence|cbn; lia]|exact I| |].
    { rewrite E1. apply stops_before, space_not_word; exact Hc1. }
    rewrite consumed_app.
    apply (rep_greedy is_space ws 1 None _ (ds ++ tail));
      [exact Hs|destruct ws; [congruence|cbn; lia]|exact I| |].
    { rewrite E2. apply stops_before, digit_not_space; exact Hc2. }
    apply (rep_greedy is_digit ds 1 (Some 2%nat) _ tail);
      [exact Hd|lia|cbn; lia| |].
    { eapply year_tail_head; [exact Ht|]. intros c Hc _. exact Hc. }
    rewrite consumed_app. apply opt_year_accept. exact Ht.
  - reflexivity.
Qed.

Lemma day_month_match (ds ws w tail : text) (caps3 : captures) :
  digits_1_2 ds -> forallb is_space ws = true -> ws <> [] ->
  forallb is_word w = true -> w <> [] ->
  year_tail tail caps3 ->
  exists m, re_fullmatch re_day_month (ds ++ ws ++ w ++ tail) = Some m /\
            m_caps m = caps3 ++ [(2%nat, w); (1%nat, ds)].
Proof.
  intros [Hd Ld] Hs Ns Hw Nw Ht.
  destruct (head_of is_space ws Hs Ns) as (c1 & t1 & E1 & Hc1).
  destruct (head_of is_word w Hw Nw) as (c2 & t2 & E2 & Hc2).
  eexists. split.
  - rewrite re_fullmatch_eq. cbn [run re_day_month seq_of plus times].
    apply (rep_greedy is_digit ds 1 (Some 2%nat) None (ws ++ w ++ tail));
      [exact Hd|lia|cbn; lia| |].
    { rewrite E1. apply stops_before, space_not_digit; exact Hc1. }
    rewrite consumed_app.
    apply (rep_greedy is_space ws 1 None _ (w ++ tail));
      [exact Hs|destruct ws; [congruence|cbn; lia]|exact I| |].
    { rewrite E2. apply stops_before, word_not_space; exact Hc2. }
    apply (rep_greedy is_word w 1 None _ tail);
      [exact Hw|destruct w; [congruence|cbn; lia]|exact I| |].
    { eapply year_tail_head; [exact Ht|]. intros c _ Hc. exact Hc. }
    rewrite consumed_app. apply opt_year_accept. exact Ht.
  - reflexivity.
Qed.

Lemma alpha_plain (a : ascii) :
  is_alpha a = true ->
  is_digit a || Ascii.eqb a hyphen = false /\ is_digit a || Ascii.eqb a "/" = false.
Proof.
  revert a.
  assert (F : forall a,
             implb (is_alpha a)
                   (negb (is_digit a || Ascii.eqb a hyphen)
                    && negb (is_digit a || Ascii.eqb a "/")) = true)
    by (apply char_fact; vm_compute; reflexivity).
  intros a H. specialize (F a). rewrite H in F. cbn [implb] in F.
  apply andb_prop in F as [F1 F2].
  split; apply negb_true_iff; assumption.
Qed.

Lemma quarter_chars (c : ascii) :
  chr "q" c || one_of (str "1234") c = true -> is_space c = false.
Proof.
  revert c.
  assert (F : forall c,
             implb (chr "q" c || one_of (str "1234") c) (negb (is_space c)) = true)
    by (apply char_fact; vm_compute; reflexivity).
  intros c H. specialize (F c). rewrite H in F. apply negb_true_iff. exact F.
Qed.

Lemma in_to_lower (c : ascii) (s : text) : In c s -> In (lower c) (to_lower s).
Proof. apply in_map. Qed.

Lemma no_space_neq (s : text) (w : string) (sp : ascii) :
  In sp s -> is_space sp = true ->
  forallb (fun c => negb (is_space c)) (str w) = true ->
  text_eqb s (str w) = false.
Proof.
  intros Hin Hsp Hw. apply text_eqb_neq. intros E. subst s.
  rewrite forallb_forall in Hw. specialize (Hw sp Hin).
  rewrite Hsp in Hw. discriminate.
Qed.

(** What a string with a letter and a white-space character in it is not:
    an ISO date, a quarter, ["today"], ["tomorrow"] or a slash date. *)
Lemma named_date_facts (raw : text) (a sp : ascii) :
  In a raw -> is_alpha a = true -> In sp raw -> is_space sp = true ->
  fromisoformat raw = None /\
  re_fullmatch re_quarter (to_lower raw) = None /\
  text_eqb (to_lower raw) (str "today") = false /\
  text_eqb (to_lower raw) (str "tomorrow") = false /\
  re_fullmatch re_slash raw = None.
Proof.
  intros Ha Aa Hs Ss. destruct (alpha_plain a Aa) as [P1 P2].
  assert (Hl : In (lower sp) (to_lower raw)) by (apply in_to_lower; exact Hs).
  assert (Sl : is_space (lower sp) = true) by (rewrite lower_space; exact Ss).
  repeat match goal with |- _ /\ _ => split end.
  - apply (fromisoformat_none raw a Ha P1).
  - destruct (re_fullmatch re_quarter (to_lower raw)) as [m|] eqn:E; [|reflexivity].
    apply re_fullmatch_sound in E as (caps' & M & _).
    cbn [Matches re_quarter seq_of] in M. break.
    match goal with H : _ = [?c1] ++ [?c2] |- _ => rewrite H in Hl end.
    cbn [app In] in Hl. destruct Hl as [E1|[E1|[]]]; rewrite <- E1 in Sl.
    + match goal with H : chr "q" _ = true |- _ =>
        rewrite (quarter_chars _ (proj2 (orb_true_iff _ _) (or_introl H))) in Sl end.
      discriminate.
    + match goal with H : one_of _ _ = true |- _ =>
        rewrite (quarter_chars _ (proj2 (orb_true_iff _ _) (or_intror H))) in Sl end.
      discriminate.
  - eapply no_space_neq; [exact Hl|exact Sl|reflexivity].
  - eapply no_space_neq; [exact Hl|exact Sl|reflexivity].
  - destruct (re_fullmatch re_slash raw) as [m|] eqn:E; [|reflexivity].
    apply slash_chars in E. rewrite forallb_forall in E.
    rewrite (E a Ha) in P2. discriminate.
Qed.

Lemma starts_with (p q : ascii -> bool) (x y : text) :
  forallb q x = true -> x <> [] -> (forall c, q c = true -> p c = false) ->
  forall c t, x ++ y = c :: t -> p c = false.
Proof.
  intros Hx Nx Hqp c t E. destruct x as [|c' x]; [congruence|].
  cbn [app] in E. injection E as -> _. cbn [forallb] in Hx.
  apply andb_prop in Hx as [Hc _]. apply Hqp. exact Hc.
Qed.

Lemma nonempty_length (s : text) : (1 <= length s)%nat -> s <> [].
Proof. destruct s; cbn; [lia|discriminate]. Qed.

Lemma relative_shape (s : text) (m : rmatch) :
  re_fullmatch re_relative s = Some m ->
  exists S W, s = str "next" ++ S ++ W /\ forallb is_space S = true /\ S <> [].
Proof.
  intros E. apply re_fullmatch_sound in E as (caps' & M & _).
  cbn [Matches re_relative seq_of lit map str list_ascii_of_string plus] in M. break.
  repeat match goal with H : chr _ _ = true |- _ => apply chr_eq in H; subst end.
  match goal with
  | HS : forallb is_space ?S = true, HL : (1 <= length ?S)%nat |- context [?S ++ ?W] =>
      exists S, W; split; [reflexivity|]; split; [exact HS|apply nonempty_length; exact HL]
  end.
Qed.

(** A word that is not ["next"], followed by white space, does not begin a
    relative date. *)
Lemma relative_none_word (w ws rest : text) :
  forallb is_word w = true -> to_lower w <> str "next" ->
  forallb is_space ws = true -> ws <> [] ->
  re_fullmatch re_relative (to_lower (w ++ ws ++ rest)) = None.
Proof.
  intros Hw Hx Hs Ns.
  destruct (re_fullmatch re_relative (to_lower (w ++ ws ++ rest))) as [m|] eqn:E;
    [|reflexivity].
  apply relative_shape in E as (S & W & E & HS & NS).
  rewrite !to_lower_app in E.
  assert (H1 : forallb is_word (to_lower w) = true)
    by (rewrite to_lower_word; exact Hw).
  assert (H2 : forallb is_space (to_lower ws) = true).
  { clear - Hs. induction ws as [|c ws IH]; [reflexivity|].
    cbn [to_lower map forallb] in *. apply andb_prop in Hs as [Hc Hs].
    rewrite lower_space, Hc. apply IH; exact Hs. }
  assert (N2 : to_lower ws <> []) by (destruct ws; [congruence|discriminate]).
  destruct (span_unique is_word (to_lower w) (str "next")
              (to_lower ws ++ to_lower rest) (S ++ W) H1 eq_refl E) as [X _].
  - apply (starts_with is_word is_space (to_lower ws)); auto using space_not_word.
  - apply (starts_with is_word is_space S); auto using space_not_word.
  - contradiction.
Qed.

Lemma relative_none_digit (c : ascii) (t : text) :
  is_digit c = true -> re_fullmatch re_relative (to_lower (c :: t)) = None.
Proof.
  intros Hc.
  destruct (re_fullmatch re_relative (to_lower (c :: t))) as [m|] eqn:E; [|reflexivity].
  apply relative_shape in E as (S & W & E & _).
  cbn [to_lower map str list_ascii_of_string app] in E. injection E as E _.
  rewrite (lower_digit c Hc) in E. subst c. discriminate.
Qed.

(** Day first: the pattern with the month first does not match. *)
Lemma month_day_none (ds ws w tail : text) :
  forallb is_digit ds = true ->
  forallb is_space ws = true -> ws <> [] ->
  forallb is_alpha w = true -> w <> [] ->
  re_fullmatch re_month_day (ds ++ ws ++ w ++ tail) = None.
Proof.
  intros Hd Hs Ns Hw Nw.
  destruct (re_fullmatch re_month_day (ds ++ ws ++ w ++ tail)) as [m|] eqn:E;
    [|reflexivity].
  apply re_fullmatch_sound in E as (caps' & M & _).
  cbn [Matches re_month_day seq_of plus times] in M.
  destruct M as (W & r1 & c1 & E1 & (? & ((HW & LW & _) & ->) & _) & M).
  destruct M as (S & r2 & c2 & -> & ((HS & LS & _) & ->) & M).
  destruct M as (D & r3 & c3 & -> & (? & ((HD & LD & _) & ->) & _) & _).
  assert (NS : S <> []) by (apply nonempty_length; exact LS).
  assert (ND : D <> []) by (apply nonempty_length; exact LD).
  assert (Hdw : forallb is_word ds = true)
    by (eapply forallb_impl; [apply digit_word|exact Hd]).
  destruct (span_unique is_word ds W (ws ++ w ++ tail) (S ++ D ++ r3) Hdw HW E1)
    as [_ E2].
  { apply (starts_with is_word is_space ws); auto using space_not_word. }
  { apply (starts_with is_word is_space S); auto using space_not_word. }
  destruct (span_unique is_space ws S (w ++ tail) (D ++ r3) Hs HS E2) as [_ E3].
  { apply (starts_with is_space is_alpha w); auto using alpha_not_space. }
  { apply (starts_with is_space is_digit D); auto using digit_not_space. }
  destruct w as [|a w]; [congruence|]. destruct D as [|d D]; [congruence|].
  cbn [app] in E3. injection E3 as -> _. cbn [forallb] in Hw, HD.
  apply andb_prop in Hw as [Ha _]. apply andb_prop in HD as [Hd' _].
  rewrite (alpha_not_digit _ Ha) in Hd'. discriminate.
Qed.

Lemma tail_last (X tail : text) (caps3 : captures) (prev : option ascii) :
  forallb is_word X = true -> X <> [] -> year_tail tail caps3 ->
  is_space_opt (last_of prev (X ++ tail)) = false.
Proof.
  intros HX NX [[-> _]|(sep & ys & -> & _ & [Hy Ly] & _)].
  - rewrite app_nil_r.
    destruct (last_of_forallb is_word X prev HX) as (e & -> & He);
      [destruct X; [congruence|cbn; lia]|].
    cbn. apply word_not_space. exact He.
  - rewrite !app_assoc, last_of_app. apply digits_last; [exact Hy|lia].
Qed.

Lemma year_of_tail (today : date) (tail : text) (caps3 caps : captures) (m : rmatch) :
  year_tail tail caps3 -> m_caps m = caps3 ++ caps -> group 3 caps = None ->
  year_or_current today m =
  match caps3 with (_, ys) :: _ => int_of ys | [] => year today end.
Proof.
  intros [[_ ->]|(sep & ys & _ & _ & [Hy Ly] & ->)] Hm Hg;
    unfold year_or_current, mgroup; rewrite Hm; cbn [app group Nat.eqb].
  - rewrite Hg. reflexivity.
  - destruct ys; [discriminate|reflexivity].
Qed.

Lemma groups_of_tail (tail : text) (caps3 caps : captures) (m : rmatch) (n : nat) :
  year_tail tail caps3 -> m_caps m = caps3 ++ caps -> n <> 3%nat ->
  mgroup n m = group n caps.
Proof.
  intros [[_ ->]|(sep & ys & _ & _ & _ & ->)] Hm Hn;
    unfold mgroup; rewrite Hm; cbn [app group]; [reflexivity|].
  destruct (Nat.eqb_spec 3 n); [congruence|reflexivity].
Qed.

(** Pattern A of the month-name branch: a month name, white space, a day
    and possibly a year. *)
Lemma normalize_month_day (today : date) (w ws ds tail : text) (caps3 : captures)
    (month : Z) :
  dict_get _MONTH_NAMES (to_lower w) = Some month ->
  forallb is_space ws = true -> ws <> [] -> digits_1_2 ds ->
  year_tail tail caps3 ->
  normalize_date today (w ++ ws ++ ds ++ tail) =
  Ok (iso_or_empty
        match caps3 with (_, ys) :: _ => int_of ys | [] => year today end
        month (int_of ds)).
Proof.
  intros Hmonth Hs Ns Hds Ht. pose proof Hds as [Hd Ld].
  destruct (month_word w month Hmonth) as (_ & Ha & Lw & Hx).
  assert (Hw : forallb is_word w = true)
    by (eapply forallb_impl; [apply alpha_word|exact Ha]).
  assert (Nw : w <> []) by (apply nonempty_length; lia).
  destruct (head_of is_alpha w Ha Nw) as (a & wt & Ew & Aa).
  destruct (head_of is_space ws Hs Ns) as (sp & st & Es & Ss).
  set (raw := w ++ ws ++ ds ++ tail).
  assert (Hstrip : strip raw = raw).
  { apply strip_id.
    - subst raw. rewrite Ew. cbn. apply alpha_not_space; exact Aa.
    - subst raw. rewrite !app_assoc, <- (app_assoc _ ds tail), last_of_app.
      apply (tail_last ds tail caps3); [|apply nonempty_length; lia|exact Ht].
      eapply forallb_impl; [apply digit_word|exact Hd]. }
  assert (Hina : In a raw) by (subst raw; rewrite Ew; left; reflexivity).
  assert (Hins : In sp raw).
  { subst raw. apply in_or_app. right. rewrite Es. left. reflexivity. }
  destruct (named_date_facts raw a sp Hina Aa Hins Ss) as (F1 & F2 & F3 & F4 & F5).
  assert (F6 : re_fullmatch re_relative (to_lower raw) = None)
    by (apply relative_none_word; assumption).
  destruct (month_day_match w ws ds tail caps3 Hw Nw Hs Ns Hds Ht) as (m & Hm & Hc).
  unfold normalize_date. rewrite Hstrip.
  replace (is_empty raw) with false by (subst raw; rewrite Ew; reflexivity).
  rewrite F1, F2, F6, F3, F4, F5. cbn [is_some]. cbv zeta. subst raw. rewrite Hm.
  unfold group_str.
  rewrite (groups_of_tail tail caps3 _ m 1 Ht Hc), (groups_of_tail tail caps3 _ m 2 Ht Hc)
    by discriminate.
  cbn [group Nat.eqb]. rewrite Hmonth.
  rewrite (year_of_tail today tail caps3 _ m Ht Hc eq_refl). reflexivity.
Qed.

(** Pattern B: a day, white space, a month name and possibly a year. *)
Lemma normalize_day_month (today : date) (ds ws w tail : text) (caps3 : captures)
    (month : Z) :
  dict_get _MONTH_NAMES (to_lower w) = Some month ->
  forallb is_space ws = true -> ws <> [] -> digits_1_2 ds ->
  year_tail tail caps3 ->
  normalize_date today (ds ++ ws ++ w ++ tail) =
  Ok (iso_or_empty
        match caps3 with (_, ys) :: _ => int_of ys | [] => year today end
        month (int_of ds)).
Proof.
  intros Hmonth Hs Ns Hds Ht. pose proof Hds as [Hd Ld].
  destruct (month_word w month Hmonth) as (_ & Ha & Lw & Hx).
  assert (Hw : forallb is_word w = true)
    by (eapply forallb_impl; [apply alpha_word|exact Ha]).
  assert (Nw : w <> []) by (apply nonempty_length; lia).
  assert (Nd : ds <> []) by (apply nonempty_length; lia).
  destruct (head_of is_alpha w Ha Nw) as (a & wt & Ew & Aa).
  destruct (head_of is_space ws Hs Ns) as (sp & st & Es & Ss).
  destruct (head_of is_digit ds Hd Nd) as (d & dt & Ed & Dd).
  set (raw := ds ++ ws ++ w ++ tail).
  assert (Hstrip : strip raw = raw).
  { apply strip_id.
    - subst raw. rewrite Ed. cbn. apply digit_not_space; exact Dd.
    - subst raw. rewrite !app_assoc, <- (app_assoc _ w tail), last_of_app.
      apply (tail_last w tail caps3); assumption. }
  assert (Hina : In a raw).
  { subst raw. apply in_or_app. right. apply in_or_app. right.
    rewrite Ew. left. reflexivity. }
  assert (Hins : In sp raw).
  { subst raw. apply in_or_app. right. rewrite Es. left. reflexivity. }
  destruct (named_date_facts raw a sp Hina Aa Hins Ss) as (F1 & F2 & F3 & F4 & F5).
  assert (F6 : re_fullmatch re_relative (to_lower raw) = None).
  { subst raw. rewrite Ed. apply relative_none_digit. exact Dd. }
  assert (F7 : re_fullmatch re_month_day raw = None)
    by (apply month_day_none; assumption).
  destruct (day_month_match ds ws w tail caps3 Hds Hs Ns Hw Nw Ht) as (m & Hm & Hc).
  unfold normalize_date. rewrite Hstrip.
  replace (is_empty raw) with false by (subst raw; rewrite Ed; reflexivity).
  rewrite F1, F2, F6, F3, F4, F5, F7. cbn [is_some]. cbv zeta. subst raw. rewrite Hm.
  unfold group_str.
  rewrite (groups_of_tail tail caps3 _ m 1 Ht Hc), (groups_of_tail tail caps3 _ m 2 Ht Hc)
    by discriminate.
  cbn [group Nat.eqb]. rewrite Hmonth.
  rewrite (year_of_tail today tail caps3 _ m Ht Hc eq_refl). reflexivity.
Qed.

Lemma year_tail_none : year_tail [] [].
Proof. left. split; reflexivity. Qed.

Lemma year_tail_some (sep ys : text) :
  year_separator sep -> digits_4 ys -> year_tail (sep ++ ys) [(3%nat, ys)].
Proof. intros Hs Hy. right. exists sep, ys. auto. Qed.

(** X8: month-name dates with the month first.  For a word [w] whose
    lower-case form is a key of [_MONTH_NAMES], ["<w> <D>"] is day [D] of that
    month in the current year, and ["<w> <D>, <YYYY>"] (white space, with at
    most one comma, before the year) is that day in the year written;
    [iso_or_empty] is [""] when there is no such calendar date. *)
Theorem month_day_dates (today : date) (w ws ds : text) (month : Z) :
  dict_get _MONTH_NAMES (to_lower w) = Some month ->
  forallb is_space ws = true -> ws <> [] -> digits_1_2 ds ->
  normalize_date today (w ++ ws ++ ds)
  = Ok (iso_or_empty (year today) month (int_of ds)) /\
  (forall sep ys,
     year_separator sep -> digits_4 ys ->
     normalize_date today (w ++ ws ++ ds ++ sep ++ ys)
     = Ok (iso_or_empty (int_of ys) month (int_of ds))).
Proof.
  intros Hm Hs Ns Hd. split.
  - pose proof (normalize_month_day today w ws ds [] [] month Hm Hs Ns Hd
                  year_tail_none) as H.
    rewrite app_nil_r in H. exact H.
  - intros sep ys Hsep Hy.
    apply (normalize_month_day today w ws ds (sep ++ ys) [(3%nat, ys)] month);
      auto using year_tail_some.
Qed.

Lemma month_day_dates_witness :
  normalize_date (mkDate 2026 2 6) (str "Feb 14") = Ok (str "2026-02-14") /\
  normalize_date (mkDate 2026 2 6) (str "Feb 29, 2028") = Ok (str "2028-02-29") /\
  normalize_date (mkDate 2026 2 6) (str "Feb 29") = Ok [].
Proof.
  destruct (month_day_dates (mkDate 2026 2 6) (str "Feb") (str " ") (str "14") 2)
    as [H1 _]; [reflexivity|reflexivity|discriminate|split; [reflexivity|cbn; lia]|].
  destruct (month_day_dates (mkDate 2026 2 6) (str "Feb") (str " ") (str "29") 2)
    as [H2 H3]; [reflexivity|reflexivity|discriminate|split; [reflexivity|cbn; lia]|].
  split; [exact H1|]. split; [|exact H2].
  apply (H3 (str ", ") (str "2028")).
  - split; [discriminate|]. exists [], (str " "). repeat split. right. reflexivity.
  - split; reflexivity.
Defined.

(** X9: month-name dates with the day first.  ["<D> <w>"] and
    ["<D> <w> <YYYY>"] are read like the dates with the month first: the
    pattern for those does not match, and the second pattern gives the same
    calendar date. *)
Theorem day_month_dates (today : date) (w ws ds : text) (month : Z) :
  dict_get _MONTH_NAMES (to_lower w) = Some month ->
  forallb is_space ws = true -> ws <> [] -> digits_1_2 ds ->
  normalize_date today (ds ++ ws ++ w)
  = Ok (iso_or_empty (year today) month (int_of ds)) /\
  (forall sep ys,
     year_separator sep -> digits_4 ys ->
     normalize_date today (ds ++ ws ++ w ++ sep ++ ys)
     = Ok (iso_or_empty (int_of ys) month (int_of ds))).
Proof.
  intros Hm Hs Ns Hd. split.
  - pose proof (normalize_day_month today ds ws w [] [] month Hm Hs Ns Hd
                  year_tail_none) as H.
    rewrite app_nil_r in H. exact H.
  - intros sep ys Hsep Hy.
    apply (normalize_day_month today ds ws w (sep ++ ys) [(3%nat, ys)] month);
      auto using year_tail_some.
Qed.

Lemma day_month_dates_witness :
  normalize_date (mkDate 2026 2 6) (str "14 March") = Ok (str "2026-03-14") /\
  normalize_date (mkDate 2026 2 6) (str "14 March 2027") = Ok (str "2027-03-14").
Proof.
  destruct (day_month_dates (mkDate 2026 2 6) (str "March") (str " ") (str "14") 3)
    as [H1 H2]; [reflexivity|reflexivity|discriminate|split; [reflexivity|cbn; lia]|].
  split; [exact H1|].
  apply (H2 (str " ") (str "2027")).
  - split; [discriminate|]. exists (str " "), []. repeat split. left. reflexivity.
  - split; reflexivity.
Defined.

(** ** The classifier *)





Lemma chr_ci_lower (a c : ascii) : chr_ci a (lower c) = chr_ci a c.
Proof. unfold chr_ci. rewrite lower_lower. reflexivity. Qed.

Lemma lower_alpha_eq (c : ascii) : is_alpha (lower c) = is_alpha c.
Proof. apply eqb_prop. revert c. apply char_fact. vm_compute. reflexivity. Qed.

Lemma lower_dot (c : ascii) : dot (lower c) = dot c.
Proof. apply eqb_prop. revert c. apply char_fact. vm_compute. reflexivity. Qed.

(** A character that is not a letter is the lower-case form of itself only. *)
Lemma chr_lower (a c : ascii) :
  is_alpha a = false -> (code a < 128)%N -> chr a (lower c) = chr a c.
Proof.
  revert a c.
  assert (F : forall a c,
             implb (negb (is_alpha a) && N.ltb (code a) 128)
                   (Bool.eqb (chr a (lower c)) (chr a c)) = true)
    by (apply char_fact2; vm_compute; reflexivity).
  intros a c Ha Hc. specialize (F a c). rewrite Ha in F.
  assert (X : N.ltb (code a) 128 = true) by (apply N.ltb_lt; lia).
  rewrite X in F. apply eqb_prop. exact F.
Qed.

Ltac solve_case_blind :=
  cbn [case_blind seq_of alt_of lit lit_ci map str list_ascii_of_string
       star plus times];
  repeat match goal with |- _ /\ _ => split end;
  try exact I;
  intros c; apply eqb_prop; revert c; apply char_fact; vm_compute; reflexivity.







Lemma case_blind_decision : case_blind _RE_DECISION.
Proof. unfold _RE_DECISION. solve_case_blind. Qed.

Lemma to_lower_unassigned : to_lower unassigned = unassigned.
Proof. reflexivity. Qed.













(** ** Single-line fields and the lines of the Markdown document *)

Section Characters.
Variable P : ascii -> bool.

(** The groups of a match hold characters of the matched text only. *)
Lemma Matches_chars (r : regex) :
  forall prev w s' caps caps',
    Matches r prev w s' caps caps' -> forallb P w = true ->
    caps_within P caps -> caps_within P caps'.
Proof.
  induction r as [|p|p lo hi|r1 IH1 r2 IH2|r1 IH1 r2 IH2|r1 IH1|n r1 IH1| | |];
    cbn [Matches]; intros prev w s' caps caps' M Hw Hc.
  - destruct M as [_ ->]. exact Hc.
  - destruct M as [_ ->]. exact Hc.
  - destruct M as [_ ->]. exact Hc.
  - destruct M as (w1 & w2 & cm & -> & M1 & M2).
    rewrite forallb_app in Hw. apply andb_prop in Hw as [H1 H2].
    eapply IH2; [exact M2|exact H2|]. eapply IH1; eassumption.
  - destruct M as [M|M]; [eapply IH1|eapply IH2]; eassumption.
  - destruct M as [M|[_ ->]]; [eapply IH1; eassumption|exact Hc].
  - destruct M as (cm & M & ->). constructor; [exact Hw|].
    eapply IH1; eassumption.
  - destruct M as (_ & _ & ->). exact Hc.
  - destruct M as (_ & _ & ->). exact Hc.
  - destruct M as (_ & _ & ->). exact Hc.
Qed.

Lemma group_chars (n : nat) (caps : captures) (w : text) :
  caps_within P caps -> group n caps = Some w -> forallb P w = true.
Proof.
  induction 1 as [|[i v] caps Hv Hc IH]; cbn [group]; [discriminate|].
  destruct (Nat.eqb i n); [intros E; injection E as <-; exact Hv|exact IH].
Qed.

Lemma forallb_parts (a b c : text) :
  forallb P (a ++ b ++ c) = true ->
  forallb P a = true /\ forallb P b = true /\ forallb P c = true.
Proof.
  rewrite !forallb_app. intros H. apply andb_prop in H as [Ha H].
  apply andb_prop in H as [Hb Hc]. auto.
Qed.

Lemma re_search_chars (r : regex) (s : text) (m : rmatch) (n : nat) (w : text) :
  re_search r s = Some m -> forallb P s = true -> mgroup n m = Some w ->
  forallb P w = true.
Proof.
  intros H Hs Hg. apply re_search_sound in H as (pre & v & s' & caps' & -> & M & ->).
  apply forallb_parts in Hs as (_ & Hv & _).
  eapply group_chars; [|exact Hg]. cbn [m_caps].
  eapply Matches_chars; [exact M|exact Hv|constructor].
Qed.

Lemma re_match_chars (r : regex) (s : text) (m : rmatch) (n : nat) (w : text) :
  re_match r s = Some m -> forallb P s = true -> mgroup n m = Some w ->
  forallb P w = true.
Proof.
  intros H Hs Hg. apply re_match_sound in H as (v & s' & caps' & -> & M & ->).
  rewrite forallb_app in Hs. apply andb_prop in Hs as [Hv _].
  eapply group_chars; [|exact Hg]. cbn [m_caps].
  eapply Matches_chars; [exact M|exact Hv|constructor].
Qed.

Lemma group_str_search_chars (r : regex) (s : text) (m : rmatch) (n : nat) :
  re_search r s = Some m -> forallb P s = true -> forallb P (group_str n m) = true.
Proof.
  intros H Hs. unfold group_str. destruct (mgroup n m) as [w|] eqn:E; [|reflexivity].
  eapply re_search_chars; eassumption.
Qed.

Lemma group_str_match_chars (r : regex) (s : text) (m : rmatch) (n : nat) :
  re_match r s = Some m -> forallb P s = true -> forallb P (group_str n m) = true.
Proof.
  intros H Hs. unfold group_str. destruct (mgroup n m) as [w|] eqn:E; [|reflexivity].
  eapply re_match_chars; eassumption.
Qed.

(** [re.sub] puts together characters of its argument and of the
    replacement. *)
Lemma sub_from_chars (r : regex) (repl : text) (fuel : nat) :
  forallb P repl = true ->
  forall prev s, forallb P s = true -> forallb P (sub_from fuel r repl prev s) = true.
Proof.
  intros Hr. induction fuel as [|fuel IH]; intros prev s Hs; [exact Hs|].
  cbn [sub_from].
  assert (Hstep : forallb P match s with
                            | [] => []
                            | c :: t => c :: sub_from fuel r repl (Some c) t
                            end = true).
  { destruct s as [|c t]; [reflexivity|]. cbn [forallb] in *.
    apply andb_prop in Hs as [Hc Ht]. rewrite Hc. apply IH. exact Ht. }
  destruct (run r prev s [] (accept s)) as [m|] eqn:E; [|exact Hstep].
  apply run_sound in E as (w & s' & caps' & -> & _ & E).
  unfold accept in E. injection E as <-. cbn [m_rest m_prev].
  rewrite forallb_app in Hs. apply andb_prop in Hs as [_ Hs'].
  destruct (Nat.ltb (length s') (length (w ++ s')));
    rewrite forallb_app, Hr; [apply IH; exact Hs'|exact Hstep].
Qed.

Lemma re_sub_chars (r : regex) (repl s : text) :
  forallb P repl = true -> forallb P s = true -> forallb P (re_sub r repl s) = true.
Proof. intros Hr Hs. rewrite re_sub_eq. apply sub_from_chars; assumption. Qed.

Lemma lstrip_by_chars (p : ascii -> bool) (s : text) :
  forallb P s = true -> forallb P (lstrip_by p s) = true.
Proof.
  induction s as [|c t IH]; [reflexivity|]. intros H. cbn [lstrip_by].
  destruct (p c); [|exact H]. apply IH. cbn [forallb] in H.
  apply andb_prop in H as [_ H]. exact H.
Qed.

Lemma rstrip_by_chars (p : ascii -> bool) (s : text) :
  forallb P s = true -> forallb P (rstrip_by p s) = true.
Proof.
  intros H. unfold rstrip_by. rewrite forallb_rev_eq. apply lstrip_by_chars.
  rewrite forallb_rev_eq. exact H.
Qed.

Lemma strip_chars (s : text) : forallb P s = true -> forallb P (strip s) = true.
Proof. intros H. unfold strip. apply rstrip_by_chars, lstrip_by_chars, H. Qed.

Hypothesis P_space : P " "%char = true.

(** The cleaner puts together characters of its argument and spaces. *)
Lemma clean_chars (t : text) :
  forallb P t = true -> forallb P (_clean_task_text t) = true.
Proof.
  intros H. unfold _clean_task_text, tidy.
  apply strip_chars, rstrip_by_chars, strip_chars.
  apply re_sub_chars; [cbn; rewrite P_space; reflexivity|].
  repeat (apply re_sub_chars; [reflexivity|]). exact H.
Qed.

Hypothesis P_unassigned : forallb P unassigned = true.

Lemma classify_chars (line : text) (t o : text) :
  forallb P line = true -> classify line = (Some t, o) ->
  forallb P t = true /\ forallb P o = true.
Proof.
  intros Hl. unfold classify.
  destruct (re_match _RE_TODO line) as [m1|] eqn:E1;
    destruct (re_match _RE_ACTION line) as [m2|] eqn:E2;
    destruct (re_match _RE_ACTION_ITEM line) as [m3|] eqn:E3;
    destruct (re_match _RE_REMINDER line) as [m4|] eqn:E4;
    destruct (re_match _RE_NAME_TO_VERB line) as [m5|] eqn:E5;
    repeat match goal with
           | |- context [mgroup 1 ?m] => destruct (mgroup 1 m) eqn:?
           end;
    try destruct (is_some (re_search _RE_PRIORITY_TAG line));
    intros E; inversion E; subst; clear E;
    (split;
     [first [ exact Hl
            | match goal with
              | H : mgroup 1 ?m = Some ?t, E : re_match _ line = Some ?m
                |- forallb P ?t = true =>
                  exact (re_match_chars _ line m 1 t E Hl H)
              end
            | apply strip_chars; rewrite forallb_app;
              rewrite !(group_str_match_chars _ line m5 _ E5 Hl); reflexivity ]
     |first [ exact P_unassigned
            | exact (group_str_match_chars _ line m5 1 E5 Hl) ]]).
Qed.

Lemma _extract_owner_chars (line : text) :
  forallb P line = true -> forallb P (_extract_owner line) = true.
Proof.
  intros Hl. unfold _extract_owner.
  destruct (re_search re_owner_label line) as [m|] eqn:E1.
  { apply strip_chars. eapply group_str_search_chars; eassumption. }
  destruct (re_search re_owner_paren line) as [m|] eqn:E2.
  { apply strip_chars. eapply group_str_search_chars; eassumption. }
  destruct (is_some (re_search re_no_owner line)); exact P_unassigned.
Qed.
End Characters.

Lemma digit_single (c : ascii) : is_digit c = true -> negb (is_linebreak c) = true.
Proof.
  revert c.
  assert (F : forall c, implb (is_digit c) (negb (is_linebreak c)) = true)
    by (apply char_fact; vm_compute; reflexivity).
  intros c H. specialize (F c). rewrite H in F. exact F.
Qed.

Lemma single_line_isoformat (d : date) : single_line (isoformat d) = true.
Proof.
  rewrite isoformat_shape. unfold single_line. cbn [forallb].
  rewrite !(digit_single _ (is_digit_digit_char _)). reflexivity.
Qed.

Lemma single_line_iso_or_empty (y m d : Z) : single_line (iso_or_empty y m d) = true.
Proof.
  unfold iso_or_empty. destruct (make_date y m d); [apply single_line_isoformat|reflexivity].
Qed.

Lemma normalize_date_single_line (today : date) (raw r : text) :
  normalize_date today raw = Ok r -> single_line r = true.
Proof.
  unfold normalize_date. intros H.
  destruct (is_empty (strip raw)); [injection H as <-; reflexivity|].
  destruct (fromisoformat (strip raw)) as [parsed|];
    [injection H as <-; apply single_line_isoformat|].
  destruct (is_some (re_fullmatch re_quarter (to_lower (strip raw))));
    [injection H as <-; reflexivity|].
  destruct (re_fullmatch re_relative (to_lower (strip raw))) as [m|].
  { destruct (dict_get _DAY_NAMES (group_str 1 m)) as [target|];
      [|injection H as <-; reflexivity].
    match type of H with bind ?a _ = _ => destruct a as [res|] end;
      cbn [bind] in H; [|discriminate].
    injection H as <-. apply single_line_isoformat. }
  destruct (text_eqb (to_lower (strip raw)) (str "today"));
    [injection H as <-; apply single_line_isoformat|].
  destruct (text_eqb (to_lower (strip raw)) (str "tomorrow")).
  { destruct (add_days today 1) as [res|]; cbn [bind] in H; [|discriminate].
    injection H as <-. apply single_line_isoformat. }
  destruct (re_fullmatch re_slash (strip raw)) as [m|];
    [injection H as <-; apply single_line_iso_or_empty|].
  cbv zeta in H.
  destruct (re_fullmatch re_month_day (strip raw)) as [m|].
  { destruct (dict_get _MONTH_NAMES (to_lower (group_str 1 m))) as [month|];
      [injection H as <-; apply single_line_iso_or_empty|].
    destruct (re_fullmatch re_day_month (strip raw)) as [m'|];
      [|injection H as <-; reflexivity].
    destruct (dict_get _MONTH_NAMES (to_lower (group_str 2 m'))) as [month|];
      injection H as <-; [apply single_line_iso_or_empty|reflexivity]. }
  destruct (re_fullmatch re_day_month (strip raw)) as [m'|];
    [|injection H as <-; reflexivity].
  destruct (dict_get _MONTH_NAMES (to_lower (group_str 2 m'))) as [month|];
    injection H as <-; [apply single_line_iso_or_empty|reflexivity].
Qed.

Lemma _extract_due_date_single_line (today : date) (line r : text) :
  _extract_due_date today line = Ok r -> single_line r = true.
Proof.
  unfold _extract_due_date, due_of. intros H.
  match type of H with bind ?a _ = _ => destruct a as [first|] eqn:H1 end;
    cbn [bind] in H; [|discriminate].
  assert (S1 : single_line first = true).
  { destruct (re_search re_due line) as [m|].
    - eapply normalize_date_single_line; exact H1.
    - injection H1 as <-; reflexivity. }
  destruct (negb (is_empty first)); [injection H as <-; exact S1|].
  match type of H with bind ?a _ = _ => destruct a as [second|] eqn:H2 end;
    cbn [bind] in H; [|discriminate].
  assert (S2 : single_line second = true).
  { destruct (re_search re_by line) as [m|].
    - eapply normalize_date_single_line; exact H2.
    - injection H2 as <-; reflexivity. }
  destruct (negb (is_empty second)); injection H as <-; [exact S2|reflexivity].
Qed.

(** X17: no field of a returned item holds a line boundary: the task, the
    owner, the due date, the priority and the raw line are each a single
    line. *)
Theorem parsed_fields_single_line (today : date) (doc : text) (items : list ActionItem) :
  parse_meeting_notes today doc = Ok items -> Forall single_line_item items.
Proof.
  intros H. apply Forall_forall. intros it Hin. unfold parse_meeting_notes in H.
  destruct (parse_lines_in _ _ _ H it Hin) as (raw & Hraw & Hl).
  pose proof (splitlines_single doc) as Hs. rewrite Forall_forall in Hs.
  pose proof (single_line_strip raw (Hs raw Hraw)) as Hline.
  apply parse_line_item in Hl
    as (tt & inferred & _ & _ & Hc & Ht & _ & Ho & Hd & Hp & Hr).
  destruct (classify_chars (fun c => negb (is_linebreak c)) eq_refl (strip raw) tt inferred Hline Hc)
    as [Htt Hinf].
  unfold single_line_item. repeat match goal with |- _ /\ _ => split end.
  - rewrite Ht. apply (clean_chars (fun c => negb (is_linebreak c)) eq_refl). exact Htt.
  - rewrite Ho.
    destruct (negb (text_eqb (_extract_owner (strip raw)) unassigned));
      [apply (_extract_owner_chars (fun c => negb (is_linebreak c)) eq_refl); exact Hline|exact Hinf].
  - eapply _extract_due_date_single_line; exact Hd.
  - rewrite Hp. pose proof (_extract_priority_values (strip raw)) as Hv.
    cbn [In] in Hv. destruct Hv as [<-|[<-|[<-|[]]]]; reflexivity.
  - rewrite Hr. exact Hline.
Qed.

Lemma parsed_fields_single_line_witness :
  Forall single_line_item
    [mkActionItem (str "review the deployment plan") (str "Alice") (str "2026-03-10")
       (str "normal") (str "Alice to review the deployment plan by March 10")].
Proof.
  apply (parsed_fields_single_line (mkDate 2026 2 6)
           (str "Alice to review the deployment plan by March 10" ++ [carriage_return])).
  vm_compute. reflexivity.
Defined.

Lemma splitlines_from_line (l : text) :
  forall cur rest,
    single_line l = true ->
    splitlines_from cur (l ++ newline :: rest) = (rev cur ++ l) :: splitlines_from [] rest.
Proof.
  induction l as [|c l IH]; intros cur rest Hl.
  - cbn [app splitlines_from]. change (is_linebreak newline) with true.
    change (Ascii.eqb newline carriage_return) with false. cbv iota.
    rewrite app_nil_r. reflexivity.
  - unfold single_line in Hl. cbn [forallb] in Hl. apply andb_prop in Hl as [Hc Hl].
    apply negb_true_iff in Hc. cbn [app splitlines_from]. rewrite Hc.
    rewrite (IH (c :: cur) rest Hl). cbn [rev]. rewrite <- app_assoc. reflexivity.
Qed.

(** Lines that are joined with newlines, the last one followed by a newline
    too, are the lines of the text. *)
Lemma splitlines_join (lines : list text) :
  Forall (fun l => single_line l = true) lines ->
  splitlines (join [newline] (lines ++ [[]])) = lines.
Proof.
  induction 1 as [|x lines Hx Hl IH]; [reflexivity|].
  cbn [app join]. destruct (lines ++ [[]]) as [|y rest] eqn:E.
  { destruct lines; discriminate. }
  cbn [app]. unfold splitlines. rewrite (splitlines_from_line x [] _ Hx).
  cbn [rev app]. f_equal. exact IH.
Qed.

Lemma single_line_app (a b : text) :
  single_line (a ++ b) = single_line a && single_line b.
Proof. apply forallb_app. Qed.

Lemma single_line_item_line (it : ActionItem) :
  single_line_item it -> single_line (item_line it) = true.
Proof.
  intros (Ht & Ho & Hd & Hp & _). unfold item_line.
  destruct (negb (is_empty (due_date it)));
    destruct (negb (text_eqb (owner it) unassigned));
    destruct (negb (text_eqb (priority it) (str "normal")));
    rewrite ?single_line_app, ?Ht, ?Ho, ?Hd, ?Hp; reflexivity.
Qed.

(** X18: the Markdown document of items whose fields are single lines (as
    those of every parsed item are) has the heading, an empty line and then
    one line per item, in the order of [sort_items]; without items the
    placeholder stands in their place. *)
Theorem format_markdown_lines (items : list ActionItem) :
  Forall single_line_item items ->
  splitlines (format_markdown items) =
  str "# Action Items" :: [] ::
  match items with
  | [] => [str "_No action items found._"]
  | _ :: _ => map item_line (sort_items items)
  end.
Proof.
  intros H. unfold format_markdown.
  assert (Hs : Forall single_line_item (sort_items items)).
  { eapply Permutation_Forall; [|exact H]. symmetry. apply sorted_by_perm. }
  destruct (sort_items items) as [|x l] eqn:E.
  - destruct items as [|y items]; [reflexivity|].
    pose proof (sorted_by_perm _sort_key (y :: items)) as Pm.
    fold (sort_items (y :: items)) in Pm. rewrite E in Pm.
    apply Permutation_nil in Pm. discriminate.
  - destruct items as [|y items]; [discriminate|].
    change ([str "# Action Items"; []] ++ map item_line (x :: l) ++ [[]])
      with ((str "# Action Items" :: [] :: map item_line (x :: l)) ++ [[]]).
    apply splitlines_join.
    constructor; [reflexivity|]. constructor; [reflexivity|].
    apply Forall_map. eapply Forall_impl; [|exact Hs].
    intros it. apply single_line_item_line.
Qed.

Lemma format_markdown_lines_witness :
  splitlines
    (format_markdown
       [mkActionItem (str "Fix bug") unassigned [] (str "high") [];
        mkActionItem (str "Write docs") (str "Alice") (str "2026-03-01") (str "normal") []])
  = [str "# Action Items"; [];
     str "- [ ] Write docs @Alice (due 2026-03-01)"; str "- [ ] Fix bug [high]"].
Proof.
  apply (format_markdown_lines
           [mkActionItem (str "Fix bug") unassigned [] (str "high") [];
            mkActionItem (str "Write docs") (str "Alice") (str "2026-03-01")
              (str "normal") []]).
  repeat constructor.
Defined.

(** ** The due date behind the keyword *)

(** [re.search] passes over a prefix in which no match begins. *)
Lemma search_from_skip (r : regex) (pre : text) :
  forall prev s,
    (forall a b, pre = a ++ b -> b <> [] ->
                 run r (last_of prev a) (b ++ s) [] (accept (b ++ s)) = None) ->
    search_from r prev (pre ++ s) = search_from r (last_of prev pre) s.
Proof.
  induction pre as [|c pre IH]; intros prev s H; [reflexivity|].
  cbn [app search_from].
  assert (H0 : run r prev (c :: pre ++ s) [] (accept (c :: pre ++ s)) = None)
    by (apply (H [] (c :: pre) eq_refl); discriminate).
  rewrite H0.
  rewrite (IH (Some c) s); [reflexivity|].
  intros a b E Hb. apply (H (c :: a) b); [rewrite E; reflexivity|exact Hb].
Qed.

(** A match of the due-date pattern begins with ["Due"] or ["due"]. *)
Lemma re_due_head_chars {A : Type} (prev : option ascii) (s : text)
    (k : option ascii -> text -> captures -> option A) (x : A) :
  run re_due prev s [] k = Some x ->
  exists c t, s = c :: str "ue" ++ t /\ one_of (str "Dd") c = true.
Proof.
  intros H. apply run_sound in H as (w & s' & caps' & -> & M & _).
  cbn [Matches re_due seq_of lit map str list_ascii_of_string plus re_until_punct] in M.
  destruct M as (w1 & r1 & c1 & -> & ((c & -> & Hc) & _) & M).
  destruct M as (w2 & r2 & c2 & -> & M2 & _).
  destruct M2 as (u & e & c3 & -> & ((cu & -> & Hu) & _) & ((ce & -> & He) & _)).
  apply chr_eq in Hu, He. subst cu ce.
  exists c, (r2 ++ s'). split; [|exact Hc].
  cbn [app str list_ascii_of_string]. reflexivity.
Qed.

Lemma no_due_before (pre kw tail : text) (prev : option ascii) :
  ~ mentions_due pre -> due_keyword kw ->
  forall a b, pre = a ++ b -> b <> [] ->
    run re_due (last_of prev a) (b ++ kw ++ tail) [] (accept (b ++ kw ++ tail)) = None.
Proof.
  intros Hn (k & Hk & Ekw) a b E Hb.
  destruct (run re_due (last_of prev a) (b ++ kw ++ tail) []
              (accept (b ++ kw ++ tail))) as [m|] eqn:R; [|reflexivity].
  exfalso. apply re_due_head_chars in R as (c & t & E' & Hc).
  destruct b as [|c' [|u [|e b]]]; [congruence| | |].
  - destruct Ekw as [-> | ->]; cbn [app str list_ascii_of_string] in E';
      injection E' as -> Eu _; subst k; discriminate Hk.
  - destruct Ekw as [-> | ->]; cbn [app str list_ascii_of_string] in E';
      injection E' as -> -> Ee _; subst k; discriminate Hk.
  - cbn [app str list_ascii_of_string] in E'. injection E' as -> -> -> _.
    apply Hn. exists a, c, b. split; [exact E|exact Hc].
Qed.

(** At the keyword the pattern takes the white space and then the whole
    fragment. *)
Lemma re_due_here (prev : option ascii) (kw ws raw rest : text) :
  due_keyword kw -> forallb is_space ws = true -> ws <> [] ->
  due_fragment raw -> fragment_end rest ->
  exists m,
    run re_due prev (kw ++ ws ++ raw ++ rest) [] (accept (kw ++ ws ++ raw ++ rest))
    = Some m /\ group_str 1 m = raw.
Proof.
  intros (k & Hk & Ekw) Hs Ns (Nr & Fr & Hr) He.
  destruct (head_of is_space ws Hs Ns) as (sp & st & Es & Hsp).
  destruct raw as [|c raw]; [congruence|]. cbn in Fr.
  assert (Hstop : stops_after (none_of (str ";." ++ [newline])) None (c :: raw) rest).
  { destruct He as [->|(e & t & -> & Hx)]; [apply stops_at_end|].
    apply stops_before. exact Hx. }
  assert (Hcolon : chr ":" sp = false).
  { unfold chr. destruct (Ascii.eqb_spec sp ":") as [->|]; [discriminate Hsp|reflexivity]. }
  cbn [str list_ascii_of_string] in Hk. subst ws.
  destruct Ekw as [-> | ->]; eexists; split.
  - unfold re_due, re_until_punct. cbn [seq_of lit map str list_ascii_of_string].
    cbn [app run]. rewrite Hk. unfold chr at 1 2.
    cbn [Ascii.eqb Bool.eqb andb]. rewrite Hcolon.
    cbn [plus run].
    apply (rep_greedy is_space (sp :: st) 1 None _ ((c :: raw) ++ rest));
      [exact Hs|cbn; lia|exact I|apply stops_before; exact Fr|].
    apply (rep_greedy _ (c :: raw) 1 None _ rest);
      [exact Hr|cbn; lia|exact I|exact Hstop|].
    unfold accept. reflexivity.
  - unfold group_str, mgroup; cbn [m_caps group Nat.eqb]; apply consumed_app.
  - unfold re_due, re_until_punct. cbn [seq_of lit map str list_ascii_of_string].
    cbn [app run]. rewrite Hk. unfold chr at 1 2 3.
    cbn [Ascii.eqb Bool.eqb andb].
    cbn [plus run].
    erewrite (rep_greedy is_space (sp :: st) 1 None _ ((c :: raw) ++ rest));
      [reflexivity|exact Hs|cbn; lia|exact I|apply stops_before; exact Fr|].
    apply (rep_greedy _ (c :: raw) 1 None _ rest);
      [exact Hr|cbn; lia|exact I|exact Hstop|].
    unfold accept. reflexivity.
  - unfold group_str, mgroup; cbn [m_caps group Nat.eqb]; apply consumed_app.
Qed.

Lemma re_search_due (pre kw ws raw rest : text) :
  ~ mentions_due pre -> due_keyword kw ->
  forallb is_space ws = true -> ws <> [] ->
  due_fragment raw -> fragment_end rest ->
  exists m, re_search re_due (pre ++ kw ++ ws ++ raw ++ rest) = Some m /\
            group_str 1 m = raw.
Proof.
  intros Hn Hk Hs Ns Hr He.
  destruct (re_due_here (last_of None pre) kw ws raw rest Hk Hs Ns Hr He)
    as (m & Hm & Hg).
  exists m. split; [|exact Hg].
  rewrite re_search_eq, search_from_skip.
  - apply search_from_here. exact Hm.
  - apply no_due_before; assumption.
Qed.

(** X20: a due date behind the keyword.  On a line in which the first
    ["Due"] or ["due"] is the keyword [[Dd]ue:?], followed by white space and
    a fragment that runs to the end of the line or to the next semicolon or
    period, [_extract_due_date] normalizes that fragment (stripped, a
    trailing priority tag removed) and returns the result when it is a
    date. *)
Theorem due_keyword_date (today : date) (pre kw ws raw rest r : text) :
  ~ mentions_due pre -> due_keyword kw ->
  forallb is_space ws = true -> ws <> [] ->
  due_fragment raw -> fragment_end rest ->
  normalize_date today (re_sub re_trailing_ptag [] (rstrip_dot (strip raw))) = Ok r ->
  r <> [] ->
  _extract_due_date today (pre ++ kw ++ ws ++ raw ++ rest) = Ok r.
Proof.
  intros Hn Hk Hs Ns Hr He Hd Nr.
  destruct (re_search_due pre kw ws raw rest Hn Hk Hs Ns Hr He) as (m & Hm & Hg).
  unfold _extract_due_date, due_of. rewrite Hm, Hg, Hd. cbn [bind].
  destruct r; [congruence|reflexivity].
Qed.

Lemma due_keyword_date_witness :
  _extract_due_date (mkDate 2026 2 6)
    (str "TODO: send the report; Due: Feb 14 (P1); Owner: Bob")
  = Ok (str "2026-02-14").
Proof.
  apply (due_keyword_date (mkDate 2026 2 6) (str "TODO: send the report; ")
           (str "Due:") (str " ") (str "Feb 14 (P1)") (str "; Owner: Bob")).
  - intros (a & c & b & E & Hc).
    assert (F : forallb (fun x => negb (Ascii.eqb x "u")) (str "TODO: send the report; ")
                = true) by reflexivity.
    rewrite E, forallb_app in F. apply andb_prop in F as [_ F].
    cbn [forallb app str list_ascii_of_string] in F.
    apply andb_prop in F as [_ F]. discriminate F.
  - exists "D"%char. split; [reflexivity|right; reflexivity].
  - reflexivity.
  - discriminate.
  - split; [discriminate|]. split; reflexivity.
  - right. exists ";"%char, (str " Owner: Bob"). split; reflexivity.
  - vm_compute. reflexivity.
  - discriminate.
Defined.

(** An earlier ["due"] takes the place of the keyword: the fragment behind
    it is no date, and the date behind the keyword itself is lost. *)
Example due_keyword_shadowed :
  _extract_due_date (mkDate 2026 2 6) (str "Collect overdue invoices, Due: 2026-03-01")
  = Ok [].
Proof. vm_compute. reflexivity. Qed.

(** ** The cleaner on plain text, and the length of its result *)

(** X23: plain text passes through the cleaner unchanged: a text in which no
    metadata pattern matches, without white space at its ends or doubled
    inside, and ending in neither [;] nor [.], is its own cleaned form. *)
Theorem clean_plain_text (t : text) :
  metadata_free t -> trimmed t -> no_double_space t = true ->
  ~ ends_with ";" t -> ~ ends_with "." t ->
  _clean_task_text t = t.
Proof.
  intros Hfree Ht Hn Hsemi Hdot.
  rewrite (clean_metadata_free t Hfree). apply tidy_fixed; assumption.
Qed.

Lemma clean_plain_text_witness :
  _clean_task_text (str "ship the build to staging") = str "ship the build to staging".
Proof.
  apply clean_plain_text.
  - unfold metadata_free, metadata_patterns.
    repeat (constructor; [vm_compute; reflexivity|]). constructor.
  - split; reflexivity.
  - reflexivity.
  - intros (b & E).
    assert (L : last_of None (str "ship the build to staging") = Some ";"%char)
      by (rewrite E, last_of_app; reflexivity).
    discriminate L.
  - intros (b & E).
    assert (L : last_of None (str "ship the build to staging") = Some "."%char)
      by (rewrite E, last_of_app; reflexivity).
    discriminate L.
Defined.

Lemma sub_from_length (r : regex) (fuel : nat) :
  forall prev s, (length (sub_from fuel r [] prev s) <= length s)%nat.
Proof.
  induction fuel as [|fuel IH]; intros prev s; [cbn [sub_from]; lia|].
  cbn [sub_from].
  assert (Hstep : (length match s with
                          | [] => []
                          | c :: t => c :: sub_from fuel r [] (Some c) t
                          end <= length s)%nat).
  { destruct s as [|c t]; [cbn; lia|]. cbn [length]. specialize (IH (Some c) t). lia. }
  destruct (run r prev s [] (accept s)) as [m|] eqn:E; [|exact Hstep].
  apply run_sound in E as (w & s' & caps' & -> & _ & E).
  unfold accept in E. injection E as <-. cbn [m_rest m_prev app].
  destruct (Nat.ltb (length s') (length (w ++ s'))); [|exact Hstep].
  specialize (IH (last_of prev w) s'). rewrite length_app. lia.
Qed.

Lemma re_sub_length (r : regex) (s : text) :
  (length (re_sub r [] s) <= length s)%nat.
Proof. rewrite re_sub_eq. apply sub_from_length. Qed.

Lemma collapse_from_length (s : text) :
  forall run,
    (length (collapse_from run s)
     <= match run with Some _ => 1 | None => 0 end + length s)%nat.
Proof.
  induction s as [|c t IH]; intros run; cbn [collapse_from length].
  - destruct run as [[f []]|]; cbn; lia.
  - destruct (is_space c).
    + match goal with |- context [collapse_from ?x t] => specialize (IH x) end.
      cbn beta iota in IH. destruct run; lia.
    + specialize (IH None). rewrite length_app. cbn [length].
      pose proof (flush_length run). destruct run as [[f []]|]; cbn in *; lia.
Qed.

Lemma lstrip_by_length (p : ascii -> bool) (s : text) :
  (length (lstrip_by p s) <= length s)%nat.
Proof.
  induction s as [|c t IH]; [cbn; lia|]. cbn [lstrip_by].
  destruct (p c); cbn [length]; lia.
Qed.

Lemma rstrip_by_length (p : ascii -> bool) (s : text) :
  (length (rstrip_by p s) <= length s)%nat.
Proof.
  unfold rstrip_by. rewrite length_rev.
  pose proof (lstrip_by_length p (rev s)). rewrite length_rev in *. lia.
Qed.

Lemma strip_length (s : text) : (length (strip s) <= length s)%nat.
Proof.
  unfold strip. pose proof (rstrip_by_length is_space (lstrip_by is_space s)).
  pose proof (lstrip_by_length is_space s). lia.
Qed.

Lemma tidy_length (t : text) : (length (tidy t) <= length t)%nat.
Proof.
  rewrite tidy_eq. unfold rstrip_dot, collapse_spaces.
  eapply Nat.le_trans; [apply strip_length|].
  eapply Nat.le_trans; [apply rstrip_by_length|].
  eapply Nat.le_trans; [apply strip_length|].
  eapply Nat.le_trans; [apply (collapse_from_length _ None)|].
  cbn [Nat.add]. apply re_sub_length.
Qed.

(** X24: the cleaner never makes a text longer: it removes fragments and
    replaces runs of white space by one space. *)
Theorem clean_never_longer (t : text) :
  (length (_clean_task_text t) <= length t)%nat.
Proof.
  unfold _clean_task_text.
  repeat match goal with
         | |- context [re_sub ?r [] ?x] =>
             lazymatch x with
             | context [re_sub] => fail
             | _ => pose proof (re_sub_length r x); set (re_sub r [] x) in *
             end
         end.
  match goal with |- (length (tidy ?z) <= _)%nat => pose proof (tidy_length z) end.
  lia.
Qed.

(** ** A single word *)

Lemma in_head_of (p : ascii -> bool) (S : text) (a b : text) :
  forallb p S = true -> (1 <= length S)%nat ->
  exists c, In c (a ++ S ++ b) /\ p c = true.
Proof.
  intros HS LS. destruct S as [|c S]; [cbn in LS; lia|].
  cbn [forallb] in HS. apply andb_prop in HS as [Hc _].
  exists c. split; [|exact Hc]. apply in_or_app. right. left. reflexivity.
Qed.

Lemma relative_has_space (s : text) (m : rmatch) :
  re_fullmatch re_relative s = Some m -> exists c, In c s /\ is_space c = true.
Proof.
  intros E. apply relative_shape in E as (S & W & -> & HS & NS).
  apply in_head_of; [exact HS|destruct S; [congruence|cbn; lia]].
Qed.

Lemma month_day_has_space (s : text) (m : rmatch) :
  re_fullmatch re_month_day s = Some m -> exists c, In c s /\ is_space c = true.
Proof.
  intros E. apply re_fullmatch_sound in E as (caps' & M & _).
  cbn [Matches re_month_day seq_of plus times] in M.
  destruct M as (W & r1 & c1 & -> & _ & M).
  destruct M as (S & r2 & c2 & -> & ((HS & LS & _) & _) & _).
  apply in_head_of; assumption.
Qed.

Lemma day_month_has_space (s : text) (m : rmatch) :
  re_fullmatch re_day_month s = Some m -> exists c, In c s /\ is_space c = true.
Proof.
  intros E. apply re_fullmatch_sound in E as (caps' & M & _).
  cbn [Matches re_day_month seq_of plus times] in M.
  destruct M as (W & r1 & c1 & -> & _ & M).
  destruct M as (S & r2 & c2 & -> & ((HS & LS & _) & _) & _).
  apply in_head_of; assumption.
Qed.

Lemma no_space_in_word (w : text) (c : ascii) :
  forallb is_word w = true -> In c w -> is_space c = true -> False.
Proof.
  intros Hw Hin Hc. rewrite forallb_forall in Hw.
  apply space_not_word in Hc. rewrite (Hw c Hin) in Hc. discriminate.
Qed.

(** X22: a single word that begins with a letter names no date, except
    ["today"] and ["tomorrow"]: a weekday or month name on its own, a quarter
    such as ["Q3"], or any other word gives [""]. *)
Theorem single_word_no_date (today : date) (raw : text) (a : ascii) (t : text) :
  strip raw = a :: t -> is_alpha a = true -> forallb is_word t = true ->
  to_lower (a :: t) <> str "today" -> to_lower (a :: t) <> str "tomorrow" ->
  normalize_date today raw = Ok [].
Proof.
  intros Hraw Ha Ht N1 N2.
  assert (Hw : forallb is_word (a :: t) = true)
    by (cbn [forallb]; rewrite (alpha_word a Ha); exact Ht).
  assert (Hlw : forallb is_word (to_lower (a :: t)) = true)
    by (rewrite to_lower_word; exact Hw).
  unfold normalize_date. rewrite Hraw. cbn [is_empty].
  destruct (alpha_plain a Ha) as [P1 P2].
  rewrite (fromisoformat_none (a :: t) a (or_introl eq_refl) P1).
  destruct (is_some (re_fullmatch re_quarter (to_lower (a :: t)))); [reflexivity|].
  destruct (re_fullmatch re_relative (to_lower (a :: t))) as [m|] eqn:E1.
  { apply relative_has_space in E1 as (c & Hin & Hc).
    destruct (no_space_in_word _ c Hlw Hin Hc). }
  apply text_eqb_neq in N1, N2. rewrite N1, N2.
  destruct (re_fullmatch re_slash (a :: t)) as [m|] eqn:E2.
  { apply slash_chars in E2. cbn [forallb] in E2. rewrite P2 in E2. discriminate. }
  cbv zeta.
  destruct (re_fullmatch re_month_day (a :: t)) as [m|] eqn:E3.
  { apply month_day_has_space in E3 as (c & Hin & Hc).
    destruct (no_space_in_word _ c Hw Hin Hc). }
  destruct (re_fullmatch re_day_month (a :: t)) as [m|] eqn:E4.
  { apply day_month_has_space in E4 as (c & Hin & Hc).
    destruct (no_space_in_word _ c Hw Hin Hc). }
  reflexivity.
Qed.

Lemma single_word_no_date_witness :
  normalize_date (mkDate 2026 2 6) (str " Friday ") = Ok [] /\
  normalize_date (mkDate 2026 2 6) (str "Q3") = Ok [].
Proof.
  split.
  - apply (single_word_no_date (mkDate 2026 2 6) (str " Friday ") "F" (str "riday"));
      [reflexivity|reflexivity|reflexivity|discriminate|discriminate].
  - apply (single_word_no_date (mkDate 2026 2 6) (str "Q3") "Q" (str "3"));
      [reflexivity|reflexivity|reflexivity|discriminate|discriminate].
Defined.

(** ** ACTION ITEM lines *)








(** ** Lines without a due-date keyword *)

(** A match of the ["by"] pattern begins with these two letters. *)
Lemma re_by_head_chars (prev : option ascii) (w s' : text) (caps caps' : captures) :
  Matches re_by prev w s' caps caps' ->
  exists c1 c2 t, w = c1 :: c2 :: t /\ lower c1 = "b"%char /\ lower c2 = "y"%char.
Proof.
  intros M.
  cbn [Matches re_by seq_of lit_ci map str list_ascii_of_string] in M.
  destruct M as (w0 & r0 & c0 & -> & (-> & _) & M).
  destruct M as (w1 & r1 & c1 & -> & M1 & _).
  destruct M1 as (u & e & c3 & -> & ((cu & -> & Hu) & _) & ((ce & -> & He) & _)).
  exists cu, ce, r1. split; [reflexivity|].
  unfold chr_ci in Hu, He. apply Ascii.eqb_eq in Hu, He. split; assumption.
Qed.

Lemma re_due_matches_head (prev : option ascii) (w s' : text) (caps caps' : captures) :
  Matches re_due prev w s' caps caps' ->
  exists c t, w = c :: str "ue" ++ t /\ one_of (str "Dd") c = true.
Proof.
  intros M.
  cbn [Matches re_due seq_of lit map str list_ascii_of_string plus re_until_punct] in M.
  destruct M as (w1 & r1 & c1 & -> & ((c & -> & Hc) & _) & M).
  destruct M as (w2 & r2 & c2 & -> & M2 & _).
  destruct M2 as (u & e & c3 & -> & ((cu & -> & Hu) & _) & ((ce & -> & He) & _)).
  apply chr_eq in Hu, He. subst cu ce.
  exists c, r2. split; [reflexivity|exact Hc].
Qed.

(** X21: without a keyword there is no due date: on a line that holds
    neither ["due"] (or ["Due"]) nor ["by"] in any mix of cases,
    [_extract_due_date] returns [""], whatever dates the line holds. *)
Theorem no_keyword_no_due_date (today : date) (line : text) :
  ~ mentions_due line -> ~ mentions_by line ->
  _extract_due_date today line = Ok [].
Proof.
  intros Hd Hb. unfold _extract_due_date.
  destruct (re_search re_due line) as [m|] eqn:E1.
  { exfalso. apply re_search_sound in E1 as (pre & w & s' & caps' & -> & M & _).
    apply re_due_matches_head in M as (c & t & -> & Hc).
    apply Hd. exists pre, c, (t ++ s'). split; [|exact Hc].
    cbn [app str list_ascii_of_string]. reflexivity. }
  cbn [bind is_empty negb].
  destruct (re_search re_by line) as [m|] eqn:E2; [|reflexivity].
  exfalso. apply re_search_sound in E2 as (pre & w & s' & caps' & -> & M & _).
  apply re_by_head_chars in M as (c1 & c2 & t & -> & H1 & H2).
  apply Hb. exists pre, c1, c2, (t ++ s'). split; [reflexivity|]. split; assumption.
Qed.

Lemma no_keyword_no_due_date_witness :
  _extract_due_date (mkDate 2026 2 6) (str "TODO: ship on 2026-03-01") = Ok [].
Proof.
  apply no_keyword_no_due_date.
  - intros (a & c & b & E & _).
    assert (F : forallb (fun x => negb (Ascii.eqb x "u")) (str "TODO: ship on 2026-03-01")
                = true) by reflexivity.
    rewrite E, forallb_app in F. apply andb_prop in F as [_ F].
    cbn [forallb app str list_ascii_of_string] in F.
    apply andb_prop in F as [_ F]. discriminate F.
  - intros (a & c1 & c2 & b & E & _ & H2).
    assert (F : forallb (fun x => negb (Ascii.eqb (lower x) "y")) (str "TODO: ship on 2026-03-01")
                = true) by reflexivity.
    rewrite E, forallb_app in F. apply andb_prop in F as [_ F].
    cbn [forallb] in F. rewrite H2 in F.
    apply andb_prop in F as [_ F]. discriminate F.
Defined.

(** ** Keyword lines in a document *)










